(** * Outserv bulk-loader core: SSTable builder, map-entry codec, shard
      mapper and index rebuild decisions.

    A shallow embedding of
      - [badger/table/builder.go]   (header, TableBuilder),
      - the bulk loader's mapper    (MapEntry, less, writeMapEntriesToFile,
                                     processNQuad, createPostings),
      - [posting/index.go]          (the count, tokenizer and list-type
                                     decisions of IndexRebuild and their
                                     callers),
      - [x/x.go]                    (FromHex, ToHexString, Diff),
    together with the properties the specification states about them and
    further properties read off the code.

    Conventions.  Go's [int], [int64], [uint32], [uint64] are integers in
    [Z]; every conversion to a narrower unsigned type is written out as a
    reduction modulo a power of two.  A [[]byte] is a [list byte]; a slice
    expression that Go would reject at run time is a [Panic]. *)

From Stdlib Require Import ZArith Lia List Bool String Ascii.
From Stdlib Require Import Sorting.Sorted Sorting.Permutation.
From coqutil Require Import Byte.
Import ListNotations.
Local Open Scope Z_scope.

(** ** Go runtime: panics, slices, big-endian integers *)

(** The outcome of a Go call: it returns, or the process dies ([panic],
    [y.AssertTrue], [x.Check], [log.Fatalf]). *)
Inductive result (A : Type) : Type :=
| Ok (a : A)
| Panic.
Arguments Ok {A} a.
Arguments Panic {A}.

Definition rbind {A B} (r : result A) (k : A -> result B) : result B :=
  match r with
  | Ok a => k a
  | Panic => Panic
  end.

Definition bytes : Type := list Init.Byte.byte.

(** [len(s)] as a Go [int]. *)
Definition len {A} (s : list A) : Z := Z.of_nat (List.length s).

(** [s[lo:]] and [s[lo:hi]]; both panic outside [0 <= lo <= hi <= len(s)]
    (slices are modelled with capacity equal to length). *)
Definition slice_from {A} (lo : Z) (s : list A) : result (list A) :=
  if (0 <=? lo) && (lo <=? len s) then Ok (skipn (Z.to_nat lo) s) else Panic.

Definition slice {A} (lo hi : Z) (s : list A) : result (list A) :=
  if (0 <=? lo) && (lo <=? hi) && (hi <=? len s)
  then Ok (firstn (Z.to_nat (hi - lo)) (skipn (Z.to_nat lo) s))
  else Panic.

(** [make([]byte, n)]. *)
Definition make (n : Z) : bytes := repeat Byte.x00 (Z.to_nat n).

(** Conversions to unsigned fixed-width integers. *)
Definition uint16 (z : Z) : Z := z mod 2 ^ 16.
Definition uint32 (z : Z) : Z := z mod 2 ^ 32.
Definition uint64 (z : Z) : Z := z mod 2 ^ 64.
Definition MaxUint64 : Z := 2 ^ 64 - 1.

(** [binary.BigEndian.PutUintN] on an [n]-byte destination: the most
    significant byte first, each byte the low 8 bits of a right shift. *)
Fixpoint be_put (n : nat) (v : Z) : bytes :=
  match n with
  | O => []
  | S m => byte.of_Z (Z.shiftr v (8 * Z.of_nat m)) :: be_put m v
  end.

(** [binary.BigEndian.UintN]: fold the bytes in with shift and or. *)
Definition be_get (bs : bytes) : Z :=
  fold_left (fun acc b => Z.lor (Z.shiftl acc 8) (byte.unsigned b)) bs 0.

Definition PutUint16 (v : Z) : bytes := be_put 2 v.
Definition PutUint32 (v : Z) : bytes := be_put 4 v.
Definition PutUint64 (v : Z) : bytes := be_put 8 v.

(** [bytes.Compare]: lexicographic order on unsigned bytes. *)
Definition bytes_Compare (a b : bytes) : comparison :=
  list_compare byte.compare a b.

(** [bytes.Equal]. *)
Definition bytes_Equal (a b : bytes) : bool :=
  match bytes_Compare a b with Eq => true | _ => false end.

(** [strings.HasPrefix]. *)
Fixpoint strings_HasPrefix (s prefix : string) {struct prefix} : bool :=
  match prefix with
  | EmptyString => true
  | String c prefix' =>
      match s with
      | EmptyString => false
      | String d s' => Ascii.eqb c d && strings_HasPrefix s' prefix'
      end
  end.

(** [splice p d s]: [s] with [d] written over it at offset [p]. *)
Definition splice (p : Z) (d s : bytes) : bytes :=
  firstn (Z.to_nat p) s ++ d ++ skipn (Z.to_nat (p + len d)) s.

(** ** The SSTable builder ([badger/table/builder.go]) *)

Module Table.

(** [y.Errorf("Exceeds table size")], the only error [Add] returns. *)
Inductive error : Type :=
| ErrExceedsTableSize.

Record header : Type := mkHeader {
  plen : Z;
  klen : Z;
  vlen : Z;
  prev : Z
}.

(** [header.Size]. *)
Definition Size (h : header) : Z := 8.

(** [header.Encode]: four 16-bit big-endian fields. *)
Definition Encode (h : header) : bytes :=
  PutUint16 (uint16 (plen h)) ++ PutUint16 (uint16 (klen h))
  ++ PutUint16 (uint16 (vlen h)) ++ PutUint16 (uint16 (prev h)).

(** [header.Decode]: reads [buf[0:2]], [buf[2:4]], [buf[4:6]], [buf[6:8]]. *)
Definition Decode (buf : bytes) : result header :=
  rbind (slice 0 2 buf) (fun b0 =>
  rbind (slice 2 4 buf) (fun b1 =>
  rbind (slice 4 6 buf) (fun b2 =>
  rbind (slice 6 8 buf) (fun b3 =>
  Ok (mkHeader (be_get b0) (be_get b1) (be_get b2) (be_get b3)))))).

Record TableBuilder : Type := mkBuilder {
  counter : Z;
  buf : bytes;
  pos : Z;
  baseKey : bytes;
  restarts : list Z;
  prevOffset : Z
}.

(** The zero value of the struct ([var b TableBuilder]). *)
Definition zeroBuilder : TableBuilder := mkBuilder 0 [] 0 [] [] 0.

Definition set_counter (c : Z) (b : TableBuilder) : TableBuilder :=
  mkBuilder c (buf b) (pos b) (baseKey b) (restarts b) (prevOffset b).
Definition set_buf (d : bytes) (b : TableBuilder) : TableBuilder :=
  mkBuilder (counter b) d (pos b) (baseKey b) (restarts b) (prevOffset b).
Definition set_pos (p : Z) (b : TableBuilder) : TableBuilder :=
  mkBuilder (counter b) (buf b) p (baseKey b) (restarts b) (prevOffset b).
Definition set_baseKey (k : bytes) (b : TableBuilder) : TableBuilder :=
  mkBuilder (counter b) (buf b) (pos b) k (restarts b) (prevOffset b).
Definition set_restarts (r : list Z) (b : TableBuilder) : TableBuilder :=
  mkBuilder (counter b) (buf b) (pos b) (baseKey b) r (prevOffset b).
Definition set_prevOffset (p : Z) (b : TableBuilder) : TableBuilder :=
  mkBuilder (counter b) (buf b) (pos b) (baseKey b) (restarts b) p.

(** Methods with a pointer receiver: the builder is threaded through, and
    a failed assertion ends the run. *)
Definition M (A : Type) : Type := TableBuilder -> result (A * TableBuilder).

Definition ret {A} (a : A) : M A := fun b => Ok (a, b).
Definition bind {A B} (m : M A) (k : A -> M B) : M B :=
  fun b => match m b with
           | Ok (a, b') => k a b'
           | Panic => Panic
           end.
Definition get : M TableBuilder := fun b => Ok (b, b).
Definition modify (f : TableBuilder -> TableBuilder) : M unit :=
  fun b => Ok (tt, f b).
Definition AssertTrue (c : bool) : M unit :=
  fun b => if c then Ok (tt, b) else Panic.

Notation "x <- m ;; k" := (bind m (fun x => k))
  (at level 61, m at next level, right associativity).
Notation "m ;;; k" := (bind m (fun _ => k))
  (at level 61, right associativity).

(** The common prefix length computed by the loop of [keyDiff]. *)
Fixpoint commonPrefix (newKey base : bytes) : nat :=
  match newKey, base with
  | x :: newKey', y :: base' =>
      if Z.eqb (byte.unsigned x) (byte.unsigned y)
      then S (commonPrefix newKey' base') else O
  | _, _ => O
  end.

(** The default values of the package variables. *)
Definition defaultTableSize : Z := Z.shiftl 50 20.
Definition defaultRestartInterval : Z := 100.

Section Builder.

(** [var tableSize int64] and [var restartInterval int]: package-level
    variables, fixed during the life of a builder. *)
Variable tableSize : Z.
Variable restartInterval : Z.

(** [Reset] leaves [prevOffset] alone and reuses a large enough buffer. *)
Definition Reset : M unit :=
  modify (fun b =>
    let b := set_counter 0 b in
    let b := if len (buf b) <? tableSize
             then set_buf (make tableSize) b else b in
    let b := set_pos 0 b in
    let b := set_baseKey [] b in
    set_restarts [] b).

(** [write]: [copy] moves [min(len(dst), len(d))] bytes into
    [b.buf[b.pos:]]; the assertion demands that this was all of [d]. *)
Definition write (d : bytes) : M unit :=
  fun b =>
    match slice_from (pos b) (buf b) with
    | Panic => Panic
    | Ok dst =>
        let n := Z.min (len dst) (len d) in
        let buf' := firstn (Z.to_nat (pos b)) (buf b)
                    ++ firstn (Z.to_nat n) d
                    ++ skipn (Z.to_nat n) dst in
        if len d =? n
        then Ok (tt, set_pos (pos b + len d) (set_buf buf' b))
        else Panic
    end.

(** [keyDiff] has a value receiver: it reads [baseKey] only. *)
Definition keyDiff (b : TableBuilder) (newKey : bytes) : bytes :=
  skipn (commonPrefix newKey (baseKey b)) newKey.

Definition length (b : TableBuilder) : Z :=
  pos b + 6 + 4 * len (restarts b) + 8.

Definition Add (key value : bytes) : M (option error) :=
  b <- get ;;
  if len key + len value + length b >? tableSize
  then ret (Some ErrExceedsTableSize)
  else
    (if counter b >=? restartInterval
     then modify (fun b => set_baseKey []
                             (set_counter 0
                                (set_restarts (restarts b ++ [uint32 (pos b)]) b)))
     else ret tt) ;;;
    b <- get ;;
    diffKey <- (if len (baseKey b) =? 0
                then modify (set_baseKey key) ;;; ret key
                else ret (keyDiff b key)) ;;
    b <- get ;;
    let h := mkHeader (len key - len diffKey) (len diffKey)
                      (len value) (prevOffset b) in
    modify (set_prevOffset (pos b)) ;;;
    write (Encode h) ;;;
    write diffKey ;;;
    write value ;;;
    modify (fun b => set_counter (counter b + 1) b) ;;;
    ret None.

(** [blockIndex] appends the end offset to [restarts] and serialises the
    vector followed by its length (the diagnostic [Printf] is omitted). *)
Definition blockIndex : M bytes :=
  modify (fun b => set_restarts (restarts b ++ [uint32 (pos b)]) b) ;;;
  b <- get ;;
  ret (List.concat (map PutUint32 (restarts b))
       ++ PutUint32 (uint32 (len (restarts b)))).

(** [Finish] drops the error of the terminating [Add]. *)
Definition Finish : M bytes :=
  _ <- Add [] [] ;;
  index <- blockIndex ;;
  let newpos := tableSize - len index in
  b <- get ;;
  AssertTrue (pos b <=? newpos) ;;;
  modify (set_pos newpos) ;;;
  write index ;;;
  b <- get ;;
  AssertTrue (pos b =? tableSize) ;;;
  ret (buf b).

(** Feeding a list of records, stopping at the first error. *)
Fixpoint AddAll (kvs : list (bytes * bytes)) : M (option error) :=
  match kvs with
  | [] => ret None
  | (k, v) :: rest =>
      e <- Add k v ;;
      match e with
      | None => AddAll rest
      | Some err => ret (Some err)
      end
  end.

End Builder.

(** *** Descriptions of the builder's effects, used in the statements *)

(** The builder after the restart test at the top of [Add]. *)
Definition afterRestart (R : Z) (b : TableBuilder) : TableBuilder :=
  if counter b >=? R
  then set_baseKey [] (set_counter 0
         (set_restarts (restarts b ++ [uint32 (pos b)]) b))
  else b.

(** The key bytes [Add] stores. *)
Definition diffKeyOf (b1 : TableBuilder) (key : bytes) : bytes :=
  if len (baseKey b1) =? 0 then key else keyDiff b1 key.

Definition headerOf (R : Z) (b : TableBuilder) (key value : bytes) : header :=
  let dk := diffKeyOf (afterRestart R b) key in
  mkHeader (len key - len dk) (len dk) (len value) (prevOffset b).

(** The builder after a successful [Add]. *)
Definition added (R : Z) (b : TableBuilder) (key value : bytes)
    : TableBuilder :=
  let b1 := afterRestart R b in
  let dk := diffKeyOf b1 key in
  mkBuilder (counter b1 + 1)
            (splice (pos b) (Encode (headerOf R b key value) ++ dk ++ value)
                    (buf b))
            (pos b + 8 + len dk + len value)
            (if len (baseKey b1) =? 0 then key else baseKey b1)
            (restarts b1)
            (pos b).

(** The bytes a list of records takes when no key is compressed. *)
Definition recordsSize (kvs : list (bytes * bytes)) : Z :=
  fold_right (fun kv acc => 8 + len (fst kv) + len (snd kv) + acc) 0 kvs.

(** The builder [Reset] leaves behind. *)
Definition reset (T : Z) (b : TableBuilder) : TableBuilder :=
  mkBuilder 0 (if len (buf b) <? T then make T else buf b) 0 [] []
            (prevOffset b).

(** The restart index [blockIndex] builds from a builder. *)
Definition indexOf (b : TableBuilder) : bytes :=
  let rs := restarts b ++ [uint32 (pos b)] in
  List.concat (map PutUint32 rs) ++ PutUint32 (uint32 (len rs)).

(** The builder [Finish] leaves behind. *)
Definition finished (T : Z) (b1 : TableBuilder) : TableBuilder :=
  set_pos T
    (set_buf (splice (T - len (indexOf b1)) (indexOf b1) (buf b1))
       (set_restarts (restarts b1 ++ [uint32 (pos b1)]) b1)).

(** The record at offset [o] of a buffer stores its key in full: its
    header decodes with prefix length 0. *)
Definition fullKeyAt (s : bytes) (o : Z) : Prop :=
  exists h, rbind (slice o (o + 8) s) Decode = Ok h /\ plen h = 0.

(** 250 distinct keys in increasing order, one-byte values. *)
Definition records250 : list (bytes * bytes) :=
  map (fun i => ([Byte.x6b; byte.of_Z (Z.of_nat i)], [Byte.x76]))
      (seq 0 250).

End Table.

(** ** Protocol-buffer messages ([protos/pb]), the fields the core reads *)

Module pb.

Inductive Posting_PostingType : Type :=
| Posting_REF
| Posting_VALUE.

Record Posting : Type := mkPosting {
  Uid : Z;
  Value : bytes;
  PostingType : Posting_PostingType
}.

Record Edge : Type := mkEdge {
  Subject : string;
  Predicate : string;
  ObjectId : string;
  ObjectValue : option bytes;
  Namespace : Z
}.

Record SchemaUpdate : Type := mkSchemaUpdate {
  Count : bool;
  List : bool
}.

(** [&pb.SchemaUpdate{}]. *)
Definition emptySchemaUpdate : SchemaUpdate := mkSchemaUpdate false false.

End pb.

(** ** Helpers of package [x] *)

Module x.

Definition hexDigit (c : ascii) : option Z :=
  let n := Z.of_nat (nat_of_ascii c) in
  if (48 <=? n) && (n <=? 57) then Some (n - 48)
  else if (97 <=? n) && (n <=? 102) then Some (n - 87)
  else if (65 <=? n) && (n <=? 70) then Some (n - 55)
  else None.

(** The digit loop of [strconv.ParseUint(s, 16, 64)]: a character that is
    not a hexadecimal digit, or a value above [MaxUint64], is an error. *)
Fixpoint parseHexDigits (s : string) (acc : Z) : option Z :=
  match s with
  | EmptyString => Some acc
  | String c rest =>
      match hexDigit c with
      | None => None
      | Some d =>
          let acc' := acc * 16 + d in
          if acc' >? MaxUint64 then None else parseHexDigits rest acc'
      end
  end.

Definition ParseUint16 (s : string) : option Z :=
  match s with
  | EmptyString => None
  | _ => parseHexDigits s 0
  end.

(** [x.FromHex]: the empty string is 0, a leading [0x] or [0X] is dropped,
    and a parse error is fatal ([x.Check]). *)
Definition FromHex (s : string) : result Z :=
  match s with
  | EmptyString => Ok 0
  | _ =>
      let s :=
        if strings_HasPrefix s "0x" || strings_HasPrefix s "0X"
        then String.substring 2 (String.length s - 2) s else s in
      match ParseUint16 s with
      | Some u => Ok u
      | None => Panic
      end
  end.

(** The digit table of [strconv]: [0-9] then [a-z]. *)
Definition digitChar (d : Z) : ascii :=
  ascii_of_nat (Z.to_nat (if d <? 10 then 48 + d else 87 + d)).

(** The digit loop of [strconv.FormatUint(u, 16)]: the base is a power of
    two, so the digits are peeled off by mask and shift, the least
    significant first; [a] is the text already produced.  A [uint64] has
    at most sixteen digits. *)
Fixpoint formatBits16 (fuel : nat) (u : Z) (a : string) : string :=
  match fuel with
  | O => a
  | S fuel' =>
      if u >=? 16
      then formatBits16 fuel' (Z.shiftr u 4)
                        (String (digitChar (Z.land u 15)) a)
      else String (digitChar u) a
  end.

Definition FormatUint16 (u : Z) : string := formatBits16 16 u EmptyString.

(** [x.ToHexString]. *)
Definition ToHexString (i : Z) : string :=
  ("0x" ++ FormatUint16 i)%string.

(** The key set of a [map[string]struct{}] filled from a list, in the
    order of first insertion. *)
Definition hasKey (m : list string) (g : string) : bool :=
  existsb (String.eqb g) m.

Fixpoint keySet (l : list string) (m : list string) : list string :=
  match l with
  | [] => m
  | t :: rest => keySet rest (if hasKey m t then m else m ++ [t])
  end.

(** [x.Diff]: the keys of [dst] missing from [src], and the keys of [src]
    missing from [dst].  Go ranges over a map in an unspecified order; here
    the keys come in the order of the key lists. *)
Definition Diff (dst src : list string) : list string * list string :=
  (filter (fun g => negb (hasKey src g)) dst,
   filter (fun g => negb (hasKey dst g)) src).

(** Reference value, not code: the number a string of hexadecimal
    digits denotes in positional notation, of any size; [None] when a
    character is not a hexadecimal digit. *)
Fixpoint hexValue (s : string) : option Z :=
  match s with
  | EmptyString => Some 0
  | String c rest =>
      match hexDigit c, hexValue rest with
      | Some d, Some v => Some (d * 16 ^ Z.of_nat (String.length rest) + v)
      | _, _ => None
      end
  end.

End x.

(** ** The bulk loader's mapper (package [boot]) *)

Module Mapper.
Import pb.

(** [binary.PutUvarint]: seven bits per byte, least significant group
    first, the top bit set on every byte but the last.  A [uint64] needs
    at most ten bytes. *)
Fixpoint PutUvarint_loop (fuel : nat) (v : Z) : bytes :=
  match fuel with
  | O => []
  | S fuel' =>
      if v >=? 128
      then byte.of_Z (Z.lor v 128) :: PutUvarint_loop fuel' (Z.shiftr v 7)
      else [byte.of_Z v]
  end.

Definition PutUvarint (v : Z) : bytes := PutUvarint_loop 10 (uint64 v).

(** Writing [d] into [dst[lo:lo+len(d)]]; the slice expression panics
    when the destination is too short. *)
Definition store (lo : Z) (d : bytes) (dst : bytes) : result bytes :=
  rbind (slice lo (lo + len d) dst) (fun _ =>
  Ok (splice lo d dst)).

(** [strings.SplitN(s, ".", 2)[0]]: the text before the first dot, or all
    of [s] when it has none. *)
Fixpoint beforeDot (s : string) : string :=
  match s with
  | EmptyString => EmptyString
  | String c rest =>
      if Ascii.eqb c "."%char then EmptyString else String c (beforeDot rest)
  end.

(** Whether a string contains a dot. *)
Fixpoint hasDot (s : string) : bool :=
  match s with
  | EmptyString => false
  | String c rest => Ascii.eqb c "."%char || hasDot rest
  end.

(** The byte arena [z.Buffer] is an external package; the arena is
    modelled as the list of its records in allocation order. *)
Section SortSlice.
Context {A : Type}.
Variable less : A -> A -> result bool.

(** Modelled from the spec: the insertion step of the arena's stable sort;
    the comparator is called on pairs of records, so a comparator that
    panics ends the run. *)
Fixpoint insertSorted (r : A) (sorted : list A) : result (list A) :=
  match sorted with
  | [] => Ok [r]
  | s :: rest =>
      rbind (less s r) (fun lt =>
      if lt then rbind (insertSorted r rest) (fun rest' => Ok (s :: rest'))
      else Ok (r :: s :: rest))
  end.

(** Modelled from the spec: [z.Buffer.SortSlice], which sorts the records
    of the arena in place by the comparator and is stable for records the
    comparator does not tell apart. *)
Fixpoint SortSlice (records : list A) : result (list A) :=
  match records with
  | [] => Ok []
  | r :: rest => rbind (SortSlice rest) (insertSorted r)
  end.
End SortSlice.

(** *** Map entries *)

Definition MapEntry := bytes.

(** [MapEntry.Uid]. *)
Definition MapEntry_Uid (me : MapEntry) : result Z :=
  rbind (slice 0 8 me) (fun b => Ok (be_get b)).

(** [MapEntry.Key]; [16+sz] is computed in [uint32]. *)
Definition MapEntry_Key (me : MapEntry) : result bytes :=
  rbind (slice 8 12 me) (fun b =>
  let sz := be_get b in
  slice 16 (uint32 (16 + sz)) me).

(** [MapEntry.Plist]; [start] and [start+sz] are computed in [uint32]. *)
Definition MapEntry_Plist (me : MapEntry) : result bytes :=
  rbind (slice 8 12 me) (fun bk =>
  rbind (slice 12 16 me) (fun bp =>
  let ksz := be_get bk in
  let sz := be_get bp in
  let start := uint32 (16 + ksz) in
  slice start (uint32 (start + sz)) me)).

(** The layout [uid(8) || klen(4) || plen(4) || key || posting]. *)
Definition entryOf (uid : Z) (key plist : bytes) : MapEntry :=
  PutUint64 (uint64 uid) ++ PutUint32 (uint32 (len key))
  ++ PutUint32 (uint32 (len plist)) ++ key ++ plist.

Definition less (lhs rhs : MapEntry) : result bool :=
  rbind (MapEntry_Key lhs) (fun kl =>
  rbind (MapEntry_Key rhs) (fun kr =>
  match bytes_Compare kl kr with
  | Lt => Ok true
  | Gt => Ok false
  | Eq =>
      rbind (MapEntry_Uid lhs) (fun ul =>
      rbind (MapEntry_Uid rhs) (fun ur => Ok (ul <? ur)))
  end)).

(** *** The order of the comparator, spelled out *)

(** Lexicographically smaller: a proper prefix, or smaller at the first
    byte that differs. *)
Definition lexLt (a b : bytes) : Prop :=
  (exists y t, b = a ++ y :: t)
  \/ (exists p x s y t,
        a = p ++ x :: s /\ b = p ++ y :: t
        /\ byte.unsigned x < byte.unsigned y).

(** The key and uid of an entry whose accessors do not panic. *)
Definition decodeEntry (me : MapEntry) : option (bytes * Z) :=
  match MapEntry_Key me, MapEntry_Uid me with
  | Ok k, Ok u => Some (k, u)
  | _, _ => None
  end.

(** Ascending under [(key, uid)]. *)
Definition entryLe (a b : MapEntry) : Prop :=
  exists ka ua kb ub,
    decodeEntry a = Some (ka, ua) /\ decodeEntry b = Some (kb, ub)
    /\ (lexLt ka kb \/ (ka = kb /\ ua <= ub)).

(** Less-or-equal on keys, and its interplay with [Lt]. *)
Definition keyLe (a b : bytes) : Prop := bytes_Compare a b <> Gt.

(** Key and uid pairs, ordered by key and then by uid. *)
Definition leKU (a b : bytes * Z) : Prop :=
  bytes_Compare (fst a) (fst b) = Lt \/ (fst a = fst b /\ snd a <= snd b).

Definition ltKUb (a b : bytes * Z) : bool :=
  match bytes_Compare (fst a) (fst b) with
  | Lt => true
  | Gt => false
  | Eq => snd a <? snd b
  end.

Definition wfEntry (me : MapEntry) : Prop :=
  exists d, decodeEntry me = Some d.

Definition keyLt (a b : bytes) : Prop := bytes_Compare a b = Lt.

Definition wfEntryb (me : MapEntry) : bool :=
  match decodeEntry me with Some _ => true | None => false end.



(** A stand-in header encoding for computed examples. *)
Definition concatKeys (keys : list bytes) : bytes := List.concat keys.

(** Three entries, out of order. *)
Definition entries3 : list bytes :=
  [entryOf 2 [Byte.x6b; Byte.x32] []; entryOf 1 [Byte.x6b; Byte.x31] [];
   entryOf 3 [Byte.x6b; Byte.x31] []].

(** A stand-in wire encoding for computed examples: the value bytes. *)
Definition valueBytes (q : Posting) : bytes := Value q.

Section Mapper.

(** The wire encoding of a posting, produced by generated code:
    [p.Size()] is its length and [p.MarshalToSizedBuffer] fills a buffer
    of exactly that length with it. *)
Variable Posting_Marshal : Posting -> bytes.
(** [header.Marshal] of [pb.MapHeader], from its partition keys. *)
Variable MapHeader_Marshal : list bytes -> bytes.
(** [m.opt.PartitionBufSize] and [m.opt.Namespace]. *)
Variable PartitionBufSize : Z.
Variable optNamespace : Z.
(** [farm.Fingerprint64]. *)
Variable Fingerprint64 : bytes -> Z.
(** [m.dqlSchema.getSchema], [nil] when the predicate has no schema. *)
Variable getSchema : string -> option SchemaUpdate.
(** [m.uid]: the UID the allocator gives to an external identifier. *)
Variable uid : string -> Z -> Z.
(** [x.NamespaceAttr] and [x.DataKey] (key codec) and [x.ToHexString]. *)
Variable NamespaceAttr : Z -> string -> string.
Variable DataKey : string -> Z -> bytes.
Variable ToHexString : Z -> string.

(** [p.Size()] on a possibly nil posting. *)
Definition Posting_Size (p : option Posting) : Z :=
  match p with
  | None => 0
  | Some q => len (Posting_Marshal q)
  end.

(** The uid and the posting bytes [marshalMapEntry] stores. *)
Definition storedUid (uid : Z) (p : option Posting) : Z :=
  match p with Some q => Uid q | None => uid end.
Definition storedPlist (p : option Posting) : bytes :=
  match p with Some q => Posting_Marshal q | None => [] end.

Definition mapEntrySize (key : bytes) (p : option Posting) : Z :=
  8 + 4 + 4 + len key + Posting_Size p.

(** [marshalMapEntry] fills [dst] in place; the result is [dst] after the
    call. *)
Definition marshalMapEntry (dst : bytes) (uid : Z) (key : bytes)
    (p : option Posting) : result bytes :=
  let uid := match p with Some q => Uid q | None => uid end in
  rbind (store 0 (PutUint64 (uint64 uid)) dst) (fun dst =>
  rbind (store 8 (PutUint32 (uint32 (len key))) dst) (fun dst =>
  let psz := Posting_Size p in
  rbind (store 12 (PutUint32 (uint32 psz)) dst) (fun dst =>
  rbind (slice_from 16 dst) (fun tail =>
  let n := Z.min (len tail) (len key) in
  rbind (store 16 (firstn (Z.to_nat n) key) dst) (fun dst =>
  rbind (if psz >? 0
         then rbind (slice_from (16 + n) dst) (fun pbuf =>
              rbind (slice 0 psz pbuf) (fun _ =>
              match p with
              | Some q => store (16 + n) (Posting_Marshal q) dst
              | None => Ok dst
              end))
         else Ok dst) (fun dst =>
  if len dst =? 16 + n + psz then Ok dst else Panic)))))).

(** [addMapEntry]: the bytes appended to the shard's arena. *)
Definition addMapEntry (key : bytes) (p : Posting) : result MapEntry :=
  let uid := Uid p in
  let p' := match PostingType p with
            | Posting_REF => None
            | _ => Some p
            end in
  let sz := mapEntrySize key p' in
  marshalMapEntry (make sz) uid key p'.

(** *** Spilling a shard *)

(** The first [SliceIterate] of [writeMapEntriesToFile]: the running byte
    count and the partition keys collected so far. *)
Definition partitionStep (st : Z * list bytes) (slice : bytes)
    : result (Z * list bytes) :=
  let '(bufSize, keys) := st in
  let bufSize := bufSize + (4 + len slice) in
  if bufSize <? PartitionBufSize then Ok (bufSize, keys)
  else
    rbind (MapEntry_Key slice) (fun k =>
    let sz := len keys in
    if (sz >? 0) && bytes_Equal k (last keys [])
    then Ok (bufSize, keys)
    else Ok (0, keys ++ [k])).

Fixpoint partitionLoop (st : Z * list bytes) (slices : list bytes)
    : result (Z * list bytes) :=
  match slices with
  | [] => Ok st
  | s :: rest => rbind (partitionStep st s) (fun st' => partitionLoop st' rest)
  end.

Definition partitionKeys (slices : list bytes) : result (list bytes) :=
  rbind (partitionLoop (0, []) slices) (fun st => Ok (snd st)).

(** [writeMapEntriesToFile]: the sequence of [w.Write] calls on the
    compressing writer. *)
Definition writeMapEntriesToFile (cbuf : list bytes) : result (list bytes) :=
  rbind (SortSlice less cbuf) (fun sorted =>
  rbind (partitionKeys sorted) (fun keys =>
  let headerBuf := MapHeader_Marshal keys in
  let lenBuf := PutUint32 (uint32 (len headerBuf)) in
  Ok (lenBuf :: headerBuf
      :: flat_map (fun slice => [PutUvarint (len slice); slice]) sorted))).

(** The records of a map file: the second of every pair of writes after
    the two header writes. *)
Fixpoint everySecond (ws : list bytes) : list bytes :=
  match ws with
  | _ :: r :: rest => r :: everySecond rest
  | _ => []
  end.

Definition fileRecords (ws : list bytes) : list bytes :=
  everySecond (skipn 2 ws).

(** *** Processing an edge *)

(** Modelled from the spec: [posting.NewPosting], which is not part of the
    covered sources.  An edge with an object identifier gives a [REF]
    posting whose uid is the object UID and which carries no value; an edge
    with an object value gives a [VALUE] posting carrying that value (its
    uid is left at the zero value: the caller assigns it). *)
Definition NewPosting (e : Edge) : result Posting :=
  match ObjectValue e with
  | None =>
      rbind (x.FromHex (ObjectId e)) (fun oid =>
      Ok (mkPosting oid [] Posting_REF))
  | Some v => Ok (mkPosting 0 v Posting_VALUE)
  end.

Definition createPostings (nq : Edge) : result Posting :=
  rbind (NewPosting nq) (fun p =>
  match getSchema (Predicate nq) with
  | None => Panic
  | Some sch =>
      match ObjectValue nq with
      | Some v =>
          if List sch
          then Ok (mkPosting (Fingerprint64 v) (Value p) (PostingType p))
          else Ok (mkPosting MaxUint64 (Value p) (PostingType p))
      | None => Ok p
      end
  end).

(** The type segment of a blank-node subject. *)
Definition typOf (subject : string) : string :=
  if strings_HasPrefix subject "_:"
  then beforeDot (String.substring 2 (String.length subject - 2) subject)
  else EmptyString.

(** The predicate of the edge [de] before the namespace is attached. *)
Definition typedPredicate (nq : Edge) : string :=
  (typOf (Subject nq) ++ "." ++ Predicate nq)%string.

(** [processNQuad] up to the forward edge [de] handed to [createEntries]:
    namespace override, UID resolution (UID 0 is fatal), typed predicate,
    namespace prefix. *)
Definition forwardEdge (nq : Edge) : result Edge :=
  let ns := if optNamespace =? MaxUint64 then Namespace nq else optNamespace in
  let sid := uid (Subject nq) ns in
  if sid =? 0 then Panic
  else
    rbind (match ObjectValue nq with
           | None =>
               let oid := uid (ObjectId nq) ns in
               if oid =? 0 then Panic
               else Ok (mkEdge (ToHexString sid) (typedPredicate nq)
                               (ToHexString oid) None ns)
           | Some v =>
               Ok (mkEdge (ToHexString sid) (typedPredicate nq)
                          EmptyString (Some v) ns)
           end) (fun de =>
    Ok (mkEdge (Subject de) (NamespaceAttr (Namespace de) (Predicate de))
               (ObjectId de) (ObjectValue de) (Namespace de))).

(** [createEntries], the data entry: forward posting, data key, map entry. *)
Definition createEntries (de : Edge) : result MapEntry :=
  rbind (createPostings de) (fun fwd =>
  rbind (x.FromHex (Subject de)) (fun sid =>
  addMapEntry (DataKey (Predicate de) sid) fwd)).

End Mapper.

End Mapper.

(** ** The count-index decision of the index rebuilder ([posting/index.go]) *)

Module Posting.
Import pb.

Record IndexRebuild : Type := mkIndexRebuild {
  Attr : string;
  StartTs : Z;
  OldSchema : option SchemaUpdate;
  CurrentSchema : option SchemaUpdate
}.

Inductive indexOp : Type :=
| indexNoop      (* Index should be left alone. *)
| indexDelete    (* Index should be deleted. *)
| indexRebuild.  (* Index should be deleted and rebuilt. *)

Definition indexOp_eqb (a b : indexOp) : bool :=
  match a, b with
  | indexNoop, indexNoop | indexDelete, indexDelete
  | indexRebuild, indexRebuild => true
  | _, _ => false
  end.

(** [needsCountIndexRebuild]; a nil current schema fails the assertion, a
    nil old schema is read as the empty schema. *)
Definition needsCountIndexRebuild (rb : IndexRebuild) : result indexOp :=
  match CurrentSchema rb with
  | None => Panic
  | Some cur =>
      let old := match OldSchema rb with
                 | None => emptySchemaUpdate
                 | Some o => o
                 end in
      if Bool.eqb (Count cur) (Count old) then Ok indexNoop
      else if negb (Count cur) then Ok indexDelete
      else Ok indexRebuild
  end.

Section Rebuild.

(** [pk.CountPrefix()] for an attribute and the constant [x.ByteSplit]
    (key codec). *)
Variable CountPrefix : string -> bytes.
Variable ByteSplit : Init.Byte.byte.
(** [rebuilder.Run] on the data prefix of an attribute at a timestamp,
    with the count-mutation callback; [None] is a nil error. *)
Variable Error : Type.
Variable runCountBuilder : string -> Z -> result (option Error).

(** [prefixesToDropCountIndex]: nothing on a no-op, otherwise the count
    prefix and its twin whose first byte is [ByteSplit]. *)
Definition prefixesToDropCountIndex (rb : IndexRebuild)
    : result (list bytes) :=
  rbind (needsCountIndexRebuild rb) (fun op =>
  if indexOp_eqb op indexNoop then Ok []
  else
    let prefixes := [CountPrefix (Attr rb)] in
    match CountPrefix (Attr rb) with
    | [] => Panic
    | _ :: rest => Ok (prefixes ++ [ByteSplit :: rest])
    end).

(** [rebuildCountIndex]: the builder runs only for [indexRebuild]. *)
Definition rebuildCountIndex (rb : IndexRebuild) : result (option Error) :=
  rbind (needsCountIndexRebuild rb) (fun op =>
  if negb (indexOp_eqb op indexRebuild) then Ok None
  else runCountBuilder (Attr rb) (StartTs rb)).

End Rebuild.

(** The error of [needsListTypeRebuild]: the type of a list predicate
    cannot be changed to a scalar without dropping it first. *)
Inductive error : Type :=
| ErrListToScalar.

(** [needsListTypeRebuild]: whether the data has to be rewritten, and the
    error; a nil current schema fails the assertion. *)
Definition needsListTypeRebuild (rb : IndexRebuild)
    : result (bool * option error) :=
  match CurrentSchema rb with
  | None => Panic
  | Some cur =>
      match OldSchema rb with
      | None => Ok (false, None)
      | Some old =>
          if List cur && negb (List old) then Ok (true, None)
          else if List old && negb (List cur)
               then Ok (false, Some ErrListToScalar)
               else Ok (false, None)
      end
  end.

Section RebuildList.

(** [rebuilder.Run] on the data prefix of an attribute at a timestamp,
    with the callback that re-adds the untagged value under its
    fingerprint; [None] is a nil error. *)
Variable Error : Type.
Variable runListBuilder : string -> Z -> result (option Error).

(** [rebuildListType]: the builder runs only for a scalar that became a
    list; the error of the decision is handed on. *)
Definition rebuildListType (rb : IndexRebuild)
    : result (option (error + Error)) :=
  rbind (needsListTypeRebuild rb) (fun r =>
  let '(needsRebuild, err) := r in
  if negb needsRebuild || (match err with Some _ => true | None => false end)
  then Ok (option_map inl err)
  else rbind (runListBuilder (Attr rb) (StartTs rb)) (fun e =>
       Ok (option_map inr e))).

End RebuildList.

End Posting.

(** ** The tokenizer-index decision of the index rebuilder
       ([posting/index.go]) *)

Module PostingTok.
Import Posting.

(** [pb.SchemaUpdate_Directive]; the zero value is [SchemaUpdate_NONE]. *)
Inductive SchemaUpdate_Directive : Type :=
| SchemaUpdate_NONE
| SchemaUpdate_INDEX
| SchemaUpdate_REVERSE
| SchemaUpdate_DELETE.

Definition isINDEX (d : SchemaUpdate_Directive) : bool :=
  match d with SchemaUpdate_INDEX => true | _ => false end.

(** [pb.SchemaUpdate] with the fields the rebuilder reads. *)
Record SchemaUpdate : Type := mkSchemaUpdate {
  Directive : SchemaUpdate_Directive;
  ValueType : Z;
  Tokenizer : list string;
  Count : bool;
  List : bool
}.

(** [&pb.SchemaUpdate{}]. *)
Definition emptySchemaUpdate : SchemaUpdate :=
  mkSchemaUpdate SchemaUpdate_NONE 0 [] false false.

Record IndexRebuild : Type := mkIndexRebuild {
  Attr : string;
  StartTs : Z;
  OldSchema : option SchemaUpdate;
  CurrentSchema : option SchemaUpdate
}.

(** The request as the count-index decision reads it. *)
Definition countFields (s : SchemaUpdate) : pb.SchemaUpdate :=
  pb.mkSchemaUpdate (Count s) (List s).

Definition countRebuild (rb : IndexRebuild) : Posting.IndexRebuild :=
  Posting.mkIndexRebuild (Attr rb) (StartTs rb)
    (option_map countFields (OldSchema rb))
    (option_map countFields (CurrentSchema rb)).

Record indexRebuildInfo : Type := mkIndexRebuildInfo {
  op : indexOp;
  tokenizersToDelete : list string;
  tokenizersToRebuild : list string
}.

(** [needsTokIndexRebuild]; a nil current schema fails the assertion, a
    nil old schema is read as the empty schema. *)
Definition needsTokIndexRebuild (rb : IndexRebuild)
    : result indexRebuildInfo :=
  match CurrentSchema rb with
  | None => Panic
  | Some cur =>
      let old := match OldSchema rb with
                 | None => emptySchemaUpdate
                 | Some o => o
                 end in
      let currIndex := isINDEX (Directive cur) in
      let prevIndex := isINDEX (Directive old) in
      if negb currIndex && negb prevIndex
      then Ok (mkIndexRebuildInfo indexNoop [] [])
      else if negb currIndex
      then Ok (mkIndexRebuildInfo indexDelete (Tokenizer old) [])
      else if currIndex && negb (ValueType cur =? ValueType old)
      then Ok (mkIndexRebuildInfo indexRebuild (Tokenizer old) (Tokenizer cur))
      else
        let prevTokens := x.keySet (Tokenizer old) [] in
        let currTokens := x.keySet (Tokenizer cur) [] in
        let '(newTokenizers, deletedTokenizers) :=
          x.Diff currTokens prevTokens in
        if (len newTokenizers =? 0) && (len deletedTokenizers =? 0)
        then Ok (mkIndexRebuildInfo indexNoop [] [])
        else Ok (mkIndexRebuildInfo indexRebuild deletedTokenizers
                                    newTokenizers)
  end.

(** [GetQuerySchema]: a copy of the current schema whose tokenizers are
    those of the old schema that are not to be deleted, and whose count
    flag is cleared while the count index is rebuilt.  The old schema is
    dereferenced without a nil check. *)
Definition GetQuerySchema (rb : IndexRebuild) : result SchemaUpdate :=
  match CurrentSchema rb with
  | None => Panic
  | Some querySchema =>
      rbind (needsTokIndexRebuild rb) (fun info =>
      match OldSchema rb with
      | None => Panic
      | Some old =>
          let interimTokenizers :=
            filter (fun t1 =>
                      negb (existsb (fun t2 => String.eqb t1 t2)
                                    (tokenizersToDelete info)))
                   (Tokenizer old) in
          rbind (needsCountIndexRebuild (countRebuild rb)) (fun cop =>
          Ok (mkSchemaUpdate (Directive querySchema) (ValueType querySchema)
                interimTokenizers
                (if indexOp_eqb cop indexRebuild then false
                 else Count querySchema)
                (List querySchema)))
      end)
  end.

(** [NeedIndexRebuild]. *)
Definition NeedIndexRebuild (rb : IndexRebuild) : result bool :=
  rbind (needsTokIndexRebuild rb) (fun info =>
  if indexOp_eqb (op info) indexRebuild then Ok true
  else rbind (needsCountIndexRebuild (countRebuild rb)) (fun cop =>
       Ok (indexOp_eqb cop indexRebuild))).

Section Rebuild.

(** Ambient errors (tokenizer lookup, key-value store, builder). *)
Variable Error : Type.
(** [prefixesToDeleteTokensFor attr tokenizer hasLang]: the index prefixes
    of a tokenizer, or an error when the tokenizer is unknown. *)
Variable prefixesToDeleteTokensFor :
  string -> string -> bool -> list bytes + Error.
(** [pk.CountPrefix()] and [x.ByteSplit] (key codec). *)
Variable CountPrefix : string -> bytes.
Variable ByteSplit : Init.Byte.byte.
(** [pstore.DropPrefix]; [None] is a nil error. *)
Variable DropPrefix : list bytes -> option Error.
(** [tok.GetTokenizers] followed by [rebuilder.Run] on the data prefix of
    an attribute at a timestamp, with the callback that adds the index
    entries of the given tokenizers. *)
Variable runTokBuilder : string -> Z -> list string -> result (option Error).
(** [rebuilder.Run] with the count-mutation callback. *)
Variable runCountBuilder : string -> Z -> result (option Error).

(** One of the two loops of [prefixesForTokIndexes]: the prefixes without
    language of every tokenizer and, for [exact], those with language;
    the first error ends the loop. *)
Fixpoint tokenizerPrefixes (attr : string) (tokenizers : list string)
    (prefixes : list bytes) : list bytes + Error :=
  match tokenizers with
  | [] => inl prefixes
  | tokenizer :: rest =>
      match prefixesToDeleteTokensFor attr tokenizer false with
      | inr err => inr err
      | inl prefixesNonLang =>
          let prefixes := prefixes ++ prefixesNonLang in
          if negb (String.eqb tokenizer "exact")
          then tokenizerPrefixes attr rest prefixes
          else
            match prefixesToDeleteTokensFor attr tokenizer true with
            | inr err => inr err
            | inl prefixesWithLang =>
                tokenizerPrefixes attr rest (prefixes ++ prefixesWithLang)
            end
      end
  end.

(** [prefixesForTokIndexes]. *)
Definition prefixesForTokIndexes (rb : IndexRebuild)
    : result (list bytes + Error) :=
  rbind (needsTokIndexRebuild rb) (fun rebuildInfo =>
  if indexOp_eqb (op rebuildInfo) indexNoop then Ok (inl [])
  else
    match tokenizerPrefixes (Attr rb) (tokenizersToDelete rebuildInfo) [] with
    | inr err => Ok (inr err)
    | inl prefixes =>
        Ok (tokenizerPrefixes (Attr rb) (tokenizersToRebuild rebuildInfo)
                              prefixes)
    end).

(** [DropIndexes]: the prefixes of the tokenizer indexes and of the count
    index go to [pstore.DropPrefix] in one call. *)
Definition DropIndexes (rb : IndexRebuild) : result (option Error) :=
  rbind (prefixesForTokIndexes rb) (fun r =>
  match r with
  | inr err => Ok (Some err)
  | inl prefixes =>
      rbind (prefixesToDropCountIndex CountPrefix ByteSplit (countRebuild rb))
        (fun countPrefixes =>
      Ok (DropPrefix (prefixes ++ countPrefixes)))
  end).

(** [rebuildTokIndex]: nothing to do unless the decision is
    [indexRebuild] and there are tokenizers to rebuild. *)
Definition rebuildTokIndex (rb : IndexRebuild) : result (option Error) :=
  rbind (needsTokIndexRebuild rb) (fun rebuildInfo =>
  if negb (indexOp_eqb (op rebuildInfo) indexRebuild) then Ok None
  else if len (tokenizersToRebuild rebuildInfo) =? 0 then Ok None
  else runTokBuilder (Attr rb) (StartTs rb)
                     (tokenizersToRebuild rebuildInfo)).

(** [BuildIndexes]. *)
Definition BuildIndexes (rb : IndexRebuild) : result (option Error) :=
  rbind (rebuildTokIndex rb) (fun err =>
  match err with
  | Some e => Ok (Some e)
  | None => rebuildCountIndex Error runCountBuilder (countRebuild rb)
  end).

End Rebuild.

End PostingTok.
(** *** Facts about the runtime model *)

Lemma len_nonneg {A} (s : list A) : 0 <= len s.
Proof. unfold len. lia. Qed.

Lemma len_app {A} (s t : list A) : len (s ++ t) = len s + len t.
Proof. unfold len. rewrite length_app. lia. Qed.

Lemma len_nil {A} : len (@nil A) = 0.
Proof. reflexivity. Qed.

Lemma len_cons {A} (x : A) (s : list A) : len (x :: s) = 1 + len s.
Proof. unfold len. simpl List.length. lia. Qed.

Lemma len_make (n : Z) : 0 <= n -> len (make n) = n.
Proof. intros H. unfold len, make. rewrite repeat_length. lia. Qed.

Lemma len_firstn {A} (n : Z) (s : list A) :
  0 <= n <= len s -> len (firstn (Z.to_nat n) s) = n.
Proof. unfold len. intros H. rewrite length_firstn. lia. Qed.

Lemma len_skipn {A} (n : Z) (s : list A) :
  0 <= n <= len s -> len (skipn (Z.to_nat n) s) = len s - n.
Proof. unfold len. intros H. rewrite length_skipn. lia. Qed.

Lemma len_be_put (n : nat) (v : Z) : len (be_put n v) = Z.of_nat n.
Proof.
  unfold len. f_equal. induction n as [|m IH]; simpl; [reflexivity|].
  now rewrite IH.
Qed.

Lemma shl8_lor (a b : Z) :
  0 <= b < 2 ^ 8 -> Z.lor (Z.shiftl a 8) b = a * 256 + b.
Proof.
  intros Hb.
  assert (Hland : Z.land (Z.shiftl a 8) b = 0).
  { apply Z.bits_inj'. intros i Hi.
    rewrite Z.land_spec, Z.bits_0.
    destruct (Z.ltb_spec i 8) as [Hlt|Hge].
    - rewrite Z.shiftl_spec_low by lia. reflexivity.
    - destruct (Z.eq_dec b 0) as [->|Hnz].
      + rewrite Z.bits_0. apply andb_false_r.
      + rewrite (Z.bits_above_log2 b i); [apply andb_false_r|lia|].
        apply Z.lt_le_trans with 8; [|lia].
        apply Z.log2_lt_pow2; lia. }
  rewrite <- Z.lxor_lor, <- Z.add_nocarry_lxor by exact Hland.
  rewrite Z.shiftl_mul_pow2 by lia. reflexivity.
Qed.

Lemma be_get_fold (bs : bytes) (acc : Z) :
  fold_left (fun a b => Z.lor (Z.shiftl a 8) (byte.unsigned b)) bs acc
  = acc * 2 ^ (8 * len bs) + be_get bs.
Proof.
  unfold be_get. revert acc.
  induction bs as [|b bs IH]; intros acc.
  - unfold len. simpl. lia.
  - cbn [fold_left]. rewrite IH. symmetry. rewrite IH. symmetry.
    rewrite !shl8_lor by apply byte.unsigned_range.
    rewrite len_cons.
    replace (8 * (1 + len bs)) with (8 + 8 * len bs) by lia.
    pose proof (len_nonneg bs).
    rewrite Z.pow_add_r by lia. change (2 ^ 8) with 256. lia.
Qed.

Lemma be_get_cons (b : Init.Byte.byte) (bs : bytes) :
  be_get (b :: bs) = byte.unsigned b * 2 ^ (8 * len bs) + be_get bs.
Proof.
  unfold be_get at 1. cbn [fold_left]. rewrite be_get_fold.
  rewrite shl8_lor by apply byte.unsigned_range. lia.
Qed.

(** Reading back what [PutUintN] wrote yields the value reduced to the
    destination's width. *)
Lemma be_get_put (n : nat) (v : Z) :
  be_get (be_put n v) = v mod 2 ^ (8 * Z.of_nat n).
Proof.
  induction n as [|m IH].
  - simpl. now rewrite Z.mod_1_r.
  - cbn [be_put]. rewrite be_get_cons, IH, len_be_put.
    rewrite byte.unsigned_of_Z. unfold byte.wrap.
    rewrite Z.shiftr_div_pow2 by lia.
    replace (8 * Z.of_nat (S m)) with (8 * Z.of_nat m + 8) by lia.
    rewrite Z.pow_add_r by lia.
    rewrite Z.rem_mul_r by lia. lia.
Qed.

Lemma be_get_app (a b : bytes) :
  be_get (a ++ b) = be_get a * 2 ^ (8 * len b) + be_get b.
Proof.
  unfold be_get at 1. rewrite fold_left_app.
  rewrite be_get_fold. reflexivity.
Qed.

(** *** Overwriting part of a slice *)

Lemma len_splice p d s :
  0 <= p -> p + len d <= len s -> len (splice p d s) = len s.
Proof.
  intros Hp Hfit. pose proof (len_nonneg d).
  unfold splice. rewrite !len_app, len_firstn, len_skipn by lia. lia.
Qed.

Lemma splice_splice p d1 d2 s :
  0 <= p -> p + len d1 <= len s ->
  splice (p + len d1) d2 (splice p d1 s) = splice p (d1 ++ d2) s.
Proof.
  intros Hp Hfit. pose proof (len_nonneg d1). pose proof (len_nonneg d2).
  unfold splice at 1.
  assert (Hpre : firstn (Z.to_nat (p + len d1)) (splice p d1 s)
                 = firstn (Z.to_nat p) s ++ d1).
  { unfold splice. rewrite app_assoc.
    rewrite firstn_app.
    replace (Z.to_nat (p + len d1)
             - List.length (firstn (Z.to_nat p) s ++ d1))%nat with O.
    2:{ rewrite length_app, length_firstn. unfold len in *. lia. }
    rewrite firstn_O, app_nil_r. apply firstn_all2.
    rewrite length_app, length_firstn. unfold len in *. lia. }
  assert (Hsuf : skipn (Z.to_nat (p + len d1 + len d2)) (splice p d1 s)
                 = skipn (Z.to_nat (p + len (d1 ++ d2))) s).
  { unfold splice. rewrite app_assoc, skipn_app.
    rewrite (skipn_all2 (firstn _ s ++ d1)).
    2:{ rewrite length_app, length_firstn. unfold len in *. lia. }
    rewrite skipn_skipn, len_app. simpl. f_equal.
    rewrite length_app, length_firstn. unfold len in *. lia. }
  rewrite Hpre, Hsuf. unfold splice. now rewrite <- !app_assoc.
Qed.

(** The bytes written by [splice] can be read back. *)
Lemma slice_splice p d s :
  0 <= p -> p + len d <= len s ->
  slice p (p + len d) (splice p d s) = Ok d.
Proof.
  intros Hp Hfit. pose proof (len_nonneg d). unfold slice.
  rewrite len_splice by lia.
  replace ((0 <=? p) && (p <=? p + len d) && (p + len d <=? len s))
    with true by (symmetry; rewrite !andb_true_iff; lia).
  apply f_equal. unfold splice.
  rewrite skipn_app, (skipn_all2 (firstn _ s)).
  2:{ rewrite length_firstn. unfold len in *. lia. }
  replace (Z.to_nat p - List.length (firstn (Z.to_nat p) s))%nat with O.
  2:{ rewrite length_firstn. unfold len in *. lia. }
  simpl. rewrite firstn_app.
  replace (Z.to_nat (p + len d - p) - List.length d)%nat with O
    by (unfold len; lia).
  rewrite firstn_O, app_nil_r. apply firstn_all2. unfold len. lia.
Qed.

Lemma slice_app_l (a b : bytes) (n : Z) :
  n = len a -> slice 0 n (a ++ b) = Ok a.
Proof.
  intros ->. pose proof (len_nonneg a). pose proof (len_nonneg b).
  unfold slice. rewrite len_app.
  replace ((0 <=? 0) && (0 <=? len a) && (len a <=? len a + len b))
    with true by (symmetry; rewrite !andb_true_iff; lia).
  apply f_equal. simpl. rewrite Z.sub_0_r, firstn_app.
  replace (Z.to_nat (len a) - List.length a)%nat with O by (unfold len; lia).
  rewrite firstn_O, app_nil_r. apply firstn_all2. unfold len. lia.
Qed.

Lemma slice_app_mid (a b c : bytes) (lo hi : Z) :
  lo = len a -> hi = len a + len b -> slice lo hi (a ++ b ++ c) = Ok b.
Proof.
  intros -> ->. pose proof (len_nonneg a). pose proof (len_nonneg b).
  pose proof (len_nonneg c). unfold slice. rewrite !len_app.
  replace ((0 <=? len a) && (len a <=? len a + len b)
           && (len a + len b <=? len a + (len b + len c)))
    with true by (symmetry; rewrite !andb_true_iff; lia).
  apply f_equal.
  rewrite skipn_app, (skipn_all2 a) by (unfold len; lia).
  replace (Z.to_nat (len a) - List.length a)%nat with O by (unfold len; lia).
  cbn [skipn app]. rewrite firstn_app.
  replace (Z.to_nat (len a + len b - len a) - List.length b)%nat with O
    by (unfold len; lia).
  rewrite firstn_O, app_nil_r. apply firstn_all2. unfold len. lia.
Qed.

(** Reading a prefix of a spliced region. *)
Lemma slice_splice_prefix p (d1 d2 s : bytes) :
  0 <= p -> p + len d1 + len d2 <= len s ->
  slice p (p + len d1) (splice p (d1 ++ d2) s) = Ok d1.
Proof.
  intros Hp Hfit. pose proof (len_nonneg d1). pose proof (len_nonneg d2).
  unfold splice. rewrite <- app_assoc.
  apply slice_app_mid; rewrite len_firstn; lia.
Qed.


Lemma slice_splice_suffix p (d1 d2 s : bytes) :
  0 <= p -> p + len d1 + len d2 <= len s ->
  slice (p + len d1) (p + len d1 + len d2) (splice p (d1 ++ d2) s) = Ok d2.
Proof.
  intros Hp Hfit. pose proof (len_nonneg d1). pose proof (len_nonneg d2).
  unfold splice. rewrite <- app_assoc, app_assoc.
  apply slice_app_mid; rewrite len_app, len_firstn; lia.
Qed.


(** ** Properties of the SSTable builder *)

Module TableProofs.
Import Table.

(** *** [write] *)

Lemma write_ok d b :
  0 <= pos b -> pos b + len d <= len (buf b) ->
  write d b = Ok (tt, set_pos (pos b + len d)
                        (set_buf (splice (pos b) d (buf b)) b)).
Proof.
  intros Hp Hfit. pose proof (len_nonneg d).
  unfold write, slice_from.
  replace ((0 <=? pos b) && (pos b <=? len (buf b)))
    with true by (symmetry; rewrite andb_true_iff; lia).
  rewrite len_skipn by lia.
  rewrite Z.min_r by lia. rewrite Z.eqb_refl.
  unfold splice.
  rewrite (firstn_all2 (n := Z.to_nat (len d)) d) by (unfold len; lia).
  rewrite skipn_skipn.
  replace (Z.to_nat (len d) + Z.to_nat (pos b))%nat
    with (Z.to_nat (pos b + len d)) by lia.
  reflexivity.
Qed.

(** [write] returns only when all of [d] fitted. *)
Lemma write_returns d b u b' :
  write d b = Ok (u, b') ->
  0 <= pos b /\ pos b + len d <= len (buf b).
Proof.
  unfold write, slice_from.
  destruct ((0 <=? pos b) && (pos b <=? len (buf b))) eqn:Hb; [|discriminate].
  apply andb_true_iff in Hb.
  destruct (len d =? _) eqn:Hn; [|discriminate].
  intros _. rewrite len_skipn in Hn by lia. lia.
Qed.

(** *** [Add] *)

Lemma len_Encode h : len (Encode h) = 8.
Proof. unfold Encode, PutUint16. rewrite !len_app, !len_be_put. lia. Qed.

Lemma len_keyDiff b key : 0 <= len (keyDiff b key) <= len key.
Proof.
  unfold keyDiff, len. rewrite length_skipn. lia.
Qed.

Lemma len_diffKeyOf b key : 0 <= len (diffKeyOf b key) <= len key.
Proof.
  unfold diffKeyOf. destruct (_ =? _).
  - pose proof (len_nonneg key). lia.
  - apply len_keyDiff.
Qed.

Lemma pos_afterRestart R b : pos (afterRestart R b) = pos b.
Proof. unfold afterRestart. now destruct (_ >=? _). Qed.

Lemma buf_afterRestart R b : buf (afterRestart R b) = buf b.
Proof. unfold afterRestart. now destruct (_ >=? _). Qed.

Lemma prevOffset_afterRestart R b :
  prevOffset (afterRestart R b) = prevOffset b.
Proof. unfold afterRestart. now destruct (_ >=? _). Qed.

(** A full table: the error comes back and the builder is untouched. *)
Lemma Add_full T R key value b :
  len key + len value + length b > T ->
  Add T R key value b = Ok (Some ErrExceedsTableSize, b).
Proof.
  intros H. unfold Add, bind, get, ret.
  destruct (Z.gtb_spec (len key + len value + length b) T) as [_|Hle];
    [reflexivity|lia].
Qed.

(** Side conditions about lengths after writes. *)
Ltac len_tac :=
  cbn [pos buf counter baseKey restarts prevOffset set_pos set_buf
       set_prevOffset set_baseKey set_counter set_restarts];
  repeat match goal with
         | |- context [len (splice ?p ?d ?s)] =>
             rewrite (len_splice p d s) by len_tac
         end;
  rewrite ?len_Encode, ?len_app; lia.

(** The three writes of [Add], when they fit. *)
Lemma write3_ok {X} (h dk v : bytes) (b : TableBuilder)
    (K : TableBuilder -> result X) :
  0 <= pos b -> pos b + len h + len dk + len v <= len (buf b) ->
  match write h b with
  | Ok (_, b1) =>
      match write dk b1 with
      | Ok (_, b2) =>
          match write v b2 with
          | Ok (_, b3) => K b3
          | Panic => Panic
          end
      | Panic => Panic
      end
  | Panic => Panic
  end
  = K (set_pos (pos b + len h + len dk + len v)
         (set_buf (splice (pos b) (h ++ dk ++ v) (buf b)) b)).
Proof.
  intros Hpos Hfit.
  pose proof (len_nonneg h). pose proof (len_nonneg dk).
  pose proof (len_nonneg v).
  rewrite write_ok by lia.
  rewrite write_ok by len_tac.
  cbn [pos buf set_pos set_buf].
  rewrite write_ok by len_tac.
  cbn [pos buf set_pos set_buf counter baseKey restarts prevOffset].
  rewrite splice_splice by len_tac.
  rewrite splice_splice by len_tac.
  reflexivity.
Qed.

(** Room in the table and in the buffer: the record is appended. *)
Lemma Add_ok_tight T R key value b :
  len key + len value + length b <= T ->
  0 <= pos b ->
  pos b + 8 + len (diffKeyOf (afterRestart R b) key) + len value
  <= len (buf b) ->
  Add T R key value b = Ok (None, added R b key value).
Proof.
  intros Hroom Hpos Hbuf.
  pose proof (len_nonneg key). pose proof (len_nonneg value).
  pose proof (len_diffKeyOf (afterRestart R b) key) as Hdk.
  unfold Add, bind, get, ret.
  destruct (Z.gtb_spec (len key + len value + length b) T) as [Hgt|_];
    [lia|].
  unfold added, headerOf, diffKeyOf, afterRestart in *.
  destruct (counter b >=? R) eqn:Hc; cbn [modify].
  - cbn [baseKey set_baseKey len List.length Z.of_nat Z.eqb] in *.
    rewrite write3_ok by len_tac.
    cbn [pos buf counter baseKey restarts prevOffset set_pos set_buf
           set_prevOffset set_baseKey set_counter set_restarts].
      rewrite len_Encode. reflexivity.
  - destruct (len (baseKey b) =? 0) eqn:Hk; cbn [modify].
    + rewrite write3_ok by len_tac.
      cbn [pos buf counter baseKey restarts prevOffset set_pos set_buf
           set_prevOffset set_baseKey set_counter set_restarts].
      rewrite len_Encode. reflexivity.
    + rewrite write3_ok by len_tac.
      cbn [pos buf counter baseKey restarts prevOffset set_pos set_buf
           set_prevOffset set_baseKey set_counter set_restarts].
      rewrite len_Encode. reflexivity.
Qed.


Lemma Add_ok T R key value b :
  len key + len value + length b <= T ->
  0 <= pos b ->
  pos b + 8 + len key + len value <= len (buf b) ->
  Add T R key value b = Ok (None, added R b key value).
Proof.
  intros Hroom Hpos Hbuf.
  pose proof (len_diffKeyOf (afterRestart R b) key) as Hdk.
  apply Add_ok_tight; lia.
Qed.

Ltac write_case W F :=
  match goal with
  | |- context [write ?h ?s] =>
      destruct (write h s) as [[? ?]|] eqn:W; [|discriminate];
      pose proof (write_returns _ _ _ _ W) as F;
      rewrite write_ok in W by tauto; inversion W; subst; clear W
  end.

(** When [Add] returns without error, the three writes fitted. *)
Lemma Add_returns_fit T R key value b e b' :
  len key + len value + length b <= T ->
  Add T R key value b = Ok (e, b') ->
  0 <= pos b /\
  pos b + 8 + len (diffKeyOf (afterRestart R b) key) + len value
  <= len (buf b).
Proof.
  intros Hle. unfold Add, bind, get, ret.
  destruct (Z.gtb_spec (len key + len value + length b) T) as [?|_];
    [lia|].
  unfold diffKeyOf, afterRestart.
  pose proof (len_nonneg value). pose proof (len_nonneg key).
  destruct (counter b >=? R) eqn:Hc; cbn [modify];
    [cbn [baseKey set_baseKey len List.length Z.of_nat Z.eqb]
    |destruct (len (baseKey b) =? 0) eqn:Hk; cbn [modify]].
  all: write_case W1 F1; write_case W2 F2; write_case W3 F3.
  all: intros _; revert F1 F2 F3;
    cbn [pos buf counter baseKey restarts prevOffset set_pos set_buf
         set_prevOffset set_baseKey set_counter set_restarts];
    rewrite ?len_Encode; intros F1 F2 F3.
  all: rewrite len_splice in F2 by (rewrite ?len_Encode; lia).
  all: rewrite len_splice in F3
      by (rewrite ?len_splice; rewrite ?len_Encode; lia).
  all: rewrite len_splice in F3 by (rewrite ?len_Encode; lia).
  all: lia.
Qed.

(** Whatever [Add] returns is one of the two outcomes above. *)
Lemma Add_inv T R key value b e b' :
  Add T R key value b = Ok (e, b') ->
  (len key + len value + length b > T
   /\ e = Some ErrExceedsTableSize /\ b' = b)
  \/ (len key + len value + length b <= T
      /\ e = None /\ b' = added R b key value
      /\ 0 <= pos b
      /\ pos b + 8 + len (diffKeyOf (afterRestart R b) key) + len value
         <= len (buf b)).
Proof.
  intros HAdd.
  destruct (Z.gtb_spec (len key + len value + length b) T) as [Hgt|Hle].
  - left. rewrite Add_full in HAdd by lia. inversion HAdd; subst. split; [lia|split; reflexivity].
  - right. destruct (Add_returns_fit _ _ _ _ _ _ _ Hle HAdd) as [Hpos Hfit].
    rewrite Add_ok_tight in HAdd by assumption. inversion HAdd.
    split; [lia|]. split; [reflexivity|]. split; [reflexivity|].
    split; assumption.
Qed.

Lemma be_get_PutUint16 v : be_get (PutUint16 (uint16 v)) = uint16 v.
Proof.
  unfold PutUint16. rewrite be_get_put. unfold uint16.
  change (8 * Z.of_nat 2) with 16. apply Z.mod_mod. lia.
Qed.

(** Decoding an encoded header gives its fields reduced modulo 2^16. *)
Lemma Decode_Encode h :
  Decode (Encode h)
  = Ok (mkHeader (uint16 (plen h)) (uint16 (klen h))
                 (uint16 (vlen h)) (uint16 (prev h))).
Proof.
  unfold Decode, Encode.
  set (a := PutUint16 (uint16 (plen h))).
  set (b := PutUint16 (uint16 (klen h))).
  set (c := PutUint16 (uint16 (vlen h))).
  set (d := PutUint16 (uint16 (prev h))).
  assert (La : len a = 2) by apply len_be_put.
  assert (Lb : len b = 2) by apply len_be_put.
  assert (Lc : len c = 2) by apply len_be_put.
  assert (Ld : len d = 2) by apply len_be_put.
  change (a ++ b ++ c ++ d) with ([] ++ a ++ b ++ c ++ d) at 1.
  rewrite (slice_app_mid [] a (b ++ c ++ d) 0 2) by (unfold len; simpl; lia).
  cbn [rbind].
  rewrite (slice_app_mid a b (c ++ d) 2 4) by lia. cbn [rbind].
  replace (a ++ b ++ c ++ d) with ((a ++ b) ++ c ++ d)
    by (now rewrite <- app_assoc).
  rewrite (slice_app_mid (a ++ b) c d 4 6) by (rewrite ?len_app; lia).
  cbn [rbind].
  replace ((a ++ b) ++ c ++ d) with (((a ++ b) ++ c) ++ d ++ [])
    by (now rewrite app_nil_r, <- !app_assoc).
  rewrite (slice_app_mid ((a ++ b) ++ c) d [] 6 8) by (rewrite ?len_app; lia).
  cbn [rbind]. unfold a, b, c, d. now rewrite !be_get_PutUint16.
Qed.

Lemma Reset_eq T b : Reset T b = Ok (tt, reset T b).
Proof.
  unfold Reset, modify, reset. do 2 f_equal.
  cbn [buf set_counter]. destruct (len (buf b) <? T); reflexivity.
Qed.

Lemma len_reset_buf T b :
  0 <= T -> len (buf b) <= T -> len (buf (reset T b)) = T.
Proof.
  intros HT Hb. unfold reset. cbn [buf].
  destruct (Z.ltb_spec (len (buf b)) T); [now apply len_make|lia].
Qed.

(** *** The effect of one [Add] on the counters *)

Section Added.
Variables (R : Z) (b : TableBuilder) (key value : bytes).

Lemma pos_added :
  pos (added R b key value)
  = pos b + 8 + len (diffKeyOf (afterRestart R b) key) + len value.
Proof. reflexivity. Qed.

Lemma pos_added_bounds :
  pos b + 8 + len value <= pos (added R b key value)
  <= pos b + 8 + len key + len value.
Proof.
  rewrite pos_added.
  pose proof (len_diffKeyOf (afterRestart R b) key). lia.
Qed.

Lemma restarts_added :
  restarts (added R b key value)
  = if counter b >=? R then restarts b ++ [uint32 (pos b)] else restarts b.
Proof.
  unfold added, afterRestart. cbn [restarts].
  now destruct (counter b >=? R).
Qed.

Lemma counter_added :
  counter (added R b key value)
  = if counter b >=? R then 1 else counter b + 1.
Proof.
  unfold added, afterRestart. cbn [counter].
  now destruct (counter b >=? R).
Qed.

Lemma baseKey_added_restart :
  (counter b >=? R) = true -> baseKey (added R b key value) = key.
Proof.
  intros Hc. unfold added, afterRestart. rewrite Hc. reflexivity.
Qed.

Lemma prevOffset_added : prevOffset (added R b key value) = pos b.
Proof. reflexivity. Qed.

Lemma len_buf_added :
  0 <= pos b ->
  pos b + 8 + len key + len value <= len (buf b) ->
  len (buf (added R b key value)) = len (buf b).
Proof.
  intros Hp Hfit. unfold added. cbn [buf].
  pose proof (len_diffKeyOf (afterRestart R b) key).
  pose proof (len_nonneg value).
  apply len_splice; rewrite ?len_app, ?len_Encode; lia.
Qed.

(** Records since the last [Reset], counted by [counter] and the
    restart vector. *)
Lemma count_added :
  0 < R -> 0 <= counter b <= R ->
  counter (added R b key value) + R * len (restarts (added R b key value))
  = counter b + R * len (restarts b) + 1
  /\ 1 <= counter (added R b key value) <= R.
Proof.
  intros HR Hc. rewrite counter_added, restarts_added.
  destruct (Z.geb_spec (counter b) R).
  - rewrite len_app. unfold len at 2. cbn [List.length]. lia.
  - lia.
Qed.
End Added.

Lemma len_concat_PutUint32 (rs : list Z) :
  len (List.concat (map PutUint32 rs)) = 4 * len rs.
Proof.
  induction rs as [|r rs IH]; [reflexivity|].
  cbn [map List.concat]. rewrite len_app, IH, len_cons.
  unfold PutUint32. rewrite len_be_put. lia.
Qed.

(** *** [AddAll] *)

Lemma recordsSize_nonneg kvs : 0 <= recordsSize kvs.
Proof.
  induction kvs as [|[a c] l IHl]; [reflexivity|].
  cbn [recordsSize fold_right fst snd]. fold (recordsSize l).
  pose proof (len_nonneg a). pose proof (len_nonneg c). lia.
Qed.

Lemma AddAll_fits T R kvs : forall b,
  0 < R -> 0 <= counter b <= R -> 0 <= pos b -> T <= len (buf b) ->
  pos b + recordsSize kvs + 4 * (len (restarts b) + len kvs) + 14 <= T ->
  exists b',
    AddAll T R kvs b = Ok (None, b')
    /\ pos b <= pos b' <= pos b + recordsSize kvs
    /\ len (buf b') = len (buf b)
    /\ counter b' + R * len (restarts b')
       = counter b + R * len (restarts b) + len kvs
    /\ 0 <= counter b' <= R
    /\ len (restarts b') <= len (restarts b) + len kvs
    /\ (1 <= counter b \/ 0 < len kvs -> 1 <= counter b').
Proof.
  induction kvs as [|[k v] kvs IH]; intros b HR Hc Hp Hbuf Hroom.
  - exists b. cbn [AddAll recordsSize fold_right]. unfold ret.
    change (len (@nil (bytes * bytes))) with 0.
    repeat split; try lia.
  - cbn [recordsSize fold_right fst snd] in Hroom.
    fold (recordsSize kvs) in Hroom. rewrite len_cons in Hroom.
    pose proof (len_nonneg k). pose proof (len_nonneg v).
    pose proof (len_nonneg kvs). pose proof (len_nonneg (restarts b)).
    pose proof (recordsSize_nonneg kvs) as Hsz.
    cbn [AddAll]. unfold bind.
    rewrite Add_ok by (unfold length; lia).
    pose proof (pos_added_bounds R b k v) as Hpos'.
    pose proof (count_added R b k v HR Hc) as [Hcnt Hc'].
    pose proof (len_buf_added R b k v Hp ltac:(lia)) as Hlen.
    assert (Hr' : len (restarts (added R b k v)) <= len (restarts b) + 1).
    { rewrite restarts_added. destruct (counter b >=? R); [|lia].
      rewrite len_app. unfold len at 2. cbn [List.length]. lia. }
    destruct (IH (added R b k v))
      as (b' & HA & HP & HL & HC & HCR & HRS & Hone); try lia.
    exists b'. split; [exact HA|].
    cbn [recordsSize fold_right fst snd]. fold (recordsSize kvs).
    rewrite len_cons.
    split; [lia|]. split; [lia|]. split; [lia|]. split; [lia|].
    split; [lia|].
    intros _. apply Hone. left. lia.
Qed.

(** *** [blockIndex] and [Finish] *)

Lemma len_indexOf b : len (indexOf b) = 4 * len (restarts b) + 8.
Proof.
  unfold indexOf. rewrite len_app, len_concat_PutUint32, len_app.
  unfold PutUint32. rewrite len_be_put. unfold len at 2. cbn [List.length].
  lia.
Qed.

Lemma blockIndex_eq b :
  blockIndex b
  = Ok (indexOf b, set_restarts (restarts b ++ [uint32 (pos b)]) b).
Proof. reflexivity. Qed.

(** After the terminating [Add], whatever it returned: the index fits
    and the table is returned ... *)
Lemma Finish_ok T R b e b1 :
  Add T R [] [] b = Ok (e, b1) ->
  0 <= pos b1 -> len (buf b1) = T ->
  pos b1 + 4 * len (restarts b1) + 8 <= T ->
  Finish T R b
  = Ok (splice (T - len (indexOf b1)) (indexOf b1) (buf b1), finished T b1).
Proof.
  intros HAdd Hpos Hbuf Hroom.
  pose proof (len_nonneg (restarts b1)).
  unfold Finish, bind. rewrite HAdd, blockIndex_eq.
  unfold get, AssertTrue, modify, ret.
  cbn [pos buf restarts set_restarts set_pos set_buf].
  rewrite len_indexOf.
  destruct (Z.leb_spec (pos b1) (T - (4 * len (restarts b1) + 8))); [|lia].
  rewrite write_ok;
    cbn [pos buf restarts set_restarts set_pos set_buf];
    rewrite ?len_indexOf; try lia.
  replace (T - (4 * len (restarts b1) + 8) + (4 * len (restarts b1) + 8))
    with T by lia.
  rewrite Z.eqb_refl. unfold finished. rewrite len_indexOf. reflexivity.
Qed.

(** ... or it does not fit and the assertion [pos <= newpos] fails. *)
Lemma Finish_panics T R b e b1 :
  Add T R [] [] b = Ok (e, b1) ->
  pos b1 + 4 * len (restarts b1) + 8 > T ->
  Finish T R b = Panic.
Proof.
  intros HAdd Hroom.
  unfold Finish, bind. rewrite HAdd, blockIndex_eq.
  unfold get, AssertTrue.
  cbn [pos buf restarts set_restarts set_pos set_buf].
  rewrite len_indexOf.
  destruct (Z.leb_spec (pos b1) (T - (4 * len (restarts b1) + 8))); [lia|].
  reflexivity.
Qed.

(** The table [Finish] returns: its length and its last four bytes. *)
Lemma finished_table T b1 :
  0 <= pos b1 -> len (buf b1) = T ->
  pos b1 + 4 * len (restarts b1) + 8 <= T ->
  let out := splice (T - len (indexOf b1)) (indexOf b1) (buf b1) in
  len out = T
  /\ slice (T - len (indexOf b1)) T out = Ok (indexOf b1)
  /\ slice (T - 4) T out = Ok (PutUint32 (uint32 (len (restarts b1) + 1))).
Proof.
  intros Hpos Hbuf Hroom out. pose proof (len_nonneg (restarts b1)).
  pose proof (len_indexOf b1) as Hidx.
  split; [|split].
  - unfold out. rewrite len_splice; lia.
  - unfold out.
    replace T with (T - len (indexOf b1) + len (indexOf b1)) at 2 by lia.
    apply slice_splice; lia.
  - unfold out, indexOf.
    set (rs := restarts b1 ++ [uint32 (pos b1)]).
    assert (Hrs : len rs = len (restarts b1) + 1).
    { unfold rs. rewrite len_app. reflexivity. }
    fold rs in Hidx. unfold indexOf in Hidx. fold rs in Hidx.
    rewrite Hidx, Hrs.
    set (A := List.concat (map PutUint32 rs)).
    set (B := PutUint32 (uint32 (len (restarts b1) + 1))).
    assert (HA : len A = 4 * len rs) by apply len_concat_PutUint32.
    assert (HB : len B = 4) by apply len_be_put.
    replace (T - 4) with (T - (4 * len (restarts b1) + 8) + len A) by lia.
    replace T with (T - (4 * len (restarts b1) + 8) + len A + len B) at 2
      by lia.
    apply slice_splice_suffix; lia.
Qed.

(** *** Whole runs: [Reset], records, [Finish] *)

(** Records that leave room for the index: every [Add] succeeds, [Finish]
    returns a table of [T] bytes whose last four bytes count the restart
    vector, and [counter] and [restarts] account for every record and
    the terminator. *)
Lemma Finish_after_records T R kvs b0 :
  0 < R -> len (buf b0) <= T ->
  recordsSize kvs + 4 * len kvs + 20 <= T ->
  exists b1 out b2,
    bind (Reset T) (fun _ => AddAll T R kvs) b0 = Ok (None, b1)
    /\ Finish T R b1 = Ok (out, b2)
    /\ len out = T
    /\ slice (T - 4) T out = Ok (PutUint32 (uint32 (len (restarts b2))))
    /\ counter b1 + R * len (restarts b1) = len kvs
    /\ 0 <= counter b1 <= R
    /\ counter b2 + R * (len (restarts b2) - 1) = len kvs + 1
    /\ 1 <= counter b2 <= R.
Proof.
  intros HR Hb0 Hroom.
  pose proof (len_nonneg kvs) as Hn.
  pose proof (recordsSize_nonneg kvs) as Hs.
  assert (HT : 0 <= T) by lia.
  unfold bind at 1. rewrite Reset_eq.
  pose proof (len_reset_buf T b0 HT Hb0) as Hlen0.
  destruct (AddAll_fits T R kvs (reset T b0))
    as (b1 & HA & HP & HL & HC & HCR & HRS & _);
    cbn [counter pos restarts reset]; try lia.
  { change (len (@nil Z)) with 0. lia. }
  cbn [counter pos restarts reset] in HP, HC, HRS.
  change (len (@nil Z)) with 0 in HC, HRS.
  pose proof (len_nonneg (restarts b1)) as Hr1.
  assert (HAdd : Add T R [] [] b1 = Ok (None, added R b1 [] [])).
  { apply Add_ok; unfold length; change (len (@nil Init.Byte.byte)) with 0;
      lia. }
  pose proof (pos_added_bounds R b1 [] []) as Hpos2.
  change (len (@nil Init.Byte.byte)) with 0 in Hpos2.
  pose proof (count_added R b1 [] [] HR HCR) as [Hcnt2 Hc2].
  assert (Hr2 : len (restarts (added R b1 [] [])) <= len (restarts b1) + 1).
  { rewrite restarts_added. destruct (counter b1 >=? R); [|lia].
    rewrite len_app. change (len [uint32 (pos b1)]) with 1. lia. }
  assert (Hlen2 : len (buf (added R b1 [] [])) = T).
  { rewrite len_buf_added;
      change (len (@nil Init.Byte.byte)) with 0; lia. }
  pose proof (len_nonneg (restarts (added R b1 [] []))) as Hr2'.
  set (b1' := added R b1 [] []) in *.
  destruct (finished_table T b1') as (Ho1 & _ & Ho3); try lia.
  exists b1, (splice (T - len (indexOf b1')) (indexOf b1') (buf b1')),
    (finished T b1').
  split; [exact HA|].
  split; [apply (Finish_ok T R b1 None b1' HAdd); lia|].
  split; [exact Ho1|].
  assert (Hrf : len (restarts (finished T b1')) = len (restarts b1') + 1).
  { unfold finished. cbn [restarts set_pos set_buf set_restarts].
    rewrite len_app. reflexivity. }
  split; [rewrite Hrf; exact Ho3|].
  split; [lia|]. split; [lia|].
  rewrite Hrf.
  replace (counter (finished T b1')) with (counter b1') by reflexivity.
  split; lia.
Qed.

(** *** Blocks *)

Lemma recordsSize_app l1 l2 :
  recordsSize (l1 ++ l2) = recordsSize l1 + recordsSize l2.
Proof.
  induction l1 as [|[k v] l1 IH]; [reflexivity|].
  cbn [app recordsSize fold_right fst snd]. fold (recordsSize (l1 ++ l2)).
  fold (recordsSize l1). lia.
Qed.

Lemma AddAll_app T R l1 l2 b b1 :
  AddAll T R l1 b = Ok (None, b1) ->
  AddAll T R (l1 ++ l2) b = AddAll T R l2 b1.
Proof.
  revert b. induction l1 as [|[k v] l1 IH]; intros b H.
  - cbn in H. inversion H. reflexivity.
  - cbn [app AddAll] in *. unfold bind in *.
    destruct (Add T R k v b) as [[[e|] b']|]; [| |discriminate].
    + unfold ret in H. discriminate.
    + now apply IH.
Qed.

(** Records that stay within the current block: the restart vector is
    not touched. *)
Lemma AddAll_block T R kvs : forall b,
  0 <= counter b -> counter b + len kvs <= R ->
  0 <= pos b -> T <= len (buf b) ->
  pos b + recordsSize kvs + 4 * len (restarts b) + 14 <= T ->
  exists b',
    AddAll T R kvs b = Ok (None, b')
    /\ restarts b' = restarts b
    /\ counter b' = counter b + len kvs
    /\ pos b <= pos b' <= pos b + recordsSize kvs
    /\ len (buf b') = len (buf b).
Proof.
  induction kvs as [|[k v] kvs IH]; intros b Hc HcR Hp Hbuf Hroom.
  - exists b. cbn [AddAll recordsSize fold_right]. unfold ret.
    change (len (@nil (bytes * bytes))) with 0. repeat split; lia.
  - cbn [recordsSize fold_right fst snd] in Hroom.
    fold (recordsSize kvs) in Hroom. rewrite len_cons in HcR.
    pose proof (len_nonneg k). pose proof (len_nonneg v).
    pose proof (len_nonneg kvs). pose proof (len_nonneg (restarts b)).
    pose proof (recordsSize_nonneg kvs) as Hsz.
    cbn [AddAll]. unfold bind.
    rewrite Add_ok by (unfold length; lia).
    pose proof (pos_added_bounds R b k v) as Hpos'.
    pose proof (len_buf_added R b k v Hp ltac:(lia)) as Hlen.
    assert (Hr : restarts (added R b k v) = restarts b).
    { rewrite restarts_added. destruct (Z.geb_spec (counter b) R); [lia|].
      reflexivity. }
    assert (Hc' : counter (added R b k v) = counter b + 1).
    { rewrite counter_added. destruct (Z.geb_spec (counter b) R); [lia|].
      reflexivity. }
    destruct (IH (added R b k v)) as (b' & HA & HR' & HC & HP & HL);
      rewrite ?Hr; try lia.
    exists b'. split; [exact HA|].
    cbn [recordsSize fold_right fst snd]. fold (recordsSize kvs).
    rewrite len_cons. repeat split; try lia. congruence.
Qed.

(** Records that open a new block: the first of them appends the current
    offset to the restart vector. *)
Lemma AddAll_new_block T R kv kvs b :
  0 < R -> counter b = R -> 1 + len kvs <= R ->
  0 <= pos b -> T <= len (buf b) ->
  pos b + recordsSize (kv :: kvs) + 4 * len (restarts b) + 18 <= T ->
  exists b',
    AddAll T R (kv :: kvs) b = Ok (None, b')
    /\ restarts b' = restarts b ++ [uint32 (pos b)]
    /\ counter b' = 1 + len kvs
    /\ pos b <= pos b' <= pos b + recordsSize (kv :: kvs)
    /\ len (buf b') = len (buf b).
Proof.
  intros HR Hc HcR Hp Hbuf Hroom. destruct kv as [k v].
  cbn [recordsSize fold_right fst snd] in *. fold (recordsSize kvs) in *.
  pose proof (len_nonneg k). pose proof (len_nonneg v).
  pose proof (len_nonneg kvs). pose proof (len_nonneg (restarts b)).
  pose proof (recordsSize_nonneg kvs) as Hsz.
  cbn [AddAll]. unfold bind.
  rewrite Add_ok by (unfold length; lia).
  pose proof (pos_added_bounds R b k v) as Hpos'.
  pose proof (len_buf_added R b k v Hp ltac:(lia)) as Hlen.
  assert (Hr : restarts (added R b k v) = restarts b ++ [uint32 (pos b)]).
  { rewrite restarts_added. destruct (Z.geb_spec (counter b) R); [|lia].
    reflexivity. }
  assert (Hc' : counter (added R b k v) = 1).
  { rewrite counter_added. destruct (Z.geb_spec (counter b) R); [|lia].
    reflexivity. }
  destruct (AddAll_block T R kvs (added R b k v))
    as (b' & HA & HR' & HC & HP & HL);
    rewrite ?Hr, ?len_app; change (len [uint32 (pos b)]) with 1; try lia.
  exists b'. split; [exact HA|]. repeat split; try lia. congruence.
Qed.

(** 250 records with a restart interval of 100: three blocks, and the
    restart vector holds the offsets at which the second and the third
    began. *)
Lemma AddAll_250 T kvs b0 :
  len kvs = 250 -> len (buf b0) <= T -> recordsSize kvs + 1020 <= T ->
  exists b100 b200 b250,
    AddAll T 100 (firstn 100 kvs) (reset T b0) = Ok (None, b100)
    /\ AddAll T 100 (firstn 200 kvs) (reset T b0) = Ok (None, b200)
    /\ AddAll T 100 kvs (reset T b0) = Ok (None, b250)
    /\ restarts b250 = [uint32 (pos b100); uint32 (pos b200)]
    /\ counter b250 = 50
    /\ 0 <= pos b250 <= recordsSize kvs
    /\ len (buf b250) = T.
Proof.
  intros Hn Hb0 Hroom.
  pose proof (recordsSize_nonneg kvs) as Hs.
  assert (HT : 0 <= T) by lia.
  pose proof (len_reset_buf T b0 HT Hb0) as Hlen0.
  set (b := reset T b0) in *.
  assert (Hp0 : pos b = 0) by reflexivity.
  assert (Hr0 : restarts b = []) by reflexivity.
  assert (Hc0 : counter b = 0) by reflexivity.
  clearbody b.
  set (l1 := firstn 100 kvs). set (r1 := skipn 100 kvs).
  set (l2 := firstn 100 r1). set (l3 := skipn 100 r1).
  assert (Hk : kvs = l1 ++ l2 ++ l3).
  { unfold l1, l2, l3, r1. now rewrite !firstn_skipn. }
  assert (Hn' : List.length kvs = 250%nat) by (unfold len in Hn; lia).
  assert (L1 : len l1 = 100).
  { unfold len, l1. rewrite length_firstn. lia. }
  assert (Lr : List.length r1 = 150%nat).
  { unfold r1. rewrite length_skipn. lia. }
  assert (L2 : len l2 = 100).
  { unfold len, l2. rewrite length_firstn. lia. }
  assert (L3 : len l3 = 50).
  { unfold len, l3. rewrite length_skipn. lia. }
  assert (H200 : firstn 200 kvs = l1 ++ l2).
  { rewrite Hk, app_assoc, firstn_app.
    replace (200 - List.length (l1 ++ l2))%nat with O
      by (rewrite length_app; unfold len in *; lia).
    rewrite firstn_O, app_nil_r. apply firstn_all2.
    rewrite length_app. unfold len in *. lia. }
  assert (Hsz : recordsSize kvs
                = recordsSize l1 + recordsSize l2 + recordsSize l3).
  { rewrite Hk at 1. rewrite !recordsSize_app. lia. }
  pose proof (recordsSize_nonneg l1). pose proof (recordsSize_nonneg l2).
  pose proof (recordsSize_nonneg l3).
  destruct l2 as [|kv2 l2']; [discriminate|].
  destruct l3 as [|kv3 l3']; [discriminate|].
  rewrite len_cons in L2, L3.
  destruct (AddAll_block T 100 l1 b) as (b100 & A1 & R1 & C1 & P1 & B1);
    rewrite ?Hr0; change (len (@nil Z)) with 0; try lia.
  destruct (AddAll_new_block T 100 kv2 l2' b100)
    as (b200 & A2 & R2 & C2 & P2 & B2);
    rewrite ?R1, ?Hr0; change (len (@nil Z)) with 0; try lia.
  destruct (AddAll_new_block T 100 kv3 l3' b200)
    as (b250 & A3 & R3 & C3 & P3 & B3);
    rewrite ?R2, ?R1, ?Hr0, ?len_app; change (len (@nil Z)) with 0;
    change (len [uint32 (pos b100)]) with 1; try lia.
  exists b100, b200, b250.
  split; [exact A1|].
  split; [rewrite H200, (AddAll_app _ _ _ _ _ _ A1); exact A2|].
  split.
  { rewrite Hk, (AddAll_app _ _ _ _ _ _ A1).
    rewrite (AddAll_app _ _ _ _ _ _ A2). exact A3. }
  split; [rewrite R3, R2, R1, Hr0; reflexivity|].
  repeat split; lia.
Qed.

(** What a successful [Add] does to the restart vector. *)
Lemma Add_restart_step T R key value b b' :
  Add T R key value b = Ok (None, b') ->
  (R <= counter b ->
   restarts b' = restarts b ++ [uint32 (pos b)]
   /\ baseKey b' = key /\ counter b' = 1)
  /\ (counter b < R ->
      restarts b' = restarts b /\ counter b' = counter b + 1).
Proof.
  intros H. apply Add_inv in H.
  destruct H as [[_ [He _]]|(_ & _ & -> & _)]; [discriminate|].
  rewrite restarts_added, counter_added.
  split; intros Hc.
  - rewrite baseKey_added_restart by (apply Z.geb_le; lia).
    destruct (Z.geb_spec (counter b) R); [auto|lia].
  - destruct (Z.geb_spec (counter b) R); [lia|auto].
Qed.


(** One record that fills the table up to the limit [Add] enforces:
    [Add] accepts it, and [Finish] fails its assertion. *)
Lemma Finish_panics_after_exact_fit T R key value b0 :
  1 < R -> len (buf b0) <= T ->
  len key + len value + 22 = T ->
  exists b1,
    bind (Reset T) (fun _ => Add T R key value) b0 = Ok (None, b1)
    /\ length b1 = T
    /\ Finish T R b1 = Panic.
Proof.
  intros HR Hb0 Hsz.
  pose proof (len_nonneg key). pose proof (len_nonneg value).
  assert (HT : 0 <= T) by lia.
  unfold bind at 1. rewrite Reset_eq.
  pose proof (len_reset_buf T b0 HT Hb0) as Hlen0.
  set (b := reset T b0) in *.
  assert (Hp0 : pos b = 0) by reflexivity.
  assert (Hr0 : restarts b = []) by reflexivity.
  assert (Hc0 : counter b = 0) by reflexivity.
  assert (Hk0 : baseKey b = []) by reflexivity.
  clearbody b.
  assert (Hdk : diffKeyOf (afterRestart R b) key = key).
  { unfold afterRestart, diffKeyOf. rewrite Hc0.
    destruct (Z.geb_spec 0 R); [lia|]. now rewrite Hk0. }
  exists (added R b key value).
  assert (Hpos1 : pos (added R b key value) = T - 14).
  { rewrite pos_added, Hdk. lia. }
  assert (Hrs1 : restarts (added R b key value) = []).
  { rewrite restarts_added, Hc0.
    destruct (Z.geb_spec 0 R); [lia|]. exact Hr0. }
  assert (Hc1 : counter (added R b key value) = 1).
  { rewrite counter_added, Hc0.
    destruct (Z.geb_spec 0 R); [lia|]. reflexivity. }
  assert (Hbuf1 : len (buf (added R b key value)) = T).
  { rewrite len_buf_added; lia. }
  split; [|split].
  - apply Add_ok; unfold length; rewrite ?Hp0, ?Hr0;
      change (len (@nil Z)) with 0; lia.
  - unfold length. rewrite Hpos1, Hrs1. change (len (@nil Z)) with 0. lia.
  - set (b1 := added R b key value) in *.
    apply (Finish_panics T R b1 None (added R b1 [] [])).
    + apply Add_ok; unfold length; rewrite ?Hpos1, ?Hrs1, ?Hbuf1;
        change (len (@nil Z)) with 0;
        change (len (@nil Init.Byte.byte)) with 0; lia.
    + pose proof (pos_added_bounds R b1 [] []) as Hp2.
      change (len (@nil Init.Byte.byte)) with 0 in Hp2.
      pose proof (len_nonneg (restarts (added R b1 [] []))). lia.
Qed.


(** Whenever [Finish] does return, the table has [tableSize] bytes,
    provided the buffer had. *)
Lemma Finish_returns_tableSize T R b out b' :
  len (buf b) = T -> Finish T R b = Ok (out, b') -> len out = T.
Proof.
  intros Hbuf HF.
  destruct (Add T R [] [] b) as [[e b1]|] eqn:HAdd.
  2:{ unfold Finish, bind in HF. rewrite HAdd in HF. discriminate. }
  assert (Hb1 : len (buf b1) = T /\ 0 <= pos b1 \/ b1 = b).
  { apply Add_inv in HAdd.
    destruct HAdd as [(_ & _ & ->)|(_ & _ & -> & Hp & Hfit)]; [now right|].
    left. change (len (@nil Init.Byte.byte)) with 0 in Hfit.
    pose proof (len_diffKeyOf (afterRestart R b) []) as Hd.
    change (len (@nil Init.Byte.byte)) with 0 in Hd.
    split.
    - unfold added. cbn [buf]. rewrite len_splice;
        rewrite ?len_app, ?len_Encode;
        change (len (@nil Init.Byte.byte)) with 0; lia.
    - rewrite pos_added. change (len (@nil Init.Byte.byte)) with 0. lia. }
  revert HF. unfold Finish, bind. rewrite HAdd, blockIndex_eq.
  unfold get, AssertTrue, modify, ret.
  cbn [pos buf restarts set_restarts set_pos set_buf].
  destruct (pos b1 <=? T - len (indexOf b1)) eqn:Hle; [|discriminate].
  destruct (write _ _) as [[u b2]|] eqn:HW; [|discriminate].
  pose proof (write_returns _ _ _ _ HW) as [Hp Hfit].
  rewrite write_ok in HW by tauto.
  inversion HW; subst b2; clear HW.
  cbn [pos buf restarts set_restarts set_pos set_buf] in *.
  destruct (_ =? T); [|discriminate].
  intros HF. inversion HF.
  assert (Hl : len (buf b1) = T) by (destruct Hb1 as [[Hl _]| ->]; lia).
  rewrite len_splice; lia.
Qed.

(** *** The claims about [Add] *)

(** C1.  [Add] returns the table-full error exactly when the used length
    ([pos + 6 + 4 * len(restarts) + 8]) plus the key and value lengths
    exceeds [tableSize]; and whenever an error is returned, the builder is
    unchanged, field by field. *)
Theorem Add_TableFull_iff T R key value b :
  (Add T R key value b = Ok (Some ErrExceedsTableSize, b)
   <-> length b + len key + len value > T)
  /\ (forall e b', Add T R key value b = Ok (Some e, b') ->
        e = ErrExceedsTableSize /\ b' = b
        /\ counter b' = counter b /\ pos b' = pos b
        /\ baseKey b' = baseKey b /\ restarts b' = restarts b
        /\ prevOffset b' = prevOffset b /\ buf b' = buf b).
Proof.
  split.
  - split.
    + intros H. apply Add_inv in H.
      destruct H as [[Hgt _]|[_ [He _]]]; [lia|discriminate].
    + intros H. apply Add_full. lia.
  - intros e b' H. apply Add_inv in H.
    destruct H as [[_ [He Hb]]|[_ [He _]]]; [|discriminate].
    inversion He; subst. repeat split.
Qed.


(** C10.  A successful [Add] stores at [pos], as four 16-bit big-endian
    fields, the shared-prefix length, the key-suffix length, the value
    length and the previous offset, each reduced modulo 2^16; [Add] is
    refused only by the table-size test, never because a field does not
    fit in 16 bits. *)
Theorem Add_header_truncated T R key value b :
  len key + len value + length b <= T ->
  0 <= pos b ->
  T <= len (buf b) ->
  let dk := diffKeyOf (afterRestart R b) key in
  exists b' hdr,
    Add T R key value b = Ok (None, b')
    /\ slice (pos b) (pos b + 8) (buf b') = Ok hdr
    /\ hdr = PutUint16 ((len key - len dk) mod 2 ^ 16)
             ++ PutUint16 (len dk mod 2 ^ 16)
             ++ PutUint16 (len value mod 2 ^ 16)
             ++ PutUint16 (prevOffset b mod 2 ^ 16)
    /\ Decode hdr = Ok (mkHeader ((len key - len dk) mod 2 ^ 16)
                                 (len dk mod 2 ^ 16)
                                 (len value mod 2 ^ 16)
                                 (prevOffset b mod 2 ^ 16)).
Proof.
  intros Hroom Hpos Hbuf dk.
  pose proof (len_nonneg key). pose proof (len_nonneg value).
  pose proof (len_nonneg (restarts b)).
  pose proof (len_diffKeyOf (afterRestart R b) key) as Hdk. fold dk in Hdk.
  assert (Hfit : pos b + 8 + len key + len value <= len (buf b))
    by (unfold length in Hroom; lia).
  exists (added R b key value), (Encode (headerOf R b key value)).
  split; [now apply Add_ok|].
  split.
  - unfold added. cbn [buf]. fold dk.
    rewrite <- (len_Encode (headerOf R b key value)) at 1.
    apply slice_splice_prefix; rewrite ?len_app, ?len_Encode; lia.
  - split; [reflexivity|]. apply Decode_Encode.
Qed.

(** A value of 65537 bytes added after a record at offset 65546: the
    header stores the value length as 1 and the previous offset as 10. *)
Lemma Add_header_truncated_witness :
  let b := mkBuilder 1 (make 140000) 65556 [Byte.x6b] [] 65546 in
  let key := [Byte.x6b; Byte.x31] in
  let value := make 65537 in
  len value = 65537 /\ prevOffset b = 65546
  /\ exists b' hdr,
       Add 140000 100 key value b = Ok (None, b')
       /\ slice 65556 (65556 + 8) (buf b') = Ok hdr
       /\ hdr = PutUint16 1 ++ PutUint16 1 ++ PutUint16 1 ++ PutUint16 10
       /\ Decode hdr = Ok (mkHeader 1 1 1 10).
Proof.
  intros b key value.
  split; [vm_compute; reflexivity|]. split; [reflexivity|].
  destruct (Add_header_truncated 140000 100 key value b)
    as (b' & hdr & HA & Hs & Hh & Hd);
    [vm_compute; congruence|vm_compute; congruence|vm_compute; congruence|].
  exists b', hdr. split; [exact HA|]. split; [exact Hs|].
  split.
  - rewrite Hh. vm_compute. reflexivity.
  - rewrite Hd. vm_compute. reflexivity.
Defined.

(** A value of 65537 bytes is accepted and its length is stored as 1. *)
Example Add_stores_wrapped_vlen :
  match Add 70000 100 [Byte.x6b] (make 65537)
            (mkBuilder 0 (make 70000) 0 [] [] 0) with
  | Ok (None, b') => rbind (slice 0 8 (buf b')) Decode
  | _ => Panic
  end = Ok (mkHeader 0 1 1 0).
Proof. vm_compute. reflexivity. Qed.

(** *** The claims about [Finish] *)

(** C2 (failing run).  At the default sizes, a builder that has been
    reset accepts one record of total size [tableSize - 14] ([Add] returns
    no error, the used length reaching [tableSize] exactly); [Finish] then
    writes the terminator and fails the assertion [b.pos <= newpos], so no
    table is returned. *)
Theorem Finish_panics_on_accepted_record :
  exists b1,
    bind (Reset defaultTableSize)
         (fun _ => Add defaultTableSize defaultRestartInterval
                       [Byte.x6b] (make (defaultTableSize - 23)))
         zeroBuilder = Ok (None, b1)
    /\ Finish defaultTableSize defaultRestartInterval b1 = Panic.
Proof.
  destruct (Finish_panics_after_exact_fit defaultTableSize
              defaultRestartInterval [Byte.x6b]
              (make (defaultTableSize - 23)) zeroBuilder)
    as (b1 & HA & _ & HF).
  - reflexivity.
  - vm_compute. congruence.
  - rewrite len_make by (vm_compute; congruence).
    change (len [Byte.x6b]) with 1. lia.
  - exists b1. split; assumption.
Qed.


(** C6 (amended).  With [restartInterval = 100], 250 records and then
    [Finish]: the restart vector holds two restart offsets (the offsets
    reached after 100 and after 200 records, appended by the 101st and
    the 201st record) and the end-of-stream offset, so the trailing
    big-endian count is 3, and the returned buffer has exactly
    [tableSize] bytes.  A successful [Add] starts a new block exactly when
    [counter] has reached [restartInterval]: it appends the current offset
    to the restart vector and the record's key becomes the base key. *)
Theorem Finish_250_records T kvs b0 :
  len kvs = 250 -> len (buf b0) <= T -> recordsSize kvs + 1020 <= T ->
  (exists b100 b200 b1 out b2,
     bind (Reset T) (fun _ => AddAll T 100 (firstn 100 kvs)) b0
     = Ok (None, b100)
     /\ bind (Reset T) (fun _ => AddAll T 100 (firstn 200 kvs)) b0
        = Ok (None, b200)
     /\ bind (Reset T) (fun _ => AddAll T 100 kvs) b0 = Ok (None, b1)
     /\ Finish T 100 b1 = Ok (out, b2)
     /\ restarts b1 = [uint32 (pos b100); uint32 (pos b200)]
     /\ restarts b2
        = [uint32 (pos b100); uint32 (pos b200); uint32 (pos b1 + 8)]
     /\ len out = T
     /\ slice (T - 16) T out
        = Ok (PutUint32 (uint32 (pos b100)) ++ PutUint32 (uint32 (pos b200))
              ++ PutUint32 (uint32 (pos b1 + 8)) ++ PutUint32 3)
     /\ slice (T - 4) T out = Ok (PutUint32 3)
     /\ be_get (PutUint32 3) = 3)
  /\ (forall key value b b',
        Add T 100 key value b = Ok (None, b') ->
        (100 <= counter b ->
         restarts b' = restarts b ++ [uint32 (pos b)]
         /\ baseKey b' = key /\ counter b' = 1)
        /\ (counter b < 100 ->
            restarts b' = restarts b /\ counter b' = counter b + 1)).
Proof.
  intros Hn Hb0 Hroom.
  split; [|intros key value b b' HAdd;
           exact (Add_restart_step T 100 key value b b' HAdd)].
  destruct (AddAll_250 T kvs b0 Hn Hb0 Hroom)
    as (b100 & b200 & b1 & A1 & A2 & A3 & HR & HC & HP & HB).
  set (b1' := added 100 b1 [] []).
  assert (HAdd : Add T 100 [] [] b1 = Ok (None, b1')).
  { apply Add_ok; unfold length; rewrite ?HR;
      change (len (@nil Init.Byte.byte)) with 0;
      change (len [uint32 (pos b100); uint32 (pos b200)]) with 2; lia. }
  assert (Hr' : restarts b1' = restarts b1).
  { unfold b1'. rewrite restarts_added.
    destruct (Z.geb_spec (counter b1) 100); [lia|reflexivity]. }
  assert (Hp' : pos b1' = pos b1 + 8).
  { unfold b1'. rewrite pos_added.
    pose proof (len_diffKeyOf (afterRestart 100 b1) []) as Hd.
    change (len (@nil Init.Byte.byte)) with 0 in *. lia. }
  assert (Hb' : len (buf b1') = T).
  { unfold b1'. rewrite len_buf_added;
      change (len (@nil Init.Byte.byte)) with 0; lia. }
  assert (Hl' : len (restarts b1') = 2) by (rewrite Hr', HR; reflexivity).
  destruct (finished_table T b1') as (Ho1 & Ho2 & Ho3); try lia.
  rewrite Hl' in Ho3.
  exists b100, b200, b1.
  exists (splice (T - len (indexOf b1')) (indexOf b1') (buf b1')).
  exists (finished T b1').
  unfold bind at 1 2 3. rewrite !Reset_eq.
  split; [exact A1|]. split; [exact A2|]. split; [exact A3|].
  split; [apply (Finish_ok T 100 b1 None b1' HAdd); lia|].
  split; [exact HR|].
  split.
  { unfold finished. cbn [restarts set_pos set_buf set_restarts].
    now rewrite Hr', HR, Hp'. }
  split; [exact Ho1|].
  split.
  { replace (T - 16) with (T - len (indexOf b1'))
      by (rewrite len_indexOf, Hl'; lia).
    rewrite Ho2.
    unfold indexOf. rewrite Hr', HR, Hp'. cbn [app map List.concat].
    rewrite <- !app_assoc. cbn [app]. reflexivity. }
  split; [exact Ho3|reflexivity].
Qed.

Lemma Finish_250_records_witness :
  exists b100 b200 b1 out b2,
    bind (Reset 4096) (fun _ => AddAll 4096 100 (firstn 100 records250))
         zeroBuilder = Ok (None, b100)
    /\ bind (Reset 4096) (fun _ => AddAll 4096 100 (firstn 200 records250))
            zeroBuilder = Ok (None, b200)
    /\ bind (Reset 4096) (fun _ => AddAll 4096 100 records250) zeroBuilder
       = Ok (None, b1)
    /\ Finish 4096 100 b1 = Ok (out, b2)
    /\ restarts b1 = [uint32 (pos b100); uint32 (pos b200)]
    /\ restarts b2
       = [uint32 (pos b100); uint32 (pos b200); uint32 (pos b1 + 8)]
    /\ len out = 4096
    /\ slice (4096 - 16) 4096 out
       = Ok (PutUint32 (uint32 (pos b100)) ++ PutUint32 (uint32 (pos b200))
             ++ PutUint32 (uint32 (pos b1 + 8)) ++ PutUint32 3)
    /\ slice (4096 - 4) 4096 out = Ok (PutUint32 3)
    /\ be_get (PutUint32 3) = 3.
Proof.
  apply (Finish_250_records 4096 records250 zeroBuilder);
    vm_compute; congruence.
Defined.

(** At the default sizes the trailing count of a 250-record table is 3. *)
Lemma Finish_250_count_is_3_not_4 :
  exists b1 out b2,
    bind (Reset defaultTableSize)
         (fun _ => AddAll defaultTableSize defaultRestartInterval records250)
         zeroBuilder = Ok (None, b1)
    /\ Finish defaultTableSize defaultRestartInterval b1 = Ok (out, b2)
    /\ slice (defaultTableSize - 4) defaultTableSize out = Ok (PutUint32 3)
    /\ be_get (PutUint32 3) <> 4.
Proof.
  destruct (Finish_after_records defaultTableSize defaultRestartInterval
              records250 zeroBuilder)
    as (b1 & out & b2 & HA & HF & Hlen & Hcount & Hc1 & Hr1 & Hc2 & Hr2).
  - reflexivity.
  - vm_compute. congruence.
  - vm_compute. congruence.
  - exists b1, out, b2.
    change (len records250) with 250 in Hc2.
    unfold defaultRestartInterval in Hc2, Hr2.
    pose proof (len_nonneg (restarts b2)).
    assert (E2 : len (restarts b2) = 3) by lia.
    rewrite E2 in Hcount.
    repeat (split; [assumption|]). vm_compute. congruence.
Qed.

(** Computed at a small table size: the trailing four bytes. *)
Example Finish_250_small_table :
  match bind (Reset 4096)
             (fun _ => bind (AddAll 4096 100 records250)
                            (fun _ => Finish 4096 100)) zeroBuilder with
  | Ok (out, b) => Some (skipn 4092 out, len (restarts b), len out)
  | Panic => None
  end = Some ([Byte.x00; Byte.x00; Byte.x00; Byte.x03], 3, 4096).
Proof. vm_compute. reflexivity. Qed.

End TableProofs.

(** ** Properties of the mapper *)

Module MapperProofs.
Import pb Mapper.

(** *** Map entries *)

Lemma slice_ok (lo hi : Z) (s : bytes) :
  0 <= lo -> lo <= hi -> hi <= len s ->
  slice lo hi s = Ok (firstn (Z.to_nat (hi - lo)) (skipn (Z.to_nat lo) s)).
Proof.
  intros H0 H1 H2. unfold slice.
  now replace ((0 <=? lo) && (lo <=? hi) && (hi <=? len s)) with true
    by (symmetry; rewrite !andb_true_iff; lia).
Qed.

Lemma store_ok (lo : Z) (d dst : bytes) :
  0 <= lo -> lo + len d <= len dst -> store lo d dst = Ok (splice lo d dst).
Proof.
  intros H0 H1. pose proof (len_nonneg d). unfold store.
  now rewrite slice_ok by lia.
Qed.

Lemma splice_all (d s : bytes) : len d = len s -> splice 0 d s = d.
Proof.
  intros H. unfold splice. cbn [Z.to_nat firstn app].
  rewrite skipn_all2 by (unfold len in *; lia). apply app_nil_r.
Qed.

Lemma len_entryOf uid key plist :
  len (entryOf uid key plist) = 16 + len key + len plist.
Proof.
  unfold entryOf, PutUint64, PutUint32.
  rewrite !len_app, !len_be_put. lia.
Qed.

Lemma uint32_small z : 0 <= z < 2 ^ 32 -> uint32 z = z.
Proof. intros H. unfold uint32. now apply Z.mod_small. Qed.

Lemma uint64_small z : 0 <= z < 2 ^ 64 -> uint64 z = z.
Proof. intros H. unfold uint64. now apply Z.mod_small. Qed.

Lemma be_get_PutUint32 v : be_get (PutUint32 (uint32 v)) = uint32 v.
Proof.
  unfold PutUint32. rewrite be_get_put. unfold uint32.
  change (8 * Z.of_nat 4) with 32. apply Z.mod_mod. lia.
Qed.

Lemma be_get_PutUint64 v : be_get (PutUint64 (uint64 v)) = uint64 v.
Proof.
  unfold PutUint64. rewrite be_get_put. unfold uint64.
  change (8 * Z.of_nat 8) with 64. apply Z.mod_mod. lia.
Qed.

Section Entry.
Variables (uid : Z) (key plist : bytes).
Let A := PutUint64 (uint64 uid).
Let B := PutUint32 (uint32 (len key)).
Let C := PutUint32 (uint32 (len plist)).

Lemma entry_Uid : MapEntry_Uid (entryOf uid key plist) = Ok (uint64 uid).
Proof.
  unfold MapEntry_Uid, entryOf. fold A B C.
  change (A ++ B ++ C ++ key ++ plist)
    with ([] ++ A ++ B ++ C ++ key ++ plist).
  rewrite (slice_app_mid [] A) by (unfold A, len; simpl; lia).
  cbn [rbind]. unfold A. now rewrite be_get_PutUint64.
Qed.

Lemma entry_klen :
  slice 8 12 (entryOf uid key plist) = Ok B.
Proof.
  unfold entryOf. fold A B C.
  apply slice_app_mid; unfold A, B, len; simpl; lia.
Qed.

Lemma entry_plen :
  slice 12 16 (entryOf uid key plist) = Ok C.
Proof.
  unfold entryOf. fold A B C.
  replace (A ++ B ++ C ++ key ++ plist)
    with ((A ++ B) ++ C ++ key ++ plist) by (now rewrite <- app_assoc).
  apply slice_app_mid; unfold A, B, C, len; simpl; lia.
Qed.

Lemma entry_Key :
  16 + len key < 2 ^ 32 ->
  MapEntry_Key (entryOf uid key plist) = Ok key.
Proof.
  intros Hk. pose proof (len_nonneg key).
  unfold MapEntry_Key. rewrite entry_klen. cbn [rbind].
  unfold B. rewrite be_get_PutUint32, !uint32_small by
    (rewrite ?uint32_small; lia).
  unfold entryOf. fold A B C.
  replace (A ++ B ++ C ++ key ++ plist)
    with ((A ++ B ++ C) ++ key ++ plist) by (now rewrite <- !app_assoc).
  apply slice_app_mid; unfold A, B, C, len; simpl; lia.
Qed.

Lemma entry_Plist :
  16 + len key + len plist < 2 ^ 32 ->
  MapEntry_Plist (entryOf uid key plist) = Ok plist.
Proof.
  intros Hk. pose proof (len_nonneg key). pose proof (len_nonneg plist).
  unfold MapEntry_Plist. rewrite entry_klen, entry_plen. cbn [rbind].
  unfold B, C. rewrite !be_get_PutUint32.
  rewrite (uint32_small (len key)), (uint32_small (len plist)) by lia.
  rewrite (uint32_small (16 + len key)) by lia.
  rewrite (uint32_small (16 + len key + len plist)) by lia.
  unfold entryOf. fold A B C.
  replace (A ++ B ++ C ++ key ++ plist)
    with ((A ++ B ++ C ++ key) ++ plist ++ []).
  2:{ now rewrite app_nil_r, <- !app_assoc. }
  apply slice_app_mid; unfold A, B, C; rewrite ?len_app;
    unfold PutUint64, PutUint32; rewrite ?len_be_put; lia.
Qed.
End Entry.

Ltac fit :=
  repeat match goal with
         | |- context [len (splice ?p ?d ?s)] =>
             rewrite (len_splice p d s) by fit
         end;
  rewrite ?len_app in *; lia.

Section Marshal.
Variable Posting_Marshal : Posting -> bytes.


Lemma Posting_Size_eq p :
  Posting_Size Posting_Marshal p = len (storedPlist Posting_Marshal p).
Proof. now destruct p. Qed.

(** On a destination of [mapEntrySize] bytes, [marshalMapEntry] fills
    all of it with the entry. *)
Lemma marshalMapEntry_ok dst uid key p :
  len dst = mapEntrySize Posting_Marshal key p ->
  marshalMapEntry Posting_Marshal dst uid key p
  = Ok (entryOf (storedUid uid p) key (storedPlist Posting_Marshal p)).
Proof.
  unfold mapEntrySize. rewrite Posting_Size_eq. intros Hlen.
  pose proof (len_nonneg key) as Hk.
  pose proof (len_nonneg (storedPlist Posting_Marshal p)) as Hp.
  unfold marshalMapEntry. rewrite Posting_Size_eq.
  fold (storedUid uid p).
  set (A := PutUint64 (uint64 (storedUid uid p))).
  set (B := PutUint32 (uint32 (len key))).
  set (C := PutUint32 (uint32 (len (storedPlist Posting_Marshal p)))).
  assert (LA : len A = 8) by apply len_be_put.
  assert (LB : len B = 4) by apply len_be_put.
  assert (LC : len C = 4) by apply len_be_put.
  rewrite store_ok by fit. cbn [rbind].
  rewrite store_ok by fit. cbn [rbind].
  replace (splice 8 B (splice 0 A dst)) with (splice 0 (A ++ B) dst).
  2:{ rewrite <- splice_splice by fit. f_equal; try fit. }
  rewrite store_ok by fit. cbn [rbind].
  replace (splice 12 C (splice 0 (A ++ B) dst))
    with (splice 0 ((A ++ B) ++ C) dst).
  2:{ rewrite <- splice_splice by fit. f_equal; try fit. }
  set (H3 := (A ++ B) ++ C).
  assert (LH : len H3 = 16) by (unfold H3; fit).
  unfold slice_from at 1. rewrite len_splice by fit.
  replace ((0 <=? 16) && (16 <=? len dst)) with true
    by (symmetry; rewrite andb_true_iff; lia).
  cbn [rbind]. rewrite len_skipn by fit.
  rewrite len_splice by fit.
  rewrite Z.min_r by lia.
  rewrite firstn_all2 by (unfold len; lia).
  rewrite store_ok by fit. cbn [rbind].
  replace (splice 16 key (splice 0 H3 dst))
    with (splice 0 (H3 ++ key) dst).
  2:{ rewrite <- splice_splice by fit. f_equal; try fit. }
  assert (Hfin : forall P, len P = len (storedPlist Posting_Marshal p) ->
            splice 0 ((H3 ++ key) ++ P) dst = entryOf (storedUid uid p) key P).
  { intros P HP. rewrite splice_all by fit.
    unfold entryOf, H3. fold A B. rewrite HP. fold C.
    now rewrite <- !app_assoc. }
  destruct (Z.gtb_spec (len (storedPlist Posting_Marshal p)) 0) as [Hpos|Hzero].
  - destruct p as [q|]; [|cbn in Hpos; lia]. cbn [storedPlist] in *.
    unfold slice_from. rewrite len_splice by fit.
    replace ((0 <=? 16 + len key) && (16 + len key <=? len dst)) with true
      by (symmetry; rewrite andb_true_iff; lia).
    cbn [rbind]. rewrite slice_ok; try (rewrite ?len_skipn; fit).
    cbn [rbind]. rewrite store_ok by fit.
    cbn [rbind]. rewrite len_splice by fit.
    rewrite len_splice by fit.
    replace (len dst =? 16 + len key + len (Posting_Marshal q)) with true
      by (symmetry; apply Z.eqb_eq; lia).
    replace (splice (16 + len key) (Posting_Marshal q)
               (splice 0 (H3 ++ key) dst))
      with (splice 0 ((H3 ++ key) ++ Posting_Marshal q) dst).
    2:{ rewrite <- splice_splice by fit. f_equal; try fit. }
    now rewrite Hfin.
  - cbn [rbind]. rewrite len_splice by fit.
    replace (len dst =? 16 + len key + len (storedPlist Posting_Marshal p)) with true
      by (symmetry; apply Z.eqb_eq; lia).
    assert (Hnil : storedPlist Posting_Marshal p = []).
    { destruct (storedPlist Posting_Marshal p) as [|c l]; [reflexivity|].
      rewrite len_cons in *. pose proof (len_nonneg l). lia. }
    pose proof (Hfin [] ltac:(now rewrite Hnil)) as Hfin0.
    rewrite app_nil_r in Hfin0. now rewrite Hnil, Hfin0.
Qed.
End Marshal.


(** *** The typed predicate *)

Lemma substring_all (s : string) : String.substring 0 (String.length s) s = s.
Proof. induction s as [|c s IH]; cbn; [reflexivity|now rewrite IH]. Qed.

Lemma beforeDot_app (ty rest : string) :
  hasDot ty = false -> beforeDot (ty ++ "." ++ rest)%string = ty.
Proof.
  induction ty as [|c ty IH]; cbn in *; [reflexivity|].
  intros H. apply orb_false_iff in H. destruct H as [Hc Hty].
  rewrite Hc. now rewrite IH.
Qed.

(** The type segment of [_:Type.localname] is [Type]. *)
Lemma typOf_blank (ty rest : string) :
  hasDot ty = false -> typOf ("_:" ++ ty ++ "." ++ rest)%string = ty.
Proof.
  intros H. unfold typOf.
  set (s := (ty ++ "." ++ rest)%string).
  change ("_:" ++ s)%string with (String "_" (String ":" s)).
  replace (strings_HasPrefix (String "_" (String ":" s)) "_:") with true
    by reflexivity.
  cbn [String.length]. rewrite !Nat.sub_succ, Nat.sub_0_r.
  cbn [String.substring]. rewrite substring_all. now apply beforeDot_app.
Qed.

Lemma typOf_not_blank (s : string) :
  strings_HasPrefix s "_:" = false -> typOf s = EmptyString.
Proof. intros H. unfold typOf. now rewrite H. Qed.

Section Edges.
Variables (optNamespace : Z) (uid : string -> Z -> Z)
          (NamespaceAttr : Z -> string -> string)
          (ToHexString : Z -> string).

Lemma forwardEdge_inv nq de :
  forwardEdge optNamespace uid NamespaceAttr ToHexString nq = Ok de ->
  Predicate de = NamespaceAttr (Namespace de) (typedPredicate nq)
  /\ Namespace de
     = (if optNamespace =? MaxUint64 then Namespace nq else optNamespace)
  /\ ObjectValue de = ObjectValue nq.
Proof.
  unfold forwardEdge.
  destruct (uid (Subject nq) _ =? 0); [discriminate|].
  destruct (ObjectValue nq) as [v|].
  - cbn. intros H. inversion H. cbn. auto.
  - destruct (uid (ObjectId nq) _ =? 0); [discriminate|].
    cbn. intros H. inversion H. cbn. auto.
Qed.
End Edges.

(** *** The order of [bytes.Compare] *)

Lemma byte_compare_eq x y : byte.compare x y = Eq <-> x = y.
Proof.
  unfold byte.compare. rewrite Z.compare_eq_iff. split.
  - apply byte.unsigned_inj.
  - now intros ->.
Qed.

Lemma byte_compare_antisym x y :
  byte.compare y x = CompOpp (byte.compare x y).
Proof. unfold byte.compare. apply Z.compare_antisym. Qed.

Lemma byte_compare_trans x y z c :
  byte.compare x y = c -> byte.compare y z = c -> byte.compare x z = c.
Proof.
  unfold byte.compare. destruct c; intros H1 H2.
  - rewrite Z.compare_eq_iff in *. lia.
  - rewrite Z.compare_lt_iff in *. lia.
  - rewrite Z.compare_gt_iff in *. lia.
Qed.

Lemma bytes_Compare_eq a b : bytes_Compare a b = Eq <-> a = b.
Proof. apply list_compare_refl, byte_compare_eq. Qed.

Lemma bytes_Compare_antisym a b :
  bytes_Compare b a = CompOpp (bytes_Compare a b).
Proof.
  apply list_compare_antisym;
    [apply byte_compare_eq|apply byte_compare_antisym].
Qed.

Lemma bytes_Compare_trans a b c r :
  bytes_Compare a b = r -> bytes_Compare b c = r -> bytes_Compare a c = r.
Proof.
  apply list_compare_trans;
    [apply byte_compare_eq|apply byte_compare_trans
    |apply byte_compare_antisym].
Qed.

Lemma bytes_Equal_eq a b : bytes_Equal a b = true <-> a = b.
Proof.
  unfold bytes_Equal. rewrite <- bytes_Compare_eq.
  destruct (bytes_Compare a b); split; congruence.
Qed.

(** [bytes.Compare] answers [Lt] exactly on lexicographically smaller
    slices. *)
Lemma bytes_Compare_lt a b : bytes_Compare a b = Lt <-> lexLt a b.
Proof.
  unfold lexLt, bytes_Compare. split.
  - intros H.
    destruct (list_compareP byte.compare byte_compare_eq a b)
      as [?|y t Hb|?|p x s y t Ha Hb Hxy|?]; try discriminate.
    + left. now exists y, t.
    + right. exists p, x, s, y, t. repeat split; assumption.
  - intros [(y & t & Hb)|(p & x & s & y & t & Ha & Hb & Hxy)];
      apply (list_compare_spec_complete byte_compare_eq).
    + now apply ListCompareShorter with y t.
    + apply (ListCompareLt byte.compare p x s y t); assumption.
Qed.

Lemma keyLe_cases a b : keyLe a b <-> bytes_Compare a b = Lt \/ a = b.
Proof.
  unfold keyLe. rewrite <- bytes_Compare_eq.
  destruct (bytes_Compare a b); split; intros H.
  - now right.
  - discriminate.
  - now left.
  - discriminate.
  - congruence.
  - destruct H; discriminate.
Qed.

Lemma keyLt_le_trans a b c :
  bytes_Compare a b = Lt -> keyLe b c -> bytes_Compare a c = Lt.
Proof.
  intros H1 H2. apply keyLe_cases in H2. destruct H2 as [H2| ->]; [|exact H1].
  now apply bytes_Compare_trans with b.
Qed.

Lemma keyLe_trans a b c : keyLe a b -> keyLe b c -> keyLe a c.
Proof.
  intros H1 H2. apply keyLe_cases in H1. destruct H1 as [H1| ->]; [|exact H2].
  apply keyLe_cases. left. now apply keyLt_le_trans with b.
Qed.

Lemma keyLe_total a b : bytes_Compare a b = Gt -> bytes_Compare b a = Lt.
Proof. intros H. rewrite bytes_Compare_antisym, H. reflexivity. Qed.

(** *** The order of the comparator [less] *)

Lemma decodeEntry_inv me k u :
  decodeEntry me = Some (k, u) <->
  MapEntry_Key me = Ok k /\ MapEntry_Uid me = Ok u.
Proof.
  unfold decodeEntry.
  destruct (MapEntry_Key me) as [k'|], (MapEntry_Uid me) as [u'|];
    split; try discriminate; try (intros [H1 H2]; discriminate).
  - intros H. inversion H. auto.
  - intros [H1 H2]. inversion H1. inversion H2. reflexivity.
Qed.

Lemma less_decoded a b da db :
  decodeEntry a = Some da -> decodeEntry b = Some db ->
  less a b = Ok (ltKUb da db).
Proof.
  destruct da as [ka ua], db as [kb ub]. intros Ha Hb.
  apply decodeEntry_inv in Ha, Hb. destruct Ha as [Ka Ua], Hb as [Kb Ub].
  unfold less, ltKUb. rewrite Ka, Kb. cbn [rbind fst snd].
  destruct (bytes_Compare ka kb); try reflexivity.
  now rewrite Ua, Ub.
Qed.

Lemma ltKUb_true a b :
  ltKUb a b = true <->
  bytes_Compare (fst a) (fst b) = Lt \/ (fst a = fst b /\ snd a < snd b).
Proof.
  unfold ltKUb. pose proof (bytes_Compare_eq (fst a) (fst b)) as He.
  destruct (bytes_Compare (fst a) (fst b)).
  - rewrite Z.ltb_lt. split; [intros H; right; split; [now apply He|exact H]|].
    intros [H|[_ H]]; [discriminate|exact H].
  - split; auto.
  - split; [discriminate|]. intros [H|[H _]]; [discriminate|].
    apply He in H. discriminate.
Qed.

Lemma ltKUb_false a b : ltKUb a b = false -> leKU b a.
Proof.
  unfold ltKUb, leKU. pose proof (bytes_Compare_eq (fst a) (fst b)) as He.
  destruct (bytes_Compare (fst a) (fst b)) eqn:Hc.
  - intros H. apply Z.ltb_ge in H. right. split; [|exact H].
    symmetry. now apply He.
  - discriminate.
  - intros _. left. now apply keyLe_total.
Qed.

Lemma ltKUb_leKU a b : ltKUb a b = true -> leKU a b.
Proof.
  intros H. apply ltKUb_true in H. unfold leKU.
  destruct H as [H|[H1 H2]]; [now left|right; split; [exact H1|lia]].
Qed.

Lemma leKU_trans a b c : leKU a b -> leKU b c -> leKU a c.
Proof.
  unfold leKU. intros [H1|[E1 L1]] [H2|[E2 L2]].
  - left. now apply bytes_Compare_trans with (fst b).
  - left. now rewrite <- E2.
  - left. now rewrite E1.
  - right. split; [congruence|lia].
Qed.

Lemma entryLe_iff a b :
  entryLe a b <->
  exists da db, decodeEntry a = Some da /\ decodeEntry b = Some db
                /\ leKU da db.
Proof.
  unfold entryLe, leKU. split.
  - intros (ka & ua & kb & ub & Ha & Hb & H).
    exists (ka, ua), (kb, ub). cbn [fst snd].
    rewrite bytes_Compare_lt. auto.
  - intros ([ka ua] & [kb ub] & Ha & Hb & H). cbn [fst snd] in H.
    exists ka, ua, kb, ub. rewrite <- bytes_Compare_lt. auto.
Qed.

Lemma entryLe_trans a b c : entryLe a b -> entryLe b c -> entryLe a c.
Proof.
  rewrite !entryLe_iff.
  intros (da & db & Ha & Hb & H1) (db' & dc & Hb' & Hc & H2).
  rewrite Hb in Hb'. inversion Hb'; subst db'.
  exists da, dc. repeat split; try assumption. now apply leKU_trans with db.
Qed.

(** Entries made by [addMapEntry] can be read back: they are the entries
    the spill is about. *)
Lemma addMapEntry_decodes (Posting_Marshal : Posting -> bytes)
    (key : bytes) (p : Posting) :
  let p' := match PostingType p with
            | Posting_REF => None
            | _ => Some p
            end in
  mapEntrySize Posting_Marshal key p' < 2 ^ 32 ->
  exists me,
    addMapEntry Posting_Marshal key p = Ok me
    /\ decodeEntry me = Some (key, uint64 (Uid p))
    /\ wfEntryb me = true.
Proof.
  intros p' Hsmall.
  pose proof (len_nonneg key).
  pose proof (len_nonneg (storedPlist Posting_Marshal p')).
  assert (Hsz : mapEntrySize Posting_Marshal key p'
                = 16 + len key + len (storedPlist Posting_Marshal p')).
  { unfold mapEntrySize. rewrite Posting_Size_eq. lia. }
  exists (entryOf (Uid p) key (storedPlist Posting_Marshal p')).
  assert (Hd : decodeEntry (entryOf (Uid p) key (storedPlist Posting_Marshal p'))
               = Some (key, uint64 (Uid p))).
  { unfold decodeEntry. rewrite entry_Key, entry_Uid by lia. reflexivity. }
  split; [|split; [exact Hd|unfold wfEntryb; now rewrite Hd]].
  unfold addMapEntry. fold p'.
  rewrite marshalMapEntry_ok by (rewrite len_make; lia).
  f_equal. f_equal. unfold storedUid, p'. now destruct (PostingType p).
Qed.

(** *** [SortSlice] sorts *)

Lemma insertSorted_ok r : forall sorted,
  wfEntry r -> Forall wfEntry sorted -> StronglySorted entryLe sorted ->
  exists s,
    insertSorted less r sorted = Ok s
    /\ Permutation (r :: sorted) s
    /\ StronglySorted entryLe s
    /\ Forall wfEntry s.
Proof.
  induction sorted as [|s0 rest IH]; intros Hr Hwf Hss.
  - exists [r]. cbn. repeat split; auto.
    constructor; constructor.
  - destruct Hr as [dr Hdr]. inversion Hwf as [|? ? [ds Hds] Hwf']; subst.
    inversion Hss as [|? ? Hss' Hall]; subst.
    cbn [insertSorted]. rewrite (less_decoded s0 r ds dr Hds Hdr).
    cbn [rbind]. destruct (ltKUb ds dr) eqn:Hlt.
    + destruct (IH (ex_intro _ dr Hdr) Hwf' Hss')
        as (s' & Hins & Hperm & Hss'' & Hwf'').
      rewrite Hins. cbn [rbind]. exists (s0 :: s'). repeat split.
      * apply perm_trans with (s0 :: r :: rest); [apply perm_swap|].
        now apply perm_skip.
      * constructor; [exact Hss''|].
        apply (Permutation_Forall Hperm). constructor; [|exact Hall].
        apply entryLe_iff. exists ds, dr. repeat split; auto.
        now apply ltKUb_leKU.
      * constructor; [now exists ds|exact Hwf''].
    + exists (r :: s0 :: rest). repeat split; auto.
      * constructor; [exact Hss|].
        assert (Hrs : entryLe r s0).
        { apply entryLe_iff. exists dr, ds. repeat split; auto.
          now apply ltKUb_false. }
        constructor; [exact Hrs|].
        eapply Forall_impl; [|exact Hall].
        intros x Hx. now apply entryLe_trans with s0.
      * constructor; [now exists dr|exact Hwf].
Qed.

Lemma SortSlice_ok : forall records,
  Forall wfEntry records ->
  exists s,
    SortSlice less records = Ok s
    /\ Permutation records s
    /\ StronglySorted entryLe s
    /\ Forall wfEntry s.
Proof.
  induction records as [|r rest IH]; intros Hwf.
  - exists []. cbn. repeat split; auto. constructor.
  - inversion Hwf as [|? ? Hr Hwf']; subst.
    destruct (IH Hwf') as (s & Hs & Hperm & Hss & Hwfs).
    destruct (insertSorted_ok r s Hr Hwfs Hss)
      as (s' & Hins & Hperm' & Hss' & Hwfs').
    exists s'. cbn [SortSlice]. rewrite Hs. cbn [rbind].
    repeat split; auto.
    apply perm_trans with (r :: s); [now apply perm_skip|exact Hperm'].
Qed.

Lemma fileRecords_writes (h1 h2 : bytes) (f : bytes -> bytes) sorted :
  fileRecords (h1 :: h2 :: flat_map (fun s => [f s; s]) sorted) = sorted.
Proof.
  unfold fileRecords. cbn [skipn].
  induction sorted as [|s rest IH]; [reflexivity|].
  cbn [flat_map app everySecond]. now rewrite IH.
Qed.

(** *** Partition keys *)

Lemma wfEntryb_Forall l : forallb wfEntryb l = true -> Forall wfEntry l.
Proof.
  rewrite forallb_forall, Forall_forall. intros H me Hin.
  specialize (H me Hin). unfold wfEntryb, wfEntry in *.
  destruct (decodeEntry me) as [d|]; [now exists d|discriminate].
Qed.

Lemma StronglySorted_snoc {A} (R : A -> A -> Prop) l k :
  StronglySorted R l -> Forall (fun x => R x k) l ->
  StronglySorted R (l ++ [k]).
Proof.
  induction 1 as [|a l Hss IH Hall]; intros Hk; cbn.
  - repeat constructor.
  - inversion Hk; subst. constructor; [now apply IH|].
    apply Forall_app. split; [exact Hall|now constructor].
Qed.

Lemma StronglySorted_snoc_inv {A} (R : A -> A -> Prop) l k :
  StronglySorted R (l ++ [k]) -> Forall (fun x => R x k) l.
Proof.
  induction l as [|a l IH]; cbn; intros H; [constructor|].
  inversion H as [|? ? Hss Hall]; subst.
  apply Forall_app in Hall. destruct Hall as [_ Hk]. inversion Hk; subst.
  constructor; [assumption|now apply IH].
Qed.

Section Partition.
Variable PartitionBufSize : Z.

Lemma partitionStep_decoded bufSize keys me k u :
  decodeEntry me = Some (k, u) ->
  partitionStep PartitionBufSize (bufSize, keys) me
  = Ok (if bufSize + (4 + len me) <? PartitionBufSize
        then (bufSize + (4 + len me), keys)
        else if (len keys >? 0) && bytes_Equal k (last keys [])
             then (bufSize + (4 + len me), keys)
             else (0, keys ++ [k])).
Proof.
  intros Hd. apply decodeEntry_inv in Hd. destruct Hd as [Hk _].
  unfold partitionStep. destruct (_ <? _); [reflexivity|].
  rewrite Hk. cbn [rbind]. now destruct (_ && _).
Qed.

(** Appending the key of the next record keeps the keys strictly
    ascending, because it is not below any of them and differs from
    the last. *)
Lemma keys_snoc_sorted keys k :
  StronglySorted keyLt keys ->
  (forall x, In x keys -> keyLe x k) ->
  (len keys >? 0) && bytes_Equal k (last keys []) = false ->
  StronglySorted keyLt (keys ++ [k]).
Proof.
  intros Hss Hle Hne. apply StronglySorted_snoc; [exact Hss|].
  destruct keys as [|k0 keys0] eqn:Hkeys; [constructor|].
  rewrite <- Hkeys in *.
  assert (Hnn : keys <> []) by (rewrite Hkeys; discriminate).
  destruct (exists_last Hnn) as (init & lst & Heq).
  rewrite Heq in *. rewrite last_last in Hne.
  assert (Hlen : (len (init ++ [lst]) >? 0) = true).
  { rewrite len_app. pose proof (len_nonneg init).
    change (len [lst]) with 1. apply Z.gtb_lt. lia. }
  rewrite Hlen in Hne. cbn [andb] in Hne.
  assert (Hlst : keyLt lst k).
  { assert (Hl : keyLe lst k)
      by (apply Hle, in_or_app; right; now left).
    apply keyLe_cases in Hl. destruct Hl as [Hl|Hl]; [exact Hl|].
    subst lst. assert (bytes_Equal k k = true) by now apply bytes_Equal_eq.
    congruence. }
  apply Forall_app. split; [|now constructor].
  eapply Forall_impl; [|exact (StronglySorted_snoc_inv _ _ _ Hss)].
  intros x Hx. unfold keyLt in *.
  now apply bytes_Compare_trans with lst.
Qed.

Lemma partitionLoop_ok : forall slices st,
  Forall wfEntry slices -> StronglySorted entryLe slices ->
  StronglySorted keyLt (snd st) ->
  (forall x me d, In x (snd st) -> In me slices ->
                  decodeEntry me = Some d -> keyLe x (fst d)) ->
  exists st',
    partitionLoop PartitionBufSize st slices = Ok st'
    /\ StronglySorted keyLt (snd st')
    /\ (forall k, In k (snd st') ->
          In k (snd st)
          \/ exists me, In me slices /\ MapEntry_Key me = Ok k).
Proof.
  induction slices as [|me rest IH]; intros [bufSize keys] Hwf Hss Hks Hle.
  - exists (bufSize, keys). cbn. auto.
  - cbn [snd] in *.
    inversion Hwf as [|? ? [[k u] Hd] Hwf']; subst.
    inversion Hss as [|? ? Hss' Hall]; subst.
    cbn [partitionLoop]. rewrite (partitionStep_decoded _ _ _ k u Hd).
    cbn [rbind].
    assert (Hkeep : forall bs,
              exists st',
                partitionLoop PartitionBufSize (bs, keys) rest = Ok st'
                /\ StronglySorted keyLt (snd st')
                /\ (forall k0, In k0 (snd st') ->
                      In k0 keys
                      \/ exists me0, In me0 (me :: rest)
                                     /\ MapEntry_Key me0 = Ok k0)).
    { intros bs. destruct (IH (bs, keys) Hwf' Hss' Hks)
        as (st' & Hrun & Hs & Hin).
      - intros x me0 d Hx Hme0. apply Hle; [exact Hx|now right].
      - exists st'. repeat split; auto. intros k0 Hk0.
        destruct (Hin k0 Hk0) as [H|(me0 & Hme0 & Hkey)]; [now left|].
        right. exists me0. split; [now right|exact Hkey]. }
    destruct (_ <? _); [apply Hkeep|].
    destruct (_ && _) eqn:Hdup; [apply Hkeep|].
    destruct (IH (0, keys ++ [k]) Hwf' Hss') as (st' & Hrun & Hs & Hin).
    + cbn [snd]. apply keys_snoc_sorted; [exact Hks| |exact Hdup].
      intros x Hx. apply (Hle x me (k, u) Hx); [now left|exact Hd].
    + cbn [snd]. intros x me0 d Hx Hme0 Hd0.
      apply in_app_or in Hx. destruct Hx as [Hx|[<-|[]]].
      * apply (Hle x me0 d Hx); [now right|exact Hd0].
      * rewrite Forall_forall in Hall. specialize (Hall me0 Hme0).
        apply entryLe_iff in Hall.
        destruct Hall as (da & db & Ha & Hb & Hab).
        rewrite Hd in Ha. rewrite Hd0 in Hb.
        inversion Ha; inversion Hb; subst.
        unfold leKU in Hab. cbn [fst snd] in Hab. apply keyLe_cases.
        destruct Hab as [H|[H _]]; auto.
    + exists st'. repeat split; auto. intros k0 Hk0.
      destruct (Hin k0 Hk0) as [H|(me0 & Hme0 & Hkey)].
      * cbn [snd] in H. apply in_app_or in H.
        destruct H as [H|[<-|[]]]; [now left|].
        right. exists me. split; [now left|].
        now apply decodeEntry_inv in Hd.
      * right. exists me0. split; [now right|exact Hkey].
Qed.
End Partition.

(** The spill of a buffer whose entries can be read: the writes, the
    sorted records and the partition keys. *)
Lemma writeMapEntriesToFile_ok (MapHeader_Marshal : list bytes -> bytes)
    (PartitionBufSize : Z) (cbuf : list bytes) :
  Forall wfEntry cbuf ->
  exists sorted keys,
    SortSlice less cbuf = Ok sorted
    /\ partitionKeys PartitionBufSize sorted = Ok keys
    /\ writeMapEntriesToFile MapHeader_Marshal PartitionBufSize cbuf
       = Ok (PutUint32 (uint32 (len (MapHeader_Marshal keys)))
             :: MapHeader_Marshal keys
             :: flat_map (fun s => [PutUvarint (len s); s]) sorted)
    /\ Permutation cbuf sorted
    /\ StronglySorted entryLe sorted
    /\ StronglySorted keyLt keys
    /\ (forall k, In k keys ->
          exists me, In me sorted /\ MapEntry_Key me = Ok k).
Proof.
  intros Hwf.
  destruct (SortSlice_ok cbuf Hwf) as (sorted & Hsort & Hperm & Hss & Hwfs).
  destruct (partitionLoop_ok PartitionBufSize sorted (0, []) Hwfs Hss)
    as ([bs keys] & Hrun & Hks & Hin).
  { constructor. }
  { intros x me d []. }
  exists sorted, keys.
  assert (Hpk : partitionKeys PartitionBufSize sorted = Ok keys).
  { unfold partitionKeys. now rewrite Hrun. }
  split; [exact Hsort|]. split; [exact Hpk|].
  split.
  { unfold writeMapEntriesToFile. rewrite Hsort. cbn [rbind].
    now rewrite Hpk. }
  split; [exact Hperm|]. split; [exact Hss|]. split; [exact Hks|].
  intros k Hk. destruct (Hin k Hk) as [[]|H]. exact H.
Qed.


(** *** The partition loop against the spec's description *)





(** *** The claims about the mapper *)

(** C3 (amended).  For an entry shorter than 2^32 bytes, marshalling into
    a destination of [mapEntrySize] bytes and reading back gives: [Uid]
    the posting's own uid when a posting is given and the uid argument
    only when it is nil; [Key] the key bytes; [Plist] the marshalled
    posting bytes; and [mapEntrySize] is the number of bytes written,
    [8 + 4 + 4 + len(key)] plus the posting size. *)
Theorem marshal_roundtrip (Posting_Marshal : Posting -> bytes)
    (dst : bytes) (uid : Z) (key : bytes) (p : option Posting) :
  0 <= storedUid uid p < 2 ^ 64 ->
  len dst = mapEntrySize Posting_Marshal key p ->
  mapEntrySize Posting_Marshal key p < 2 ^ 32 ->
  exists me,
    marshalMapEntry Posting_Marshal dst uid key p = Ok me
    /\ MapEntry_Uid me = Ok (match p with Some q => Uid q | None => uid end)
    /\ MapEntry_Key me = Ok key
    /\ MapEntry_Plist me
       = Ok (match p with Some q => Posting_Marshal q | None => [] end)
    /\ len me = mapEntrySize Posting_Marshal key p
    /\ mapEntrySize Posting_Marshal key p
       = 8 + 4 + 4 + len key + Posting_Size Posting_Marshal p.
Proof.
  intros Huid Hlen Hsmall.
  exists (entryOf (storedUid uid p) key (storedPlist Posting_Marshal p)).
  pose proof (len_nonneg key).
  pose proof (len_nonneg (storedPlist Posting_Marshal p)).
  assert (Hsz : mapEntrySize Posting_Marshal key p
                = 16 + len key + len (storedPlist Posting_Marshal p)).
  { unfold mapEntrySize. rewrite Posting_Size_eq. lia. }
  split; [now apply marshalMapEntry_ok|].
  split.
  { rewrite entry_Uid. rewrite uint64_small by exact Huid. reflexivity. }
  split; [apply entry_Key; lia|].
  split; [apply (entry_Plist _ key (storedPlist Posting_Marshal p)); lia|].
  split; [rewrite len_entryOf; lia|reflexivity].
Qed.

Lemma marshal_roundtrip_witness :
  exists me,
    marshalMapEntry valueBytes (make 19) 7 [Byte.x6b; Byte.x31]
      (Some (mkPosting 9 [Byte.x76] Posting_VALUE)) = Ok me
    /\ MapEntry_Uid me = Ok 9
    /\ MapEntry_Key me = Ok [Byte.x6b; Byte.x31]
    /\ MapEntry_Plist me = Ok [Byte.x76]
    /\ len me = 19
    /\ 19 = 8 + 4 + 4 + 2 + 1.
Proof.
  apply (marshal_roundtrip valueBytes (make 19) 7 [Byte.x6b; Byte.x31]
           (Some (mkPosting 9 [Byte.x76] Posting_VALUE)));
    vm_compute; try reflexivity; split; congruence.
Defined.

(** The uid argument 7 is not what [Uid] reads back when a posting with
    uid 9 is given. *)
Lemma marshal_uid_argument_overridden :
  exists me,
    marshalMapEntry valueBytes (make 19) 7 [Byte.x6b; Byte.x31]
      (Some (mkPosting 9 [Byte.x76] Posting_VALUE)) = Ok me
    /\ MapEntry_Uid me = Ok 9
    /\ MapEntry_Uid me <> Ok 7.
Proof.
  eexists. split; [vm_compute; reflexivity|].
  split; [vm_compute; reflexivity|vm_compute; congruence].
Qed.


(** C7 (amended).  The predicate of the forward edge is always the type
    segment, a dot and the edge's predicate, with the namespace attached.
    The type segment is the text between [_:] and the first dot for a
    blank-node subject and the empty string for any other subject, so an
    edge whose subject is not a blank node gets its predicate prefixed
    with a bare dot. *)
Theorem forwardEdge_predicate
    (optNamespace : Z) (uid : string -> Z -> Z)
    (NamespaceAttr : Z -> string -> string) (ToHexString : Z -> string)
    (nq de : Edge) :
  forwardEdge optNamespace uid NamespaceAttr ToHexString nq = Ok de ->
  Predicate de
  = NamespaceAttr (Namespace de)
      (typOf (Subject nq) ++ "." ++ Predicate nq)%string
  /\ (forall ty rest,
        Subject nq = ("_:" ++ ty ++ "." ++ rest)%string ->
        hasDot ty = false ->
        Predicate de
        = NamespaceAttr (Namespace de) (ty ++ "." ++ Predicate nq)%string)
  /\ (strings_HasPrefix (Subject nq) "_:" = false ->
      Predicate de
      = NamespaceAttr (Namespace de) ("." ++ Predicate nq)%string).
Proof.
  intros H. apply forwardEdge_inv in H. destruct H as (Hp & _ & _).
  unfold typedPredicate in Hp. split; [exact Hp|]. split.
  - intros ty rest Hs Hty. rewrite Hp, Hs, typOf_blank by exact Hty.
    reflexivity.
  - intros Hs. rewrite Hp, typOf_not_blank by exact Hs. reflexivity.
Qed.

Lemma forwardEdge_predicate_witness :
  Predicate (mkEdge "0x1" "0.Person.knows" "0x2" None 0)
  = ("0." ++ typOf "_:Person.alice" ++ "." ++ "knows")%string.
Proof.
  apply (forwardEdge_predicate MaxUint64
           (fun xid _ => if String.eqb xid "_:Person.alice" then 1 else 2)
           (fun _ a => ("0." ++ a)%string)
           (fun u => if u =? 1 then "0x1"%string else "0x2"%string)
           (mkEdge "_:Person.alice" "knows" "_:Person.bob" None 0)
           (mkEdge "0x1" "0.Person.knows" "0x2" None 0)).
  reflexivity.
Defined.

(** A subject that is not a blank node: the predicate handed on is
    [.knows], not [knows]. *)
Lemma nonblank_subject_predicate_prefixed :
  forwardEdge MaxUint64 (fun _ _ => 1) (fun _ a => a) (fun _ => "0x1"%string)
    (mkEdge "0x1" "knows" "0x1" None 0)
  = Ok (mkEdge "0x1" ".knows" "0x1" None 0)
  /\ typedPredicate (mkEdge "0x1" "knows" "0x1" None 0) = ".knows"%string
  /\ typedPredicate (mkEdge "0x1" "knows" "0x1" None 0) <> "knows"%string.
Proof. repeat split. discriminate. Qed.


(** *** The forward posting *)

(** C8.  For an edge with an object value the forward posting's uid is
    the fingerprint of the value when the predicate's schema is a list and
    [MaxUint64] otherwise; for an edge with an object identifier the
    posting is a [REF] to the object UID and carries no value. *)
Theorem createPostings_uid
    (Fingerprint64 : bytes -> Z) (getSchema : string -> option SchemaUpdate)
    (nq : Edge) (sch : SchemaUpdate) :
  getSchema (Predicate nq) = Some sch ->
  (forall v, ObjectValue nq = Some v ->
     createPostings Fingerprint64 getSchema nq
     = Ok (mkPosting (if List sch then Fingerprint64 v else MaxUint64)
                     v Posting_VALUE))
  /\ (forall oid, ObjectValue nq = None ->
        x.FromHex (ObjectId nq) = Ok oid ->
        createPostings Fingerprint64 getSchema nq
        = Ok (mkPosting oid [] Posting_REF)).
Proof.
  intros Hsch. unfold createPostings, NewPosting. split.
  - intros v Hv. rewrite Hv. cbn. rewrite Hsch. now destruct (List sch).
  - intros oid Hv Hoid. rewrite Hv, Hoid. cbn. now rewrite Hsch.
Qed.

Lemma createPostings_uid_witness :
  createPostings (fun _ => 42) (fun _ => Some (mkSchemaUpdate false false))
    (mkEdge "0x1" "0.Article.title" "" (Some [Byte.x48; Byte.x69]) 0)
  = Ok (mkPosting MaxUint64 [Byte.x48; Byte.x69] Posting_VALUE)
  /\ createPostings (fun _ => 42) (fun _ => Some (mkSchemaUpdate false true))
       (mkEdge "0x1" "0.Article.tags" "" (Some [Byte.x48; Byte.x69]) 0)
     = Ok (mkPosting 42 [Byte.x48; Byte.x69] Posting_VALUE)
  /\ createPostings (fun _ => 42) (fun _ => Some (mkSchemaUpdate false false))
       (mkEdge "0x1" "0.Person.knows" "0x2a" None 0)
     = Ok (mkPosting 42 [] Posting_REF).
Proof.
  split; [|split].
  - apply (createPostings_uid (fun _ => 42)
             (fun _ => Some (mkSchemaUpdate false false))
             (mkEdge "0x1" "0.Article.title" "" (Some [Byte.x48; Byte.x69]) 0)
             (mkSchemaUpdate false false) eq_refl). reflexivity.
  - apply (createPostings_uid (fun _ => 42)
             (fun _ => Some (mkSchemaUpdate false true))
             (mkEdge "0x1" "0.Article.tags" "" (Some [Byte.x48; Byte.x69]) 0)
             (mkSchemaUpdate false true) eq_refl). reflexivity.
  - apply (createPostings_uid (fun _ => 42)
             (fun _ => Some (mkSchemaUpdate false false))
             (mkEdge "0x1" "0.Person.knows" "0x2a" None 0)
             (mkSchemaUpdate false false) eq_refl); reflexivity.
Defined.

(** C4.  The comparator answers true exactly when the left key is
    lexicographically smaller, or the keys are equal and the left uid is
    smaller; the spill sorts the buffer with it before anything is
    written, so the records of the emitted file are the buffer's records
    in ascending [(key, uid)] order. *)
Theorem map_file_sorted (MapHeader_Marshal : list bytes -> bytes)
    (PartitionBufSize : Z) (cbuf : list bytes) :
  forallb wfEntryb cbuf = true ->
  (exists ws sorted,
     writeMapEntriesToFile MapHeader_Marshal PartitionBufSize cbuf = Ok ws
     /\ SortSlice less cbuf = Ok sorted
     /\ skipn 2 ws = flat_map (fun s => [PutUvarint (len s); s]) sorted
     /\ fileRecords ws = sorted
     /\ Permutation cbuf sorted
     /\ StronglySorted entryLe sorted)
  /\ (forall lhs rhs kl ul kr ur,
        MapEntry_Key lhs = Ok kl -> MapEntry_Uid lhs = Ok ul ->
        MapEntry_Key rhs = Ok kr -> MapEntry_Uid rhs = Ok ur ->
        exists b, less lhs rhs = Ok b
                  /\ (b = true <-> lexLt kl kr \/ (kl = kr /\ ul < ur))).
Proof.
  intros Hwf. apply wfEntryb_Forall in Hwf. split.
  - destruct (writeMapEntriesToFile_ok MapHeader_Marshal PartitionBufSize
                cbuf Hwf)
      as (sorted & keys & Hsort & _ & Hw & Hperm & Hss & _).
    eexists. exists sorted. split; [exact Hw|].
    split; [exact Hsort|]. split; [reflexivity|].
    split; [apply fileRecords_writes|]. split; assumption.
  - intros lhs rhs kl ul kr ur Kl Ul Kr Ur.
    exists (ltKUb (kl, ul) (kr, ur)). split.
    + apply less_decoded; apply decodeEntry_inv; auto.
    + rewrite ltKUb_true. cbn [fst snd]. now rewrite bytes_Compare_lt.
Qed.

Lemma map_file_sorted_witness :
  exists ws sorted,
    writeMapEntriesToFile concatKeys 20 entries3 = Ok ws
    /\ SortSlice less entries3 = Ok sorted
    /\ skipn 2 ws = flat_map (fun s => [PutUvarint (len s); s]) sorted
    /\ fileRecords ws = sorted
    /\ Permutation entries3 sorted
    /\ StronglySorted entryLe sorted.
Proof.
  apply (map_file_sorted concatKeys 20 entries3). reflexivity.
Defined.



(** Computed: three entries, spilled with a partition size of 20 bytes. *)
Example spill_entries3 :
  rbind (SortSlice less entries3) (fun sorted =>
  rbind (partitionKeys 20 sorted) (fun keys => Ok (sorted, keys)))
  = Ok ([entryOf 1 [Byte.x6b; Byte.x31] []; entryOf 3 [Byte.x6b; Byte.x31] [];
         entryOf 2 [Byte.x6b; Byte.x32] []],
        [[Byte.x6b; Byte.x31]; [Byte.x6b; Byte.x32]]).
Proof. vm_compute. reflexivity. Qed.

(** Computed: records the comparator does not tell apart keep their
    order of allocation. *)
Example SortSlice_keeps_allocation_order :
  SortSlice less
    [entryOf 5 [Byte.x6b] [Byte.x01]; entryOf 5 [Byte.x6b] [Byte.x02];
     entryOf 4 [Byte.x6b] [Byte.x03]]
  = Ok [entryOf 4 [Byte.x6b] [Byte.x03]; entryOf 5 [Byte.x6b] [Byte.x01];
        entryOf 5 [Byte.x6b] [Byte.x02]].
Proof. vm_compute. reflexivity. Qed.

End MapperProofs.

(** ** Properties of the count-index decision *)

Module PostingProofs.
Import pb Posting.

(** C9.  With a current schema present and the old schema possibly
    absent (read as the empty schema): the count index is left alone when
    the count directive did not change; it is deleted, and not rebuilt,
    when count was turned off; it is deleted and rebuilt when count was
    turned on. *)
Theorem count_index_decision
    (CountPrefix : string -> bytes) (ByteSplit : Init.Byte.byte)
    (Error : Type) (run : string -> Z -> result (option Error))
    (rb : IndexRebuild) (cur : SchemaUpdate) :
  CurrentSchema rb = Some cur ->
  let oldCount := match OldSchema rb with
                  | None => false
                  | Some o => Count o
                  end in
  let twin := match CountPrefix (Attr rb) with
              | [] => Panic
              | _ :: rest => Ok [CountPrefix (Attr rb); ByteSplit :: rest]
              end in
  (Count cur = oldCount ->
   needsCountIndexRebuild rb = Ok indexNoop
   /\ prefixesToDropCountIndex CountPrefix ByteSplit rb = Ok []
   /\ rebuildCountIndex Error run rb = Ok None)
  /\ (Count cur = false -> oldCount = true ->
      needsCountIndexRebuild rb = Ok indexDelete
      /\ prefixesToDropCountIndex CountPrefix ByteSplit rb = twin
      /\ rebuildCountIndex Error run rb = Ok None)
  /\ (Count cur = true -> oldCount = false ->
      needsCountIndexRebuild rb = Ok indexRebuild
      /\ prefixesToDropCountIndex CountPrefix ByteSplit rb = twin
      /\ rebuildCountIndex Error run rb = run (Attr rb) (StartTs rb)).
Proof.
  intros Hcur oldCount twin.
  assert (Hneeds : needsCountIndexRebuild rb
                   = Ok (if Bool.eqb (Count cur) oldCount then indexNoop
                         else if negb (Count cur) then indexDelete
                         else indexRebuild)).
  { unfold needsCountIndexRebuild, oldCount. rewrite Hcur.
    destruct (OldSchema rb) as [o|]; cbn;
      destruct (Count cur); try destruct (Count o); reflexivity. }
  unfold prefixesToDropCountIndex, rebuildCountIndex. rewrite Hneeds.
  split; [|split].
  - intros ->. rewrite Bool.eqb_reflx. cbn. auto.
  - intros -> ->. cbn. auto.
  - intros -> ->. cbn. auto.
Qed.

Lemma count_index_decision_witness :
  needsCountIndexRebuild
    (mkIndexRebuild "0.Person.friends" 10 None (Some (mkSchemaUpdate true false)))
  = Ok indexRebuild
  /\ needsCountIndexRebuild
       (mkIndexRebuild "0.Person.friends" 10
          (Some (mkSchemaUpdate true false)) (Some (mkSchemaUpdate false false)))
     = Ok indexDelete
  /\ needsCountIndexRebuild
       (mkIndexRebuild "0.Person.friends" 10
          (Some (mkSchemaUpdate true true)) (Some (mkSchemaUpdate true false)))
     = Ok indexNoop.
Proof.
  pose (cp := fun _ : string => [Byte.x00; Byte.x01]).
  pose (run := fun (_ : string) (_ : Z) => @Ok (option unit) None).
  split; [|split].
  - apply (count_index_decision cp Byte.x04 unit run
             (mkIndexRebuild "0.Person.friends" 10 None
                (Some (mkSchemaUpdate true false)))
             (mkSchemaUpdate true false) eq_refl); reflexivity.
  - apply (count_index_decision cp Byte.x04 unit run
             (mkIndexRebuild "0.Person.friends" 10
                (Some (mkSchemaUpdate true false))
                (Some (mkSchemaUpdate false false)))
             (mkSchemaUpdate false false) eq_refl); reflexivity.
  - apply (count_index_decision cp Byte.x04 unit run
             (mkIndexRebuild "0.Person.friends" 10
                (Some (mkSchemaUpdate true true))
                (Some (mkSchemaUpdate true false)))
             (mkSchemaUpdate true false) eq_refl); reflexivity.
Defined.

End PostingProofs.

(** ** Further properties of the SSTable builder *)

Module TableExtra.
Import Table TableProofs.

(** *** [keyDiff] *)

Lemma commonPrefix_le newKey base :
  (commonPrefix newKey base <= List.length newKey)%nat
  /\ (commonPrefix newKey base <= List.length base)%nat.
Proof.
  revert base. induction newKey as [|x k IH]; intros [|y base]; cbn; try lia.
  destruct (Z.eqb _ _); cbn; [|lia]. destruct (IH base). lia.
Qed.

Lemma commonPrefix_firstn newKey base :
  firstn (commonPrefix newKey base) newKey
  = firstn (commonPrefix newKey base) base.
Proof.
  revert base. induction newKey as [|x k IH]; intros [|y base]; cbn;
    try reflexivity.
  destruct (Z.eqb_spec (byte.unsigned x) (byte.unsigned y)) as [E|E];
    [|reflexivity].
  apply byte.unsigned_inj in E. subst y. cbn. now rewrite IH.
Qed.

Lemma commonPrefix_maximal newKey base :
  let n := commonPrefix newKey base in
  n = List.length newKey \/ n = List.length base
  \/ exists x y, nth_error newKey n = Some x /\ nth_error base n = Some y
                 /\ x <> y.
Proof.
  revert base. induction newKey as [|x k IH]; intros [|y base]; cbn; auto.
  destruct (Z.eqb_spec (byte.unsigned x) (byte.unsigned y)) as [E|E].
  - destruct (IH base) as [H|[H|(a & c & H1 & H2 & H3)]]; cbn in *.
    + left. lia.
    + right. left. lia.
    + right. right. exists a, c. auto.
  - right. right. exists x, y. cbn. repeat split. congruence.
Qed.

(** X1.  [keyDiff] drops exactly the longest common prefix of the key and
    the base key. *)
Theorem keyDiff_longest_common_prefix (b : TableBuilder) (newKey : bytes) :
  exists n : nat,
    keyDiff b newKey = skipn n newKey
    /\ firstn n newKey = firstn n (baseKey b)
    /\ (n <= List.length newKey)%nat /\ (n <= List.length (baseKey b))%nat
    /\ (n = List.length newKey \/ n = List.length (baseKey b)
        \/ exists x y, nth_error newKey n = Some x
                       /\ nth_error (baseKey b) n = Some y /\ x <> y).
Proof.
  exists (commonPrefix newKey (baseKey b)).
  split; [reflexivity|]. split; [apply commonPrefix_firstn|].
  split; [apply commonPrefix_le|]. split; [apply commonPrefix_le|].
  apply commonPrefix_maximal.
Qed.

Lemma slice_splice_mid p (d1 d2 d3 s : bytes) :
  0 <= p -> p + len d1 + len d2 + len d3 <= len s ->
  slice (p + len d1) (p + len d1 + len d2) (splice p (d1 ++ d2 ++ d3) s)
  = Ok d2.
Proof.
  intros Hp Hfit. pose proof (len_nonneg d1). pose proof (len_nonneg d2).
  pose proof (len_nonneg d3). unfold splice.
  rewrite <- !app_assoc.
  rewrite (app_assoc (firstn _ _) d1).
  apply slice_app_mid; rewrite len_app, len_firstn; lia.
Qed.

(** *** What a successful [Add] leaves in the builder *)

Lemma baseKey_added R b key value :
  baseKey (added R b key value)
  = if len (baseKey (afterRestart R b)) =? 0 then key
    else baseKey (afterRestart R b).
Proof. reflexivity. Qed.

(** X2.  The stored prefix length and key suffix rebuild the key from the
    block's base key. *)
Theorem Add_key_reconstructs T R key value b b' :
  Add T R key value b = Ok (None, b') ->
  let dk := diffKeyOf (afterRestart R b) key in
  let plen := len key - len dk in
  0 <= plen <= len (baseKey b')
  /\ firstn (Z.to_nat plen) (baseKey b') ++ dk = key
  /\ slice (pos b + 8) (pos b + 8 + len dk) (buf b') = Ok dk.
Proof.
  intros H dk plen. apply Add_inv in H.
  destruct H as [(_ & He & _)|(_ & _ & -> & Hpos & Hfit)]; [discriminate|].
  fold dk in Hfit. pose proof (len_nonneg value).
  pose proof (len_nonneg dk) as Hdk0.
  assert (Hslice : slice (pos b + 8) (pos b + 8 + len dk)
                     (buf (added R b key value)) = Ok dk).
  { unfold added. cbn [buf]. fold dk.
    pose proof (len_Encode (headerOf R b key value)) as Lh.
    rewrite <- Lh at 1 2.
    apply slice_splice_mid; [lia|]. rewrite Lh. lia. }
  rewrite baseKey_added. unfold plen, dk, diffKeyOf.
  destruct (len (baseKey (afterRestart R b)) =? 0) eqn:Hk.
  - unfold dk, diffKeyOf in Hslice. rewrite Hk in Hslice.
    rewrite Z.sub_diag. cbn [Z.to_nat firstn app].
    pose proof (len_nonneg key). repeat split; try lia. exact Hslice.
  - unfold dk, diffKeyOf in Hslice. rewrite Hk in Hslice.
    set (base := baseKey (afterRestart R b)) in *.
    unfold keyDiff in *. fold base in Hslice |- *.
    pose proof (commonPrefix_le key base) as [L1 L2].
    assert (Hp : len key - len (skipn (commonPrefix key base) key)
                 = Z.of_nat (commonPrefix key base)).
    { unfold len. rewrite length_skipn. lia. }
    rewrite Hp, Nat2Z.id. repeat split; try (unfold len; lia).
    + rewrite <- commonPrefix_firstn. apply firstn_skipn.
    + exact Hslice.
Qed.


Lemma firstn_splice p (d s : bytes) :
  0 <= p -> p + len d <= len s ->
  firstn (Z.to_nat p) (splice p d s) = firstn (Z.to_nat p) s.
Proof.
  intros Hp Hfit. pose proof (len_nonneg d). unfold splice.
  rewrite firstn_app.
  replace (Z.to_nat p - List.length (firstn (Z.to_nat p) s))%nat with 0%nat
    by (rewrite length_firstn; unfold len in *; lia).
  cbn [firstn]. rewrite app_nil_r, firstn_firstn. f_equal. lia.
Qed.

Lemma skipn_splice p (d s : bytes) :
  0 <= p -> p + len d <= len s ->
  skipn (Z.to_nat (p + len d)) (splice p d s) = skipn (Z.to_nat (p + len d)) s.
Proof.
  intros Hp Hfit. pose proof (len_nonneg d). unfold splice.
  rewrite app_assoc, skipn_app.
  assert (L : List.length (firstn (Z.to_nat p) s ++ d) = Z.to_nat (p + len d)).
  { rewrite length_app, length_firstn. unfold len in *. lia. }
  rewrite <- L at 1. rewrite skipn_all. cbn [app].
  rewrite L, Nat.sub_diag. reflexivity.
Qed.

Lemma buf_added_frame R b key value :
  let dk := diffKeyOf (afterRestart R b) key in
  0 <= pos b ->
  pos b + 8 + len dk + len value <= len (buf b) ->
  len (buf (added R b key value)) = len (buf b)
  /\ firstn (Z.to_nat (pos b)) (buf (added R b key value))
     = firstn (Z.to_nat (pos b)) (buf b)
  /\ slice (pos b) (pos b + 8 + len dk + len value) (buf (added R b key value))
     = Ok (Encode (headerOf R b key value) ++ dk ++ value)
  /\ skipn (Z.to_nat (pos b + 8 + len dk + len value))
           (buf (added R b key value))
     = skipn (Z.to_nat (pos b + 8 + len dk + len value)) (buf b).
Proof.
  intros dk Hpos Hfit. pose proof (len_nonneg value).
  pose proof (len_nonneg dk) as Hdk0.
  pose proof (len_Encode (headerOf R b key value)) as Lh.
  set (D := Encode (headerOf R b key value) ++ dk ++ value).
  assert (LD : len D = 8 + len dk + len value).
  { unfold D. rewrite !len_app, Lh. lia. }
  unfold added. cbn [buf]. fold dk. fold D.
  split; [apply len_splice; lia|].
  split; [apply firstn_splice; lia|]. split.
  - replace (pos b + 8 + len dk + len value) with (pos b + len D) by lia.
    apply slice_splice; lia.
  - replace (pos b + 8 + len dk + len value) with (pos b + len D) by lia.
    apply skipn_splice; lia.
Qed.

(** X3.  A successful [Add] writes header, key suffix and value at [pos]
    and touches nothing else of the buffer. *)
Theorem Add_appends_record T R key value b b' :
  Add T R key value b = Ok (None, b') ->
  let dk := diffKeyOf (afterRestart R b) key in
  pos b' = pos b + 8 + len dk + len value
  /\ len (buf b') = len (buf b)
  /\ firstn (Z.to_nat (pos b)) (buf b') = firstn (Z.to_nat (pos b)) (buf b)
  /\ slice (pos b) (pos b') (buf b')
     = Ok (Encode (headerOf R b key value) ++ dk ++ value)
  /\ skipn (Z.to_nat (pos b')) (buf b') = skipn (Z.to_nat (pos b')) (buf b).
Proof.
  intros H dk. apply Add_inv in H.
  destruct H as [(_ & He & _)|(_ & _ & -> & Hpos & Hfit)]; [discriminate|].
  rewrite pos_added. split; [reflexivity|].
  apply buf_added_frame; assumption.
Qed.

Lemma Decode_app hdr rest :
  len hdr = 8 -> Decode (hdr ++ rest) = Decode hdr.
Proof.
  intros L. unfold Decode, slice, len in *. rewrite !length_app.
  pose proof (Nat2Z.is_nonneg (List.length rest)).
  replace (0 <=? 0) with true by reflexivity.
  replace (0 <=? 2) with true by reflexivity.
  replace (2 <=? 4) with true by reflexivity.
  replace (4 <=? 6) with true by reflexivity.
  replace (6 <=? 8) with true by reflexivity.
  replace (0 <=? 4) with true by reflexivity.
  replace (0 <=? 6) with true by reflexivity.
  cbn [andb].
  repeat match goal with
  | |- context [?a <=? ?b] =>
      destruct (Z.leb_spec a b); [|lia]
  end.
  cbn [rbind].
  rewrite !skipn_app, !firstn_app, !length_skipn.
  replace (List.length hdr) with 8%nat by lia.
  cbn [Z.to_nat Z.sub Z.add Z.opp Z.pos_sub Pos.to_nat Pos.iter_op Pos.pred_double
       Nat.add Nat.sub firstn app].
  change (Z.to_nat (2 - 0)) with 2%nat. change (Z.to_nat (4 - 2)) with 2%nat.
  change (Z.to_nat (6 - 4)) with 2%nat. change (Z.to_nat (8 - 6)) with 2%nat.
  change (Z.to_nat 0) with 0%nat. change (Z.to_nat 2) with 2%nat.
  change (Z.to_nat 4) with 4%nat. change (Z.to_nat 6) with 6%nat.
  cbn [Nat.sub firstn]. rewrite !app_nil_r. reflexivity.
Qed.

(** X4.  Decoding reads the first eight bytes only and inverts [Encode] on
    fields that fit in sixteen bits. *)
Theorem Decode_Encode_roundtrip (h : header) (rest : bytes) :
  0 <= plen h < 2 ^ 16 -> 0 <= klen h < 2 ^ 16 ->
  0 <= vlen h < 2 ^ 16 -> 0 <= prev h < 2 ^ 16 ->
  Decode (Encode h ++ rest) = Ok h.
Proof.
  intros H1 H2 H3 H4. rewrite Decode_app by apply len_Encode.
  rewrite Decode_Encode. unfold uint16.
  rewrite !Z.mod_small by lia. now destruct h.
Qed.


Lemma header_at_added R b key value :
  0 <= pos b ->
  pos b + 8 + len (diffKeyOf (afterRestart R b) key) + len value
    <= len (buf b) ->
  slice (pos b) (pos b + 8) (buf (added R b key value))
  = Ok (Encode (headerOf R b key value)).
Proof.
  intros Hp Hfit. unfold added. cbn [buf].
  pose proof (len_Encode (headerOf R b key value)) as Lh.
  pose proof (len_nonneg value).
  pose proof (len_nonneg (diffKeyOf (afterRestart R b) key)).
  rewrite <- Lh at 1. apply slice_splice_prefix; [lia|].
  rewrite len_app, Lh. lia.
Qed.

(** X5.  The header of a record points back at the start of the record
    added just before it, and the two records are adjacent. *)
Theorem Add_prev_chain T R k1 v1 k2 v2 b b1 b2 :
  Add T R k1 v1 b = Ok (None, b1) ->
  Add T R k2 v2 b1 = Ok (None, b2) ->
  exists h,
    rbind (slice (pos b1) (pos b1 + 8) (buf b2)) Decode = Ok h
    /\ prev h = uint16 (pos b)
    /\ pos b + 8 <= pos b1
    /\ slice (pos b) (pos b1) (buf b2) = slice (pos b) (pos b1) (buf b1).
Proof.
  intros H1 H2.
  apply Add_inv in H1.
  destruct H1 as [(_ & He & _)|(_ & _ & E1 & Hpos & Hfit)]; [discriminate|].
  apply Add_inv in H2.
  destruct H2 as [(_ & He & _)|(_ & _ & E2 & Hpos2 & Hfit2)]; [discriminate|].
  assert (P1 : pos b1 = pos b + 8 + len (diffKeyOf (afterRestart R b) k1)
                        + len v1) by (rewrite E1; apply pos_added).
  destruct (buf_added_frame R b1 k2 v2 Hpos2 Hfit2) as (L2 & F2 & _).
  rewrite <- E2 in L2, F2.
  pose proof (len_nonneg v1). pose proof (len_nonneg v2).
  pose proof (len_nonneg (diffKeyOf (afterRestart R b) k1)).
  pose proof (len_nonneg (diffKeyOf (afterRestart R b1) k2)).
  exists (mkHeader (uint16 (plen (headerOf R b1 k2 v2)))
                   (uint16 (klen (headerOf R b1 k2 v2)))
                   (uint16 (vlen (headerOf R b1 k2 v2)))
                   (uint16 (prev (headerOf R b1 k2 v2)))).
  split; [|split; [|split]].
  - rewrite E2, header_at_added by assumption. cbn [rbind].
    apply Decode_Encode.
  - cbn [prev headerOf]. rewrite E1. reflexivity.
  - lia.
  - unfold slice. rewrite L2.
    destruct ((0 <=? pos b) && (pos b <=? pos b1) && (pos b1 <=? len (buf b1)));
      [|reflexivity].
    apply f_equal.
    rewrite <- (firstn_skipn (Z.to_nat (pos b1)) (buf b2)).
    rewrite <- (firstn_skipn (Z.to_nat (pos b1)) (buf b1)).
    rewrite F2.
    rewrite !skipn_app, !firstn_app.
    assert (Lf : List.length (firstn (Z.to_nat (pos b1)) (buf b1))
                 = Z.to_nat (pos b1)).
    { rewrite length_firstn. unfold len in *. lia. }
    rewrite !length_skipn, Lf.
    replace (Z.to_nat (pos b1 - pos b) - (Z.to_nat (pos b1) - Z.to_nat (pos b)))%nat
      with 0%nat by lia.
    cbn [firstn]. reflexivity.
Qed.

(** X6.  [Reset] does not clear [prevOffset]: the first record of the next
    table carries the offset of the last record written before. *)
Theorem Reset_keeps_prevOffset T R key value b0 b' :
  (Reset T ;;; Add T R key value) b0 = Ok (None, b') ->
  exists h,
    rbind (slice 0 8 (buf b')) Decode = Ok h
    /\ prev h = uint16 (prevOffset b0)
    /\ plen h = 0 /\ klen h = uint16 (len key)
    /\ baseKey b' = key.
Proof.
  unfold bind. rewrite Reset_eq. intros H.
  apply Add_inv in H.
  destruct H as [(_ & He & _)|(_ & _ & E & Hpos & Hfit)]; [discriminate|].
  assert (Hc : forall k, diffKeyOf (afterRestart R (reset T b0)) k = k).
  { intros k. unfold diffKeyOf, afterRestart, reset.
    destruct (_ >=? _); reflexivity. }
  assert (Hb : baseKey (afterRestart R (reset T b0)) = []).
  { unfold afterRestart, reset. destruct (_ >=? _); reflexivity. }
  exists (mkHeader (uint16 (plen (headerOf R (reset T b0) key value)))
                   (uint16 (klen (headerOf R (reset T b0) key value)))
                   (uint16 (vlen (headerOf R (reset T b0) key value)))
                   (uint16 (prev (headerOf R (reset T b0) key value)))).
  split; [|split; [|split; [|split]]].
  - rewrite E.
    pose proof (header_at_added R (reset T b0) key value Hpos Hfit) as Hh.
    change (pos (reset T b0)) with 0 in Hh. change (0 + 8) with 8 in Hh.
    rewrite Hh. cbn [rbind].
    apply Decode_Encode.
  - reflexivity.
  - cbn [plen headerOf]. rewrite Hc, Z.sub_diag. reflexivity.
  - cbn [klen headerOf]. now rewrite Hc.
  - rewrite E, baseKey_added, Hb. reflexivity.
Qed.

(** *** [Finish] *)

Lemma diffKeyOf_nil b : diffKeyOf b [] = [].
Proof.
  unfold diffKeyOf, keyDiff. destruct (_ =? _); [reflexivity|].
  now rewrite skipn_nil.
Qed.

Lemma Add_terminator T R b :
  0 <= pos b -> T <= len (buf b) ->
  (pos b + 14 + 4 * len (restarts b) > T
   /\ Add T R [] [] b = Ok (Some ErrExceedsTableSize, b))
  \/ (pos b + 14 + 4 * len (restarts b) <= T
      /\ Add T R [] [] b = Ok (None, added R b [] [])).
Proof.
  intros Hp Hb. pose proof (len_nonneg (restarts b)).
  destruct (Z.le_gt_cases (pos b + 14 + 4 * len (restarts b)) T) as [Hle|Hgt].
  - right. split; [assumption|].
    apply Add_ok; unfold Table.length;
      change (len (@nil Init.Byte.byte)) with 0; lia.
  - left. split; [lia|]. apply Add_full. unfold Table.length.
    change (len (@nil Init.Byte.byte)) with 0. lia.
Qed.

(** X7.  [Finish] panics exactly when fewer than 8 bytes are left for the
    index, or when the terminating record fits but the index after it
    does not. *)
Theorem Finish_panics_iff T R b :
  0 <= pos b -> len (buf b) = T ->
  let slack := T - pos b - 4 * len (restarts b) in
  Finish T R b = Panic
  <-> slack < 8
      \/ (14 <= slack < 16 + (if counter b >=? R then 4 else 0)).
Proof.
  intros Hp Hb slack. pose proof (len_nonneg (restarts b)) as Hr.
  destruct (Add_terminator T R b Hp ltac:(lia)) as [[Hfull HA]|[Hfit HA]].
  - destruct (Z.le_gt_cases (pos b + 4 * len (restarts b) + 8) T) as [Hle|Hgt].
    + rewrite (Finish_ok _ _ _ _ _ HA) by assumption.
      split; [discriminate|]. unfold slack. lia.
    + rewrite (Finish_panics _ _ _ _ _ HA) by lia.
      split; [|reflexivity]. unfold slack. lia.
  - set (b1 := added R b [] []) in *.
    assert (P1 : pos b1 = pos b + 8).
    { unfold b1. rewrite pos_added, diffKeyOf_nil, !len_nil. lia. }
    assert (R1 : len (restarts b1)
                 = len (restarts b) + (if counter b >=? R then 1 else 0)).
    { unfold b1. rewrite restarts_added. destruct (counter b >=? R).
      - rewrite len_app. unfold len at 2. cbn [List.length]. lia.
      - lia. }
    assert (L1 : len (buf b1) = T).
    { unfold b1. rewrite len_buf_added; rewrite ?len_nil; lia. }
    destruct (Z.le_gt_cases (pos b1 + 4 * len (restarts b1) + 8) T) as [Hle|Hgt].
    + rewrite (Finish_ok _ _ _ _ _ HA) by (assumption || lia).
      split; [discriminate|]. unfold slack.
      destruct (counter b >=? R); lia.
    + rewrite (Finish_panics _ _ _ _ _ HA) by lia.
      split; [|reflexivity]. unfold slack.
      destruct (counter b >=? R); lia.
Qed.


Lemma firstn_splice_le n p (d s : bytes) :
  0 <= n <= p -> p + len d <= len s ->
  firstn (Z.to_nat n) (splice p d s) = firstn (Z.to_nat n) s.
Proof.
  intros Hn Hfit. pose proof (len_nonneg d).
  replace (Z.to_nat n) with (Nat.min (Z.to_nat n) (Z.to_nat p)) by lia.
  rewrite <- !firstn_firstn. f_equal. apply firstn_splice; lia.
Qed.

(** X8.  Whenever [Finish] returns, the records written before it are
    intact and the buffer ends with the restart offsets, the end offset
    of the records and the number of offsets. *)
Theorem Finish_layout T R b out b' :
  0 <= pos b -> len (buf b) = T ->
  Finish T R b = Ok (out, b') ->
  exists rs endp,
    restarts b' = rs ++ [uint32 endp]
    /\ (rs = restarts b \/ rs = restarts b ++ [uint32 (pos b)])
    /\ (endp = pos b \/ endp = pos b + 8)
    /\ endp + 4 * (len rs + 1) + 4 <= T
    /\ len out = T /\ buf b' = out /\ pos b' = T
    /\ firstn (Z.to_nat (pos b)) out = firstn (Z.to_nat (pos b)) (buf b)
    /\ slice (T - 4 - 4 * (len rs + 1)) (T - 4) out
       = Ok (List.concat (map PutUint32 (rs ++ [uint32 endp])))
    /\ slice (T - 4) T out = Ok (PutUint32 (uint32 (len rs + 1))).
Proof.
  intros Hp Hb HF. pose proof (len_nonneg (restarts b)) as Hr.
  assert (HA : exists e b1,
             Add T R [] [] b = Ok (e, b1)
             /\ (restarts b1 = restarts b
                 \/ restarts b1 = restarts b ++ [uint32 (pos b)])
             /\ (pos b1 = pos b \/ pos b1 = pos b + 8)
             /\ len (buf b1) = T
             /\ firstn (Z.to_nat (pos b)) (buf b1)
                = firstn (Z.to_nat (pos b)) (buf b)).
  { destruct (Add_terminator T R b Hp ltac:(lia)) as [[_ HA]|[Hfit HA]].
    - exists (Some ErrExceedsTableSize), b. auto.
    - exists None, (added R b [] []).
      assert (P : pos (added R b [] []) = pos b + 8).
      { rewrite pos_added, diffKeyOf_nil.
        change (len (@nil Init.Byte.byte)) with 0. lia. }
      destruct (buf_added_frame R b [] []) as (L & F & _);
        [assumption
        |rewrite diffKeyOf_nil; change (len (@nil Init.Byte.byte)) with 0; lia|].
      split; [assumption|]. split.
      { rewrite restarts_added. destruct (_ >=? _); auto. }
      split; [right; lia|]. split; [lia|assumption]. }
  destruct HA as (e & b1 & HA & Hrs & Hpos & Hlen & Hfirst).
  assert (Hp1 : 0 <= pos b1) by lia.
  pose proof (len_nonneg (restarts b1)) as Hr1.
  destruct (Z.le_gt_cases (pos b1 + 4 * len (restarts b1) + 8) T) as [Hle|Hgt];
    [|rewrite (Finish_panics _ _ _ _ _ HA) in HF by lia; discriminate].
  rewrite (Finish_ok _ _ _ _ _ HA) in HF by assumption.
  injection HF as <- <-.
  destruct (finished_table T b1 Hp1 Hlen Hle) as (Lout & _ & Scount).
  pose proof (len_indexOf b1) as Lidx.
  exists (restarts b1), (pos b1).
  split; [reflexivity|]. split; [assumption|]. split; [assumption|].
  split; [lia|]. split; [assumption|]. split; [reflexivity|].
  split; [reflexivity|]. split; [|split; [|assumption]].
  - rewrite <- Hfirst. apply firstn_splice_le; lia.
  - rewrite Lidx. unfold indexOf. cbv zeta.
    set (offs := List.concat (map PutUint32 (restarts b1 ++ [uint32 (pos b1)]))).
    assert (Lo : len offs = 4 * (len (restarts b1) + 1)).
    { unfold offs. rewrite len_concat_PutUint32, len_app.
      unfold len at 2. cbn [List.length]. lia. }
    replace (T - 4 - 4 * (len (restarts b1) + 1))
      with (T - (4 * len (restarts b1) + 8)) by lia.
    replace (T - 4) with (T - (4 * len (restarts b1) + 8) + len offs) by lia.
    apply slice_splice_prefix; [lia|]. rewrite Lo.
    unfold PutUint32. rewrite len_be_put. lia.
Qed.

Lemma Finish_layout_witness :
  let b := mkBuilder 1 (make 64) 10 [Byte.x6b] [] 0 in
  let b' := finished 64 (added 100 b [] []) in
  exists rs endp,
    restarts b' = rs ++ [uint32 endp]
    /\ len (buf b') = 64
    /\ slice (64 - 4) 64 (buf b') = Ok (PutUint32 (uint32 (len rs + 1))).
Proof.
  intros b b'.
  destruct (Finish_layout 64 100 b (buf b') b')
    as (rs & endp & W1 & _ & _ & _ & W2 & _ & _ & _ & _ & W3);
    [cbn; lia|reflexivity|vm_compute; reflexivity|].
  exists rs, endp. split; [exact W1|]. split; [exact W2|exact W3].
Defined.

(** *** No panic while adding *)

Lemma Add_returns T R key value b :
  0 <= pos b -> pos b + 4 * len (restarts b) <= T -> T <= len (buf b) ->
  exists e b',
    Add T R key value b = Ok (e, b')
    /\ 0 <= pos b' /\ pos b' + 4 * len (restarts b') <= T
    /\ len (buf b') = len (buf b).
Proof.
  intros Hp Hinv Hb. pose proof (len_nonneg (restarts b)) as Hr.
  pose proof (len_nonneg key). pose proof (len_nonneg value).
  destruct (Z.le_gt_cases (len key + len value + Table.length b) T) as [Hle|Hgt].
  - exists None, (added R b key value). unfold Table.length in Hle.
    split; [apply Add_ok; unfold Table.length; lia|].
    pose proof (pos_added_bounds R b key value).
    split; [lia|]. split.
    + rewrite restarts_added. destruct (_ >=? _); [|lia].
      rewrite len_app. unfold len at 2. cbn [List.length]. lia.
    + apply len_buf_added; lia.
  - exists (Some ErrExceedsTableSize), b.
    split; [apply Add_full; lia|]. lia.
Qed.

Lemma AddAll_returns T R kvs : forall b,
  0 <= pos b -> pos b + 4 * len (restarts b) <= T -> T <= len (buf b) ->
  exists e b',
    AddAll T R kvs b = Ok (e, b')
    /\ 0 <= pos b' /\ pos b' + 4 * len (restarts b') <= T
    /\ len (buf b') = len (buf b).
Proof.
  induction kvs as [|[k v] rest IH]; intros b Hp Hinv Hb.
  - exists None, b. split; [reflexivity|]. lia.
  - destruct (Add_returns T R k v b Hp Hinv Hb)
      as (e & b1 & HA & Hp1 & Hinv1 & Hb1).
    cbn [AddAll]. unfold bind. rewrite HA.
    destruct e as [err|].
    + exists (Some err), b1. split; [reflexivity|]. lia.
    + destruct (IH b1) as (e' & b' & H' & ? & ? & ?); [lia..|].
      exists e', b'. split; [assumption|]. lia.
Qed.

(** X9.  After [Reset], no sequence of [Add] calls panics, and the
    records and the restart vector written so far always fit in the
    table: [Reset] establishes these bounds and every [Add], whether it
    stores the record or refuses it, returns and keeps them. *)
Theorem Add_never_panics T R kvs b0 :
  0 <= T ->
  (exists e b',
     (Reset T ;;; AddAll T R kvs) b0 = Ok (e, b')
     /\ 0 <= pos b' /\ pos b' + 4 * len (restarts b') <= T
     /\ T <= len (buf b'))
  /\ (forall b key value,
        0 <= pos b -> pos b + 4 * len (restarts b) <= T -> T <= len (buf b) ->
        exists e b',
          Add T R key value b = Ok (e, b')
          /\ 0 <= pos b' /\ pos b' + 4 * len (restarts b') <= T
          /\ T <= len (buf b')).
Proof.
  intros HT. split.
  - unfold bind. rewrite Reset_eq.
    assert (Hb : T <= len (buf (reset T b0))).
    { unfold reset. cbn [buf]. destruct (Z.ltb_spec (len (buf b0)) T).
      - rewrite len_make; lia.
      - lia. }
    destruct (AddAll_returns T R kvs (reset T b0)) as (e & b' & H & ? & ? & L);
      [cbn; lia|cbn; lia|assumption|].
    exists e, b'. split; [assumption|]. lia.
  - intros b key value Hp Hinv Hb.
    destruct (Add_returns T R key value b Hp Hinv Hb)
      as (e & b' & H & ? & ? & L).
    exists e, b'. split; [assumption|]. lia.
Qed.

Lemma Add_never_panics_witness :
  exists e b',
    (Reset 64 ;;; AddAll 64 2 [([Byte.x6b], [Byte.x76]); ([Byte.x6c], [])])
      zeroBuilder = Ok (e, b')
    /\ 0 <= pos b' /\ pos b' + 4 * len (restarts b') <= 64
    /\ 64 <= len (buf b').
Proof.
  apply (Add_never_panics 64 2 [([Byte.x6b], [Byte.x76]); ([Byte.x6c], [])]
           zeroBuilder). lia.
Defined.

(** *** Blocks *)

Lemma AddAll_count T R kvs : forall b b',
  0 < R -> 0 <= counter b <= R ->
  AddAll T R kvs b = Ok (None, b') ->
  counter b' + R * len (restarts b')
  = counter b + R * len (restarts b) + len kvs
  /\ 0 <= counter b' <= R
  /\ (kvs <> [] -> 1 <= counter b').
Proof.
  induction kvs as [|[k v] rest IH]; intros b b' HR Hc H.
  - cbn [AddAll] in H. unfold ret in H.
    assert (b' = b) by congruence. subst b'.
    change (len (@nil (bytes * bytes))) with 0.
    split; [lia|]. split; [lia|congruence].
  - cbn [AddAll] in H. unfold bind in H.
    destruct (Add T R k v b) as [[e b1]|] eqn:HA; [|discriminate].
    destruct e as [err|]; [unfold ret in H; discriminate|].
    apply Add_inv in HA.
    destruct HA as [(_ & He & _)|(_ & _ & -> & _ & _)]; [discriminate|].
    destruct (count_added R b k v HR Hc) as [C1 C2].
    destruct (IH (added R b k v) b' HR ltac:(lia) H) as (I1 & I2 & I3).
    rewrite len_cons. split; [lia|]. split; [lia|]. intros _.
    destruct rest as [|kv rest'].
    + cbn [AddAll] in H. unfold ret in H.
      assert (b' = added R b k v) by congruence. subst b'. lia.
    + apply I3. discriminate.
Qed.

(** X10.  After [Reset], the builder starts a new block exactly every
    [restartInterval] records: once n >= 1 records have been added, the
    restart vector has (n - 1) / restartInterval offsets and the current
    block holds ((n - 1) mod restartInterval) + 1 records. *)
Theorem restart_every_interval T R kvs b0 b' :
  0 < R -> kvs <> [] ->
  (Reset T ;;; AddAll T R kvs) b0 = Ok (None, b') ->
  len (restarts b') = (len kvs - 1) / R
  /\ counter b' = (len kvs - 1) mod R + 1.
Proof.
  intros HR Hne H. unfold bind in H. rewrite Reset_eq in H.
  destruct (AddAll_count T R kvs (reset T b0) b' HR ltac:(cbn; lia) H)
    as (C & Hc & H1).
  specialize (H1 Hne). cbn [counter restarts reset] in C.
  change (len (@nil Z)) with 0 in C.
  assert (E : len kvs - 1 = R * len (restarts b') + (counter b' - 1)) by lia.
  split.
  - apply (Z.div_unique _ _ _ (counter b' - 1)); [lia|exact E].
  - rewrite <- (Z.mod_unique _ _ (len (restarts b')) (counter b' - 1));
      [lia|lia|exact E].
Qed.

Lemma restart_every_interval_witness :
  exists b',
    (Reset 256 ;;; AddAll 256 2
       [([Byte.x61], []); ([Byte.x62], []); ([Byte.x63], []);
        ([Byte.x64], []); ([Byte.x65], [])]) zeroBuilder = Ok (None, b')
    /\ len (restarts b') = (5 - 1) / 2
    /\ counter b' = (5 - 1) mod 2 + 1.
Proof.
  eexists. split; [vm_compute; reflexivity|].
  apply (restart_every_interval 256 2
           [([Byte.x61], []); ([Byte.x62], []); ([Byte.x63], []);
            ([Byte.x64], []); ([Byte.x65], [])] zeroBuilder);
    [lia|discriminate|vm_compute; reflexivity].
Defined.

(** *** Restart points *)

Lemma slice_splice_below lo hi p (d s : bytes) :
  0 <= lo <= hi -> hi <= p -> p + len d <= len s ->
  slice lo hi (splice p d s) = slice lo hi s.
Proof.
  intros Hlo Hhi Hfit. pose proof (len_nonneg d).
  unfold slice. rewrite len_splice by lia.
  destruct ((0 <=? lo) && (lo <=? hi) && (hi <=? len s)); [|reflexivity].
  apply f_equal.
  replace (Z.to_nat (hi - lo)) with (Z.to_nat hi - Z.to_nat lo)%nat by lia.
  rewrite <- !skipn_firstn_comm. f_equal.
  apply firstn_splice_le; lia.
Qed.

Lemma restarts_fullKey_added R b key value :
  0 <= pos b < 2 ^ 32 ->
  pos b + 8 + len (diffKeyOf (afterRestart R b) key) + len value
    <= len (buf b) ->
  Forall (fun o => 0 <= o /\ o + 8 <= pos b /\ fullKeyAt (buf b) o)
         (restarts b) ->
  Forall (fun o => 0 <= o /\ o + 8 <= pos (added R b key value)
                   /\ fullKeyAt (buf (added R b key value)) o)
         (restarts (added R b key value)).
Proof.
  intros Hpos Hfit HJ.
  pose proof (len_nonneg value) as Hv.
  pose proof (len_nonneg (diffKeyOf (afterRestart R b) key)) as Hdk.
  pose proof (len_Encode (headerOf R b key value)) as Lh.
  assert (Hold : Forall (fun o => 0 <= o /\ o + 8 <= pos (added R b key value)
                   /\ fullKeyAt (buf (added R b key value)) o) (restarts b)).
  { eapply Forall_impl; [|exact HJ]. cbv beta.
    intros o (H0 & H8 & h & Hh & Hp). rewrite pos_added.
    split; [lia|]. split; [lia|]. exists h. split; [|exact Hp].
    unfold added. cbn [buf]. rewrite slice_splice_below; [exact Hh|lia|lia|].
    rewrite !len_app, Lh. lia. }
  rewrite restarts_added.
  destruct (counter b >=? R) eqn:Ec; [|exact Hold].
  apply Forall_app. split; [exact Hold|]. constructor; [|constructor].
  assert (Eu : uint32 (pos b) = pos b).
  { unfold uint32. apply Z.mod_small. lia. }
  rewrite Eu, pos_added. split; [lia|]. split; [lia|].
  exists (mkHeader (uint16 (plen (headerOf R b key value)))
                   (uint16 (klen (headerOf R b key value)))
                   (uint16 (vlen (headerOf R b key value)))
                   (uint16 (prev (headerOf R b key value)))).
  split.
  - rewrite header_at_added by (assumption || lia). cbn [rbind].
    apply Decode_Encode.
  - cbn [plen headerOf]. unfold afterRestart. rewrite Ec.
    unfold diffKeyOf. cbn [baseKey set_baseKey].
    change (len (@nil Init.Byte.byte) =? 0) with true. cbv iota.
    rewrite Z.sub_diag. reflexivity.
Qed.

Lemma AddAll_restarts_fullKey T R kvs : forall b e b',
  T < 2 ^ 32 ->
  0 <= pos b -> pos b + 4 * len (restarts b) <= T -> T <= len (buf b) ->
  Forall (fun o => 0 <= o /\ o + 8 <= pos b /\ fullKeyAt (buf b) o)
         (restarts b) ->
  AddAll T R kvs b = Ok (e, b') ->
  Forall (fun o => 0 <= o /\ o + 8 <= pos b' /\ fullKeyAt (buf b') o)
         (restarts b').
Proof.
  induction kvs as [|[k v] rest IH]; intros b e b' HT Hp Hinv Hb HJ H.
  - cbn [AddAll] in H. unfold ret in H.
    assert (b' = b) by congruence. now subst b'.
  - cbn [AddAll] in H. unfold bind in H.
    pose proof (len_nonneg (restarts b)) as Hr.
    destruct (Add_returns T R k v b Hp Hinv Hb)
      as (e1 & b1 & HA & Hp1 & Hinv1 & Hb1).
    rewrite HA in H.
    pose proof (Add_inv _ _ _ _ _ _ _ HA) as Hcase.
    destruct Hcase as [(_ & -> & ->)|(_ & -> & -> & _ & Hfit)].
    + unfold ret in H. assert (b' = b) by congruence. now subst b'.
    + apply (IH (added R b k v) e b'); try assumption; try lia.
      apply restarts_fullKey_added; [lia|assumption|assumption].
Qed.

(** X11.  After [Reset], every offset in the restart vector is the start
    of a record whose header has prefix length 0, so the record stores
    its key in full and a block can be read from its restart point
    alone. *)
Theorem restart_points_hold_full_keys T R kvs b0 e b' :
  0 <= T < 2 ^ 32 ->
  (Reset T ;;; AddAll T R kvs) b0 = Ok (e, b') ->
  Forall (fun o => exists h,
            rbind (slice o (o + 8) (buf b')) Decode = Ok h /\ plen h = 0)
         (restarts b').
Proof.
  intros HT H. unfold bind in H. rewrite Reset_eq in H.
  assert (Hb : T <= len (buf (reset T b0))).
  { unfold reset. cbn [buf]. destruct (Z.ltb_spec (len (buf b0)) T).
    - rewrite len_make; lia.
    - lia. }
  assert (HJ : Forall (fun o => 0 <= o /\ o + 8 <= pos b'
                                /\ fullKeyAt (buf b') o) (restarts b')).
  { apply (AddAll_restarts_fullKey T R kvs (reset T b0) e b');
      [lia|cbn; lia|cbn; lia|assumption|constructor|assumption]. }
  eapply Forall_impl; [|exact HJ]. cbv beta.
  intros o (_ & _ & Hf). exact Hf.
Qed.

Lemma restart_points_hold_full_keys_witness :
  exists b',
    (Reset 256 ;;; AddAll 256 2
       [([Byte.x61; Byte.x61], []); ([Byte.x61; Byte.x62], []);
        ([Byte.x61; Byte.x63], []); ([Byte.x61; Byte.x64], [])])
      zeroBuilder = Ok (None, b')
    /\ restarts b' = [19]
    /\ Forall (fun o => exists h,
                 rbind (slice o (o + 8) (buf b')) Decode = Ok h /\ plen h = 0)
              (restarts b').
Proof.
  eexists. split; [vm_compute; reflexivity|].
  split; [vm_compute; reflexivity|].
  apply (restart_points_hold_full_keys 256 2
           [([Byte.x61; Byte.x61], []); ([Byte.x61; Byte.x62], []);
            ([Byte.x61; Byte.x63], []); ([Byte.x61; Byte.x64], [])]
           zeroBuilder None); [lia|vm_compute; reflexivity].
Defined.

(** *** Computed instances *)

Lemma Add_key_reconstructs_witness :
  exists b',
    Add 64 100 [Byte.x6b; Byte.x62] [Byte.x77]
        (mkBuilder 1 (make 64) 11 [Byte.x6b; Byte.x61] [] 0) = Ok (None, b')
    /\ firstn 1 (baseKey b') ++ [Byte.x62] = [Byte.x6b; Byte.x62]
    /\ slice 19 20 (buf b') = Ok [Byte.x62].
Proof.
  eexists. split; [vm_compute; reflexivity|].
  pose proof (Add_key_reconstructs 64 100 [Byte.x6b; Byte.x62] [Byte.x77]
                (mkBuilder 1 (make 64) 11 [Byte.x6b; Byte.x61] [] 0) _
                ltac:(vm_compute; reflexivity)) as W.
  vm_compute in W. vm_compute. tauto.
Defined.

Lemma Add_appends_record_witness :
  exists b',
    Add 64 100 [Byte.x6b] [Byte.x76] (mkBuilder 0 (make 64) 0 [] [] 0)
    = Ok (None, b')
    /\ pos b' = 10
    /\ slice 0 10 (buf b')
       = Ok (Encode (mkHeader 0 1 1 0) ++ [Byte.x6b; Byte.x76])
    /\ skipn 10 (buf b') = skipn 10 (make 64).
Proof.
  eexists. split; [vm_compute; reflexivity|].
  pose proof (Add_appends_record 64 100 [Byte.x6b] [Byte.x76]
                (mkBuilder 0 (make 64) 0 [] [] 0) _
                ltac:(vm_compute; reflexivity)) as W.
  vm_compute in W. vm_compute. tauto.
Defined.

Lemma Decode_Encode_roundtrip_witness :
  Decode (Encode (mkHeader 3 2 65535 0) ++ [Byte.x6b])
  = Ok (mkHeader 3 2 65535 0).
Proof.
  apply (Decode_Encode_roundtrip (mkHeader 3 2 65535 0) [Byte.x6b]);
    cbn; lia.
Defined.

Lemma Add_prev_chain_witness :
  exists b1 b2 h,
    Add 64 100 [Byte.x6c] [Byte.x77]
        (mkBuilder 1 (make 64) 10 [Byte.x6b] [] 0) = Ok (None, b1)
    /\ Add 64 100 [Byte.x6d] [Byte.x78] b1 = Ok (None, b2)
    /\ rbind (slice 20 28 (buf b2)) Decode = Ok h
    /\ prev h = 10.
Proof.
  do 2 eexists.
  pose proof (Add_prev_chain 64 100 [Byte.x6c] [Byte.x77]
                [Byte.x6d] [Byte.x78]
                (mkBuilder 1 (make 64) 10 [Byte.x6b] [] 0) _ _
                ltac:(vm_compute; reflexivity)
                ltac:(vm_compute; reflexivity)) as (h & W1 & W2 & _).
  exists h. split; [vm_compute; reflexivity|].
  split; [vm_compute; reflexivity|]. split; [exact W1|exact W2].
Defined.

Lemma Reset_keeps_prevOffset_witness :
  exists b' h,
    (Reset 64 ;;; Add 64 100 [Byte.x6b] [Byte.x76])
      (mkBuilder 3 [] 40 [] [7] 30) = Ok (None, b')
    /\ rbind (slice 0 8 (buf b')) Decode = Ok h
    /\ prev h = 30.
Proof.
  eexists.
  pose proof (Reset_keeps_prevOffset 64 100 [Byte.x6b] [Byte.x76]
                (mkBuilder 3 [] 40 [] [7] 30) _
                ltac:(vm_compute; reflexivity)) as (h & W1 & W2 & _).
  exists h. split; [vm_compute; reflexivity|]. split; [exact W1|exact W2].
Defined.

Lemma Finish_panics_iff_witness :
  Finish 64 100 (mkBuilder 1 (make 64) 49 [Byte.x6b] [] 0) = Panic
  <-> 64 - 49 - 4 * 0 < 8 \/ 14 <= 64 - 49 - 4 * 0 < 16 + 0.
Proof.
  apply (Finish_panics_iff 64 100 (mkBuilder 1 (make 64) 49 [Byte.x6b] [] 0));
    [cbn; lia|reflexivity].
Defined.

End TableExtra.

(** ** Properties of the UID text helpers of package [x] *)

Module HexProofs.
Import x.

Lemma hexDigit_digitChar d :
  0 <= d < 16 -> hexDigit (digitChar d) = Some d.
Proof.
  intros H.
  assert (d = 0 \/ d = 1 \/ d = 2 \/ d = 3 \/ d = 4 \/ d = 5 \/ d = 6
          \/ d = 7 \/ d = 8 \/ d = 9 \/ d = 10 \/ d = 11 \/ d = 12
          \/ d = 13 \/ d = 14 \/ d = 15) as Hd by lia.
  repeat (destruct Hd as [->|Hd]; [reflexivity|]). subst d. reflexivity.
Qed.

Lemma shiftr_land_16 u : 0 <= u -> Z.shiftr u 4 * 16 + Z.land u 15 = u.
Proof.
  intros H. rewrite Z.shiftr_div_pow2 by lia.
  change 15 with (Z.ones 4). rewrite Z.land_ones by lia.
  change (2 ^ 4) with 16. pose proof (Z.div_mod u 16). lia.
Qed.

Lemma parse_formatBits16 : forall fuel u a,
  0 <= u <= MaxUint64 -> u < 16 ^ Z.of_nat fuel ->
  parseHexDigits (formatBits16 fuel u a) 0 = parseHexDigits a u.
Proof.
  induction fuel as [|fuel IH]; intros u a Hu Hf.
  - cbn in Hf. assert (u = 0) by lia. subst u. reflexivity.
  - cbn [formatBits16].
    destruct (Z.geb_spec u 16) as [Hge|Hlt].
    + assert (Hs : 0 <= Z.shiftr u 4 <= MaxUint64 /\
                   Z.shiftr u 4 < 16 ^ Z.of_nat fuel).
      { rewrite Z.shiftr_div_pow2 by lia. change (2 ^ 4) with 16.
        rewrite Nat2Z.inj_succ, Z.pow_succ_r in Hf by lia.
        split; [split|].
        - apply Z.div_pos; lia.
        - apply Z.le_trans with u; [|lia].
          apply Z.div_le_upper_bound; lia.
        - apply Z.div_lt_upper_bound; lia. }
      rewrite IH by tauto. cbn [parseHexDigits].
      rewrite hexDigit_digitChar.
      2:{ change 15 with (Z.ones 4). rewrite Z.land_ones by lia.
          apply Z.mod_pos_bound. lia. }
      rewrite shiftr_land_16 by lia.
      destruct (Z.gtb_spec u MaxUint64); [lia|reflexivity].
    + cbn [parseHexDigits]. rewrite hexDigit_digitChar by lia.
      change (0 * 16 + u) with u.
      destruct (Z.gtb_spec u MaxUint64); [lia|reflexivity].
Qed.

Lemma formatBits16_nonempty : forall fuel u a,
  (0 < fuel)%nat -> formatBits16 fuel u a <> EmptyString.
Proof.
  induction fuel as [|fuel IH]; intros u a Hf; [lia|].
  cbn [formatBits16]. destruct (u >=? 16); [|discriminate].
  destruct fuel as [|fuel']; [discriminate|]. apply IH. lia.
Qed.

Lemma FromHex_0x (s : string) :
  FromHex ("0x" ++ s)
  = match ParseUint16 s with
    | Some u => Ok u
    | None => Panic
    end.
Proof.
  unfold FromHex.
  cbn [append strings_HasPrefix Ascii.eqb Bool.eqb andb orb String.length
       Nat.sub String.substring].
  assert (Hs : forall t, String.substring 0 (String.length t) t = t).
  { induction t as [|c t IH]; [reflexivity|]. cbn. now rewrite IH. }
  now rewrite Nat.sub_0_r, Hs.
Qed.

Lemma ParseUint16_FormatUint16 (u : Z) :
  0 <= u <= MaxUint64 -> ParseUint16 (FormatUint16 u) = Some u.
Proof.
  intros Hu. unfold ParseUint16.
  pose proof (formatBits16_nonempty 16 u EmptyString ltac:(lia)) as Hne.
  fold (FormatUint16 u) in Hne.
  destruct (FormatUint16 u) eqn:E; [congruence|].
  rewrite <- E. unfold FormatUint16.
  rewrite parse_formatBits16; [reflexivity|assumption|].
  unfold MaxUint64 in Hu. cbn in *. lia.
Qed.

(** X12.  A UID printed by [ToHexString] is read back by [FromHex]. *)
Theorem FromHex_ToHexString (u : Z) :
  0 <= u <= MaxUint64 -> FromHex (ToHexString u) = Ok u.
Proof.
  intros Hu. unfold ToHexString.
  now rewrite FromHex_0x, ParseUint16_FormatUint16.
Qed.

Lemma FromHex_ToHexString_witness :
  FromHex (ToHexString 48879) = Ok 48879.
Proof. apply (FromHex_ToHexString 48879). vm_compute. split; congruence. Defined.


Lemma hexDigit_range c d : hexDigit c = Some d -> 0 <= d < 16.
Proof.
  unfold hexDigit. set (n := Z.of_nat (nat_of_ascii c)).
  destruct ((48 <=? n) && (n <=? 57)) eqn:E1.
  { intros H. injection H as <-. apply andb_true_iff in E1. lia. }
  destruct ((97 <=? n) && (n <=? 102)) eqn:E2.
  { intros H. injection H as <-. apply andb_true_iff in E2. lia. }
  destruct ((65 <=? n) && (n <=? 70)) eqn:E3; [|discriminate].
  intros H. injection H as <-. apply andb_true_iff in E3. lia.
Qed.

Lemma hexValue_nonneg : forall s v, hexValue s = Some v -> 0 <= v.
Proof.
  induction s as [|c s IH]; intros v H; cbn [hexValue] in H.
  - injection H as <-. lia.
  - destruct (hexDigit c) as [d|] eqn:Ed; [|discriminate].
    destruct (hexValue s) as [v'|] eqn:Ev; [|discriminate].
    injection H as <-. apply hexDigit_range in Ed.
    specialize (IH v' eq_refl).
    assert (0 < 16 ^ Z.of_nat (String.length s)) by (apply Z.pow_pos_nonneg; lia).
    nia.
Qed.

Lemma parseHexDigits_value : forall s acc,
  0 <= acc <= MaxUint64 ->
  parseHexDigits s acc
  = match hexValue s with
    | Some v =>
        if acc * 16 ^ Z.of_nat (String.length s) + v >? MaxUint64
        then None
        else Some (acc * 16 ^ Z.of_nat (String.length s) + v)
    | None => None
    end.
Proof.
  induction s as [|c s IH]; intros acc Ha.
  - cbn [parseHexDigits hexValue String.length].
    change (16 ^ Z.of_nat 0) with 1.
    replace (acc * 1 + 0) with acc by lia.
    destruct (Z.gtb_spec acc MaxUint64); [lia|reflexivity].
  - cbn [parseHexDigits hexValue String.length].
    destruct (hexDigit c) as [d|] eqn:Ed; [|reflexivity].
    apply hexDigit_range in Ed.
    set (n := Z.of_nat (String.length s)).
    assert (Hn : 0 <= n) by (unfold n; lia).
    assert (Hp : 0 < 16 ^ n) by (apply Z.pow_pos_nonneg; lia).
    replace (Z.of_nat (S (String.length s))) with (n + 1) by (unfold n; lia).
    rewrite Z.pow_add_r by lia. change (16 ^ 1) with 16.
    destruct (Z.gtb_spec (acc * 16 + d) MaxUint64) as [Hov|Hok].
    + destruct (hexValue s) as [v|] eqn:Ev; [|reflexivity].
      pose proof (hexValue_nonneg s v Ev).
      destruct (Z.gtb_spec (acc * (16 ^ n * 16) + (d * 16 ^ n + v))
                           MaxUint64); [reflexivity|nia].
    + rewrite IH by lia. fold n.
      destruct (hexValue s) as [v|]; [|reflexivity].
      replace ((acc * 16 + d) * 16 ^ n + v)
        with (acc * (16 ^ n * 16) + (d * 16 ^ n + v)) by ring.
      reflexivity.
Qed.

(** X13.  [FromHex] returns the number the digits denote, whatever their
    number and case, exactly when that number fits in 64 bits; a larger
    number is fatal, it is never wrapped, and so is a character that is
    not a hexadecimal digit or an empty digit string after the prefix.
    The empty string gives 0. *)
Theorem FromHex_value (s : string) :
  let body :=
    if strings_HasPrefix s "0x" || strings_HasPrefix s "0X"
    then String.substring 2 (String.length s - 2) s else s in
  FromHex s
  = match s with
    | EmptyString => Ok 0
    | _ =>
        match body with
        | EmptyString => Panic
        | _ =>
            match hexValue body with
            | Some v => if v <=? MaxUint64 then Ok v else Panic
            | None => Panic
            end
        end
    end.
Proof.
  intros body. unfold FromHex. destruct s as [|c s]; [reflexivity|].
  fold body. unfold ParseUint16.
  destruct body as [|c' s']; [reflexivity|].
  rewrite parseHexDigits_value by (unfold MaxUint64; cbn; lia).
  destruct (hexValue (String c' s')) as [v|]; [|reflexivity].
  replace (0 * 16 ^ Z.of_nat (String.length (String c' s')) + v) with v by lia.
  destruct (Z.gtb_spec v MaxUint64); destruct (Z.leb_spec v MaxUint64);
    try lia; reflexivity.
Qed.

(** Sixteen digits in mixed case give the largest [uint64]. *)
Example FromHex_max :
  FromHex "0xFFFFffffFFFFffff" = Ok 18446744073709551615.
Proof. vm_compute. reflexivity. Qed.

(** A seventeenth digit is fatal. *)
Example FromHex_overflow_panics :
  FromHex "0x10000000000000000" = Panic.
Proof. vm_compute. reflexivity. Qed.

End HexProofs.

(** ** Further properties of the mapper *)

Module MapperExtra.
Import pb Mapper MapperProofs.

(** *** The comparator *)

Lemma ltKUb_irrefl a : ltKUb a a = false.
Proof.
  unfold ltKUb. replace (bytes_Compare (fst a) (fst a)) with Eq
    by (symmetry; now apply bytes_Compare_eq).
  apply Z.ltb_irrefl.
Qed.

Lemma ltKUb_asym a b : ltKUb a b = true -> ltKUb b a = false.
Proof.
  unfold ltKUb. rewrite (bytes_Compare_antisym (fst a) (fst b)).
  destruct (bytes_Compare (fst a) (fst b)); cbn; try discriminate; auto.
  intros H. apply Z.ltb_lt in H. apply Z.ltb_ge. lia.
Qed.

Lemma ltKUb_trans a b c :
  ltKUb a b = true -> ltKUb b c = true -> ltKUb a c = true.
Proof.
  rewrite !ltKUb_true. intros [H1|[E1 L1]] [H2|[E2 L2]].
  - left. now apply bytes_Compare_trans with (fst b).
  - left. now rewrite <- E2.
  - left. now rewrite E1.
  - right. split; [congruence|lia].
Qed.

Lemma ltKUb_total a b : ltKUb a b = false -> ltKUb b a = false -> a = b.
Proof.
  intros H1 H2. apply ltKUb_false in H1, H2. unfold leKU in *.
  destruct a as [ka ua], b as [kb ub]. cbn [fst snd] in *.
  destruct H1 as [H1|[E1 L1]], H2 as [H2|[E2 L2]].
  - rewrite bytes_Compare_antisym, H2 in H1. discriminate.
  - subst. replace (bytes_Compare kb kb) with Eq in H1
      by (symmetry; now apply bytes_Compare_eq). discriminate.
  - subst. replace (bytes_Compare ka ka) with Eq in H2
      by (symmetry; now apply bytes_Compare_eq). discriminate.
  - f_equal; [congruence|lia].
Qed.

(** X14.  On entries whose key and uid can be read, [less] is a strict
    total order on the pairs (key, uid). *)
Theorem less_strict_total_order (a b c : MapEntry) da db dc :
  decodeEntry a = Some da -> decodeEntry b = Some db ->
  decodeEntry c = Some dc ->
  less a a = Ok false
  /\ (less a b = Ok true -> less b a = Ok false)
  /\ (less a b = Ok true -> less b c = Ok true -> less a c = Ok true)
  /\ (less a b = Ok false -> less b a = Ok false -> da = db).
Proof.
  intros Ha Hb Hc.
  rewrite (less_decoded a a da da), (less_decoded a b da db),
    (less_decoded b a db da), (less_decoded b c db dc),
    (less_decoded a c da dc) by assumption.
  split; [now rewrite ltKUb_irrefl|]. split; [|split].
  - intros H. injection H as H. now rewrite (ltKUb_asym _ _ H).
  - intros H1 H2. injection H1 as H1. injection H2 as H2.
    now rewrite (ltKUb_trans _ _ _ H1 H2).
  - intros H1 H2. injection H1 as H1. injection H2 as H2.
    now apply ltKUb_total.
Qed.

Lemma less_strict_total_order_witness :
  less (entryOf 1 [Byte.x6b] []) (entryOf 1 [Byte.x6b] []) = Ok false
  /\ (less (entryOf 1 [Byte.x6b] []) (entryOf 2 [Byte.x6b] []) = Ok true ->
      less (entryOf 2 [Byte.x6b] []) (entryOf 1 [Byte.x6b] []) = Ok false).
Proof.
  destruct (less_strict_total_order
              (entryOf 1 [Byte.x6b] []) (entryOf 2 [Byte.x6b] [])
              (entryOf 2 [Byte.x6c] []) ([Byte.x6b], 1) ([Byte.x6b], 2)
              ([Byte.x6c], 2) eq_refl eq_refl eq_refl) as (W1 & W2 & _).
  split; [exact W1|exact W2].
Defined.


(** *** [marshalMapEntry] on a destination of any length *)

Lemma store_spec (lo : Z) (d dst : bytes) :
  store lo d dst
  = if (0 <=? lo) && (lo + len d <=? len dst)
    then Ok (splice lo d dst) else Panic.
Proof.
  pose proof (len_nonneg d). unfold store, slice.
  replace (lo <=? lo + len d) with true by (symmetry; apply Z.leb_le; lia).
  rewrite andb_true_r.
  destruct ((0 <=? lo) && (lo + len d <=? len dst)); reflexivity.
Qed.

Section MarshalAny.
Variable Posting_Marshal : Posting -> bytes.

Lemma marshalMapEntry_short dst uid key p :
  len dst < 16 -> marshalMapEntry Posting_Marshal dst uid key p = Panic.
Proof.
  intros Hshort. unfold marshalMapEntry.
  set (A := PutUint64 _). set (B := PutUint32 (uint32 (len key))).
  set (C := PutUint32 (uint32 (Posting_Size Posting_Marshal p))).
  assert (LA : len A = 8) by apply len_be_put.
  assert (LB : len B = 4) by apply len_be_put.
  assert (LC : len C = 4) by apply len_be_put.
  rewrite (store_spec 0 A dst), LA.
  replace (0 <=? 0) with true by reflexivity. cbn [andb].
  destruct (Z.leb_spec (0 + 8) (len dst)) as [H8|H8]; [|reflexivity].
  cbn [rbind].
  rewrite (store_spec 8 B), LB, len_splice by lia.
  replace (0 <=? 8) with true by reflexivity. cbn [andb].
  destruct (Z.leb_spec (8 + 4) (len dst)) as [H12|H12]; [|reflexivity].
  cbn [rbind].
  rewrite (store_spec 12 C), LC.
  rewrite !len_splice by (rewrite ?len_splice; lia).
  destruct (Z.leb_spec (12 + 4) (len dst)) as [H16|H16]; [lia|].
  rewrite andb_false_r. reflexivity.
Qed.

Lemma marshalMapEntry_any dst uid key p :
  16 <= len dst ->
  let n := Z.min (len dst - 16) (len key) in
  marshalMapEntry Posting_Marshal dst uid key p
  = if len dst =? 16 + n + Posting_Size Posting_Marshal p
    then Ok (PutUint64 (uint64 (storedUid uid p))
             ++ PutUint32 (uint32 (len key))
             ++ PutUint32 (uint32 (Posting_Size Posting_Marshal p))
             ++ firstn (Z.to_nat n) key
             ++ storedPlist Posting_Marshal p)
    else Panic.
Proof.
  intros Hlen n. rewrite !Posting_Size_eq.
  pose proof (len_nonneg key) as Hk.
  pose proof (len_nonneg (storedPlist Posting_Marshal p)) as Hp.
  unfold marshalMapEntry. rewrite Posting_Size_eq.
  fold (storedUid uid p).
  set (A := PutUint64 (uint64 (storedUid uid p))).
  set (B := PutUint32 (uint32 (len key))).
  set (C := PutUint32 (uint32 (len (storedPlist Posting_Marshal p)))).
  assert (LA : len A = 8) by apply len_be_put.
  assert (LB : len B = 4) by apply len_be_put.
  assert (LC : len C = 4) by apply len_be_put.
  rewrite store_ok by fit. cbn [rbind].
  rewrite store_ok by fit. cbn [rbind].
  replace (splice 8 B (splice 0 A dst)) with (splice 0 (A ++ B) dst).
  2:{ rewrite <- splice_splice by fit. f_equal; try fit. }
  rewrite store_ok by fit. cbn [rbind].
  replace (splice 12 C (splice 0 (A ++ B) dst))
    with (splice 0 ((A ++ B) ++ C) dst).
  2:{ rewrite <- splice_splice by fit. f_equal; try fit. }
  set (H3 := (A ++ B) ++ C).
  assert (LH : len H3 = 16) by (unfold H3; fit).
  unfold slice_from at 1. rewrite len_splice by fit.
  replace ((0 <=? 16) && (16 <=? len dst)) with true
    by (symmetry; rewrite andb_true_iff; lia).
  cbn [rbind]. rewrite len_skipn by fit.
  rewrite len_splice by fit. fold n.
  set (K := firstn (Z.to_nat n) key).
  assert (Hn : 0 <= n <= len key) by (unfold n; lia).
  assert (Hn2 : 16 + n <= len dst) by (unfold n; lia).
  assert (LK : len K = n) by (unfold K; now apply len_firstn).
  rewrite store_ok by fit. cbn [rbind].
  replace (splice 16 K (splice 0 H3 dst)) with (splice 0 (H3 ++ K) dst).
  2:{ rewrite <- splice_splice by fit. f_equal; try fit. }
  assert (Hfin : forall P, len dst = 16 + n + len P ->
            splice 0 ((H3 ++ K) ++ P) dst = A ++ B ++ C ++ K ++ P).
  { intros P HP. rewrite splice_all by fit.
    unfold H3. now rewrite <- !app_assoc. }
  destruct (Z.gtb_spec (len (storedPlist Posting_Marshal p)) 0) as [Hpos|Hzero].
  - destruct p as [q|]; [|cbn in Hpos; lia]. cbn [storedPlist] in *.
    unfold slice_from. rewrite len_splice by fit.
    replace ((0 <=? 16 + n) && (16 + n <=? len dst)) with true
      by (symmetry; rewrite andb_true_iff; lia).
    cbn [rbind]. unfold slice at 1.
    rewrite len_skipn by fit. rewrite len_splice by fit.
    replace (0 <=? 0) with true by reflexivity.
    replace (0 <=? len (Posting_Marshal q)) with true
      by (symmetry; apply Z.leb_le; lia).
    cbn [andb].
    destruct (Z.leb_spec (len (Posting_Marshal q)) (len dst - (16 + n)))
      as [Hroom|Hroom].
    + cbn [rbind]. rewrite store_ok by fit. cbn [rbind].
      rewrite len_splice by fit. rewrite len_splice by fit.
      destruct (Z.eqb_spec (len dst) (16 + n + len (Posting_Marshal q)))
        as [E|E]; [|reflexivity].
      replace (splice (16 + n) (Posting_Marshal q) (splice 0 (H3 ++ K) dst))
        with (splice 0 ((H3 ++ K) ++ Posting_Marshal q) dst).
      2:{ rewrite <- splice_splice by fit. f_equal; try fit. }
      now rewrite Hfin.
    + cbn [rbind].
      destruct (Z.eqb_spec (len dst) (16 + n + len (Posting_Marshal q)));
        [lia|reflexivity].
  - cbn [rbind]. rewrite len_splice by fit.
    assert (Hnil : storedPlist Posting_Marshal p = []).
    { destruct (storedPlist Posting_Marshal p) as [|c l]; [reflexivity|].
      rewrite len_cons in *. pose proof (len_nonneg l). lia. }
    rewrite Hnil in *. change (len (@nil Init.Byte.byte)) with 0.
    destruct (Z.eqb_spec (len dst) (16 + n + 0)) as [E|E]; [|reflexivity].
    rewrite <- Hfin by (change (len (@nil Init.Byte.byte)) with 0; lia).
    now rewrite app_nil_r.
Qed.

(** X15.  [marshalMapEntry] returns on a destination of exactly
    [mapEntrySize] bytes, and also on a shorter one of at least 16 bytes
    when there is no posting to write, where it stores a truncated key;
    on every other destination it panics. *)
Theorem marshalMapEntry_returns dst uid key p :
  let psz := Posting_Size Posting_Marshal p in
  marshalMapEntry Posting_Marshal dst uid key p
  = if len dst =? mapEntrySize Posting_Marshal key p
    then Ok (entryOf (storedUid uid p) key (storedPlist Posting_Marshal p))
    else if (psz =? 0) && (16 <=? len dst) && (len dst <? 16 + len key)
    then Ok (PutUint64 (uint64 (storedUid uid p))
             ++ PutUint32 (uint32 (len key)) ++ PutUint32 (uint32 0)
             ++ firstn (Z.to_nat (len dst - 16)) key)
    else Panic.
Proof.
  intros psz. pose proof (len_nonneg key) as Hk.
  assert (Hp : 0 <= psz).
  { unfold psz. rewrite Posting_Size_eq. apply len_nonneg. }
  destruct (Z.eqb_spec (len dst) (mapEntrySize Posting_Marshal key p))
    as [E|E]; [now apply marshalMapEntry_ok|].
  unfold mapEntrySize in E. fold psz in E.
  destruct (Z.leb_spec 16 (len dst)) as [H16|H16].
  2:{ rewrite andb_false_r. cbn [andb]. now apply marshalMapEntry_short. }
  rewrite marshalMapEntry_any by assumption. fold psz.
  rewrite andb_true_r.
  destruct (Z.eqb_spec psz 0) as [Ez|Ez];
    destruct (Z.ltb_spec (len dst) (16 + len key)) as [Hlt|Hge]; cbn [andb].
  - rewrite Z.min_l by lia. rewrite Ez.
    replace (len dst =? 16 + (len dst - 16) + 0) with true
      by (symmetry; apply Z.eqb_eq; lia).
    assert (Hnil : storedPlist Posting_Marshal p = []).
    { unfold psz in Ez. rewrite Posting_Size_eq in Ez.
      destruct (storedPlist Posting_Marshal p) as [|c l]; [reflexivity|].
      rewrite len_cons in Ez. pose proof (len_nonneg l). lia. }
    now rewrite Hnil, app_nil_r.
  - rewrite Z.min_r by lia.
    destruct (Z.eqb_spec (len dst) (16 + len key + psz)); [lia|reflexivity].
  - rewrite Z.min_l by lia.
    destruct (Z.eqb_spec (len dst) (16 + (len dst - 16) + psz));
      [lia|reflexivity].
  - rewrite Z.min_r by lia.
    destruct (Z.eqb_spec (len dst) (16 + len key + psz)); [lia|reflexivity].
Qed.
End MarshalAny.

(** A nil posting and a 17-byte destination: the call returns with the
    first byte of a two-byte key. *)
Example marshalMapEntry_truncates_key :
  marshalMapEntry valueBytes (make 17) 7 [Byte.x6b; Byte.x31] None
  = Ok (PutUint64 7 ++ PutUint32 2 ++ PutUint32 0 ++ [Byte.x6b]).
Proof. vm_compute. reflexivity. Qed.


(** *** [addMapEntry] *)

(** X16.  [addMapEntry] never panics; the entry of a [REF] posting is the
    16-byte head and the key, with no posting bytes, and the entry of any
    other posting carries its encoding. *)
Theorem addMapEntry_payload (Posting_Marshal : Posting -> bytes)
    (key : bytes) (p : Posting) :
  let payload := match PostingType p with
                 | Posting_REF => []
                 | _ => Posting_Marshal p
                 end in
  16 + len key + len payload < 2 ^ 32 ->
  exists me,
    addMapEntry Posting_Marshal key p = Ok me
    /\ len me = 16 + len key + len payload
    /\ MapEntry_Uid me = Ok (uint64 (Uid p))
    /\ MapEntry_Key me = Ok key
    /\ MapEntry_Plist me = Ok payload.
Proof.
  intros payload Hsz.
  pose proof (len_nonneg key). pose proof (len_nonneg payload).
  exists (entryOf (Uid p) key payload).
  split; [|split; [|split; [|split]]].
  - unfold addMapEntry, payload.
    destruct (PostingType p);
      (rewrite marshalMapEntry_ok; [reflexivity|]);
      rewrite len_make; try reflexivity;
      unfold mapEntrySize, Posting_Size;
      try (pose proof (len_nonneg (Posting_Marshal p)));
      change (@Datatypes.length Init.Byte.byte) with (@List.length Init.Byte.byte);
      lia.
  - apply len_entryOf.
  - apply entry_Uid.
  - apply entry_Key. lia.
  - apply entry_Plist. lia.
Qed.

Lemma addMapEntry_payload_witness :
  exists me,
    addMapEntry valueBytes [Byte.x6b] (mkPosting 7 [Byte.x76] Posting_REF)
    = Ok me
    /\ len me = 16 + 1 + 0
    /\ MapEntry_Uid me = Ok (uint64 7)
    /\ MapEntry_Key me = Ok [Byte.x6b]
    /\ MapEntry_Plist me = Ok [].
Proof.
  apply (addMapEntry_payload valueBytes [Byte.x6b]
           (mkPosting 7 [Byte.x76] Posting_REF)).
  vm_compute. reflexivity.
Defined.

(** *** Partition keys *)

(** The bytes the first pass of the spill counts: four per record and
    the records themselves. *)
Lemma partitionStep_bound (P : Z) bufSize keys s b1 k1 :
  0 <= bufSize ->
  partitionStep P (bufSize, keys) s = Ok (b1, k1) ->
  0 <= b1 /\ len k1 * P + b1 <= len keys * P + bufSize + 4 + len s.
Proof.
  intros H0 Hs. pose proof (len_nonneg s) as Hls.
  unfold partitionStep in Hs.
  destruct (Z.ltb_spec (bufSize + (4 + len s)) P) as [Hlt|Hge].
  - assert (b1 = bufSize + (4 + len s)) by congruence.
    assert (k1 = keys) by congruence. subst. lia.
  - destruct (MapEntry_Key s) as [k|]; [|discriminate].
    cbn [rbind] in Hs.
    destruct ((len keys >? 0) && bytes_Equal k (last keys [])).
    + assert (b1 = bufSize + (4 + len s)) by congruence.
      assert (k1 = keys) by congruence. subst. lia.
    + assert (b1 = 0) by congruence.
      assert (k1 = keys ++ [k]) by congruence. subst.
      rewrite len_app. unfold len at 2. cbn [List.length]. lia.
Qed.

Lemma partitionLoop_bound (P : Z) : forall slices st st',
  0 <= fst st ->
  partitionLoop P st slices = Ok st' ->
  0 <= fst st'
  /\ len (snd st') * P + fst st'
     <= len (snd st) * P + fst st
        + fold_right (fun s acc => 4 + len s + acc) 0 slices.
Proof.
  induction slices as [|s rest IH]; intros [bufSize keys] st' H0 HL.
  - cbn [partitionLoop] in HL. assert (st' = (bufSize, keys)) by congruence.
    subst. cbn [fold_right]. lia.
  - cbn [partitionLoop] in HL.
    destruct (partitionStep P (bufSize, keys) s) as [[b1 k1]|] eqn:Hs;
      [|discriminate].
    cbn [rbind] in HL. cbn [fst snd] in H0.
    destruct (partitionStep_bound _ _ _ _ _ _ H0 Hs) as [S1 S2].
    destruct (IH (b1, k1) st' S1 HL) as [I1 I2].
    cbn [fst snd fold_right] in *. lia.
Qed.

(** X17.  Every partition key accounts for at least [PartitionBufSize]
    counted bytes, so a map file has at most (total bytes) /
    [PartitionBufSize] partition keys. *)
Theorem partition_keys_bound (PartitionBufSize : Z) (slices keys : list bytes) :
  partitionKeys PartitionBufSize slices = Ok keys ->
  len keys * PartitionBufSize
  <= fold_right (fun s acc => 4 + len s + acc) 0 slices.
Proof.
  unfold partitionKeys. intros H.
  destruct (partitionLoop PartitionBufSize (0, []) slices) as [st'|] eqn:HL;
    [|discriminate].
  cbn [rbind] in H. assert (keys = snd st') by congruence. subst keys.
  assert (H0 : 0 <= fst (0, @nil bytes)) by (cbn; lia).
  destruct (partitionLoop_bound _ _ _ _ H0 HL) as [I1 I2].
  cbn [fst snd] in I2. change (len (@nil bytes)) with 0 in I2. lia.
Qed.

Lemma partition_keys_bound_witness :
  len [[Byte.x6b; Byte.x31]; [Byte.x6b; Byte.x32]] * 20
  <= fold_right (fun s acc => 4 + len s + acc) 0
       [entryOf 1 [Byte.x6b; Byte.x31] []; entryOf 3 [Byte.x6b; Byte.x31] [];
        entryOf 2 [Byte.x6b; Byte.x32] []].
Proof.
  apply (partition_keys_bound 20). vm_compute. reflexivity.
Defined.

End MapperExtra.

(** ** Properties of the tokenizer-index and list-type decisions *)

Module IndexProofs.
Import Posting PostingTok.

(** *** Key sets and [x.Diff] *)

Lemma hasKey_In m g : x.hasKey m g = true <-> In g m.
Proof.
  unfold x.hasKey. rewrite existsb_exists. split.
  - intros (y & Hy & E). apply String.eqb_eq in E. now subst.
  - intros H. exists g. split; [assumption|apply String.eqb_refl].
Qed.

Lemma hasKey_false m g : x.hasKey m g = false <-> ~ In g m.
Proof.
  rewrite <- hasKey_In. destruct (x.hasKey m g); split; congruence.
Qed.

Lemma keySet_In : forall l m t, In t (x.keySet l m) <-> In t m \/ In t l.
Proof.
  induction l as [|a l IH]; intros m t; cbn [x.keySet].
  - cbn. tauto.
  - rewrite IH. destruct (x.hasKey m a) eqn:E.
    + apply hasKey_In in E. cbn. split; [tauto|].
      intros [H|[->|H]]; auto.
    + rewrite in_app_iff. cbn. tauto.
Qed.

Lemma keySet_NoDup : forall l m, NoDup m -> NoDup (x.keySet l m).
Proof.
  induction l as [|a l IH]; intros m Hm; cbn [x.keySet]; [assumption|].
  apply IH. destruct (x.hasKey m a) eqn:E; [assumption|].
  apply hasKey_false in E.
  apply NoDup_app; [assumption|repeat constructor; auto|].
  intros y Hy [<-|[]]. contradiction.
Qed.

Lemma filter_nil_iff {A} (f : A -> bool) l :
  filter f l = [] <-> forall y, In y l -> f y = false.
Proof.
  induction l as [|a l IH]; cbn; [tauto|].
  destruct (f a) eqn:E.
  - split; [discriminate|]. intros H. specialize (H a (or_introl eq_refl)).
    congruence.
  - rewrite IH. split.
    + intros H y [<-|Hy]; auto.
    + intros H y Hy. apply H. now right.
Qed.

Lemma len_zero_iff {A} (l : list A) : (len l =? 0) = true <-> l = [].
Proof.
  rewrite Z.eqb_eq. destruct l; [tauto|].
  rewrite len_cons. pose proof (len_nonneg l). split; [lia|discriminate].
Qed.

Lemma Diff_new dst src t :
  In t (fst (x.Diff dst src)) <-> In t dst /\ ~ In t src.
Proof.
  unfold x.Diff. cbn [fst]. rewrite filter_In, negb_true_iff, hasKey_false.
  tauto.
Qed.

Lemma Diff_deleted dst src t :
  In t (snd (x.Diff dst src)) <-> In t src /\ ~ In t dst.
Proof.
  unfold x.Diff. cbn [snd]. rewrite filter_In, negb_true_iff, hasKey_false.
  tauto.
Qed.

Lemma Diff_empty_iff dst src :
  fst (x.Diff dst src) = [] /\ snd (x.Diff dst src) = []
  <-> forall t, In t dst <-> In t src.
Proof.
  unfold x.Diff. cbn [fst snd]. rewrite !filter_nil_iff. split.
  - intros [H1 H2] t. split; intros H.
    + specialize (H1 t H). rewrite negb_false_iff in H1.
      now apply hasKey_In.
    + specialize (H2 t H). rewrite negb_false_iff in H2.
      now apply hasKey_In.
  - intros H. split; intros y Hy; rewrite negb_false_iff; apply hasKey_In;
      now apply H.
Qed.

(** *** The tokenizer-index decision *)

(** The decision in the branch that compares the tokenizers. *)
Lemma needsTok_diff rb cur :
  CurrentSchema rb = Some cur ->
  let old := match OldSchema rb with
             | None => emptySchemaUpdate
             | Some o => o
             end in
  isINDEX (Directive cur) = true -> ValueType cur = ValueType old ->
  let d := x.Diff (x.keySet (Tokenizer cur) []) (x.keySet (Tokenizer old) []) in
  needsTokIndexRebuild rb
  = if (len (fst d) =? 0) && (len (snd d) =? 0)
    then Ok (mkIndexRebuildInfo indexNoop [] [])
    else Ok (mkIndexRebuildInfo indexRebuild (snd d) (fst d)).
Proof.
  intros Hcur old Hi Hv d. unfold needsTokIndexRebuild. rewrite Hcur.
  fold old. rewrite Hi, Hv, Z.eqb_refl. cbn [negb andb].
  fold d. destruct d as [n dl]. reflexivity.
Qed.

Lemma sameTokens_iff (a b : list string) :
  (forall t, In t (x.keySet a []) <-> In t (x.keySet b []))
  <-> (forall t, In t a <-> In t b).
Proof.
  split; intros H t; specialize (H t); rewrite !keySet_In in *; cbn in *;
    tauto.
Qed.

Lemma tok_index_lemma (rb : IndexRebuild) (cur : SchemaUpdate) :
  CurrentSchema rb = Some cur -> exists info, needsTokIndexRebuild rb = Ok info.
Proof.
  intros Hcur. unfold needsTokIndexRebuild. rewrite Hcur.
  destruct (negb _ && negb _); [eexists; reflexivity|].
  destruct (negb _); [eexists; reflexivity|].
  destruct (_ && negb _); [eexists; reflexivity|].
  destruct (x.Diff _ _) as [n d].
  destruct (_ && _); eexists; reflexivity.
Qed.

(** X18.  The tokenizer index is left alone when neither schema asks for an
    index, or when the current one does and value type and tokenizer set
    are unchanged; it is deleted when the current schema no longer asks
    for an index; otherwise it is rebuilt. *)
Theorem tok_index_decision (rb : IndexRebuild) (cur : SchemaUpdate) :
  CurrentSchema rb = Some cur ->
  let old := match OldSchema rb with
             | None => emptySchemaUpdate
             | Some o => o
             end in
  let currIndex := Directive cur = SchemaUpdate_INDEX in
  let prevIndex := Directive old = SchemaUpdate_INDEX in
  let sameTokens := forall t, In t (Tokenizer cur) <-> In t (Tokenizer old) in
  exists info,
    needsTokIndexRebuild rb = Ok info
    /\ (op info = indexNoop
        <-> (~ currIndex /\ ~ prevIndex)
            \/ (currIndex /\ ValueType cur = ValueType old /\ sameTokens))
    /\ (op info = indexDelete <-> ~ currIndex /\ prevIndex)
    /\ (op info = indexRebuild
        <-> currIndex /\ (ValueType cur <> ValueType old \/ ~ sameTokens)).
Proof.
  intros Hcur old currIndex prevIndex sameTokens.
  assert (Hc : isINDEX (Directive cur) = true <-> currIndex).
  { unfold currIndex. destruct (Directive cur); cbn; split; congruence. }
  assert (Hp : isINDEX (Directive old) = true <-> prevIndex).
  { unfold prevIndex. destruct (Directive old); cbn; split; congruence. }
  destruct (isINDEX (Directive cur)) eqn:Ec.
  - assert (C : currIndex) by now apply Hc.
    destruct (Z.eqb_spec (ValueType cur) (ValueType old)) as [Ev|Ev].
    + pose proof (needsTok_diff rb cur Hcur Ec Ev) as Hn. cbv zeta in Hn.
      fold old in Hn.
      set (d := x.Diff (x.keySet (Tokenizer cur) [])
                       (x.keySet (Tokenizer old) [])) in *.
      pose proof (Diff_empty_iff (x.keySet (Tokenizer cur) [])
                    (x.keySet (Tokenizer old) [])) as He.
      fold d in He. rewrite sameTokens_iff in He. fold sameTokens in He.
      destruct ((len (fst d) =? 0) && (len (snd d) =? 0)) eqn:E.
      * apply andb_true_iff in E. rewrite !len_zero_iff in E.
        apply He in E.
        eexists. split; [exact Hn|]. cbn [op].
        split; [split; [tauto|reflexivity]|].
        split; split; try discriminate; tauto.
      * assert (~ sameTokens).
        { intros S. apply He in S. destruct S as [S1 S2].
          rewrite S1, S2 in E. discriminate. }
        eexists. split; [exact Hn|]. cbn [op].
        split; [split; [discriminate|tauto]|].
        split; split; try discriminate; try tauto.
    + eexists. split.
      { unfold needsTokIndexRebuild. rewrite Hcur. fold old. rewrite Ec.
        cbn [negb andb].
        destruct (Z.eqb_spec (ValueType cur) (ValueType old)); [contradiction|].
        reflexivity. }
      cbn [op]. split; [split; [discriminate|tauto]|].
      split; split; try discriminate; try tauto.
  - assert (C : ~ currIndex) by (intros C; apply Hc in C; discriminate).
    destruct (isINDEX (Directive old)) eqn:Eo.
    + assert (P : prevIndex) by now apply Hp.
      eexists. split.
      { unfold needsTokIndexRebuild. rewrite Hcur. fold old.
        rewrite Ec, Eo. reflexivity. }
      cbn [op]. split; [split; [discriminate|tauto]|].
      split; split; try discriminate; try tauto.
    + assert (P : ~ prevIndex) by (intros P; apply Hp in P; discriminate).
      eexists. split.
      { unfold needsTokIndexRebuild. rewrite Hcur. fold old.
        rewrite Ec, Eo. reflexivity. }
      cbn [op]. split; [split; [tauto|reflexivity]|].
      split; split; try discriminate; try tauto.
Qed.


Lemma tok_index_decision_witness :
  exists info,
    needsTokIndexRebuild
      (mkIndexRebuild "0.Person.name" 10
         (Some (mkSchemaUpdate SchemaUpdate_INDEX 9
                  ["exact"%string; "term"%string] false false))
         (Some (mkSchemaUpdate SchemaUpdate_INDEX 9
                  ["term"%string; "hash"%string] false false)))
    = Ok info
    /\ op info = indexRebuild.
Proof.
  destruct (tok_index_decision
              (mkIndexRebuild "0.Person.name" 10
                 (Some (mkSchemaUpdate SchemaUpdate_INDEX 9
                          ["exact"%string; "term"%string] false false))
                 (Some (mkSchemaUpdate SchemaUpdate_INDEX 9
                          ["term"%string; "hash"%string] false false)))
              (mkSchemaUpdate SchemaUpdate_INDEX 9
                 ["term"%string; "hash"%string] false false)
              eq_refl) as (info & W1 & _ & _ & W2).
  exists info. split; [exact W1|]. apply W2. cbn.
  split; [reflexivity|]. right. intros S.
  destruct (proj1 (S "hash"%string)) as [E|[E|[]]]; [auto|discriminate..].
Defined.

(** X19.  When the index is rebuilt because the tokenizers changed, the
    tokenizers to rebuild are those only the current schema has and the
    tokenizers to delete are those only the old schema has, each listed
    once. *)
Theorem tok_index_tokenizers (rb : IndexRebuild) (cur : SchemaUpdate)
    (info : indexRebuildInfo) :
  CurrentSchema rb = Some cur ->
  let old := match OldSchema rb with
             | None => emptySchemaUpdate
             | Some o => o
             end in
  Directive cur = SchemaUpdate_INDEX ->
  ValueType cur = ValueType old ->
  needsTokIndexRebuild rb = Ok info ->
  op info = indexRebuild ->
  (forall t, In t (tokenizersToRebuild info)
             <-> In t (Tokenizer cur) /\ ~ In t (Tokenizer old))
  /\ (forall t, In t (tokenizersToDelete info)
                <-> In t (Tokenizer old) /\ ~ In t (Tokenizer cur))
  /\ NoDup (tokenizersToRebuild info) /\ NoDup (tokenizersToDelete info).
Proof.
  intros Hcur old Hd Hv Hn Hop.
  assert (Ec : isINDEX (Directive cur) = true) by now rewrite Hd.
  pose proof (needsTok_diff rb cur Hcur Ec Hv) as Hn'. cbv zeta in Hn'.
  fold old in Hn'. rewrite Hn in Hn'.
  set (d := x.Diff (x.keySet (Tokenizer cur) [])
                   (x.keySet (Tokenizer old) [])) in *.
  destruct ((len (fst d) =? 0) && (len (snd d) =? 0)).
  - assert (info = mkIndexRebuildInfo indexNoop [] []) by congruence.
    subst info. discriminate.
  - assert (info = mkIndexRebuildInfo indexRebuild (snd d) (fst d))
      by congruence.
    subst info. cbn [tokenizersToRebuild tokenizersToDelete].
    split; [|split; [|split]].
    + intros t. unfold d. rewrite Diff_new, !keySet_In. cbn. tauto.
    + intros t. unfold d. rewrite Diff_deleted, !keySet_In. cbn. tauto.
    + unfold d, x.Diff. cbn [fst]. apply NoDup_filter, keySet_NoDup.
      constructor.
    + unfold d, x.Diff. cbn [snd]. apply NoDup_filter, keySet_NoDup.
      constructor.
Qed.

Lemma tok_index_tokenizers_witness :
  In "hash"%string
     (tokenizersToRebuild
        (mkIndexRebuildInfo indexRebuild ["exact"%string] ["hash"%string]))
  <-> In "hash"%string ["term"%string; "hash"%string; "term"%string]
      /\ ~ In "hash"%string ["exact"%string; "term"%string].
Proof.
  apply (tok_index_tokenizers
           (mkIndexRebuild "0.Person.name" 10
              (Some (mkSchemaUpdate SchemaUpdate_INDEX 9
                       ["exact"%string; "term"%string] false false))
              (Some (mkSchemaUpdate SchemaUpdate_INDEX 9
                       ["term"%string; "hash"%string; "term"%string]
                       false false)))
           (mkSchemaUpdate SchemaUpdate_INDEX 9
              ["term"%string; "hash"%string; "term"%string] false false)
           (mkIndexRebuildInfo indexRebuild ["exact"%string] ["hash"%string]));
    reflexivity.
Defined.

(** *** The schema served while indexes are rebuilt *)

(** X20.  [GetQuerySchema] panics on a request without an old schema, which
    the decisions themselves accept. *)
Theorem GetQuerySchema_nil_old_panics (rb : IndexRebuild) (cur : SchemaUpdate) :
  CurrentSchema rb = Some cur -> OldSchema rb = None ->
  GetQuerySchema rb = Panic
  /\ (exists info, needsTokIndexRebuild rb = Ok info)
  /\ (exists cop, needsCountIndexRebuild (countRebuild rb) = Ok cop).
Proof.
  intros Hcur Hold.
  destruct (tok_index_lemma rb cur Hcur) as (info & Hi).
  split; [|split].
  - unfold GetQuerySchema. rewrite Hcur, Hi, Hold. reflexivity.
  - now exists info.
  - unfold needsCountIndexRebuild, countRebuild. cbn. rewrite Hcur. cbn.
    destruct (Bool.eqb _ _); [|destruct (negb _)]; eexists; reflexivity.
Qed.


Lemma GetQuerySchema_nil_old_panics_witness :
  GetQuerySchema
    (mkIndexRebuild "0.Person.name" 10 None
       (Some (mkSchemaUpdate SchemaUpdate_INDEX 9 ["term"%string] true false)))
  = Panic.
Proof.
  apply (GetQuerySchema_nil_old_panics
           (mkIndexRebuild "0.Person.name" 10 None
              (Some (mkSchemaUpdate SchemaUpdate_INDEX 9 ["term"%string]
                       true false)))
           (mkSchemaUpdate SchemaUpdate_INDEX 9 ["term"%string] true false));
    reflexivity.
Defined.

Lemma existsb_eqb_In (t : string) (l : list string) :
  existsb (fun t2 => String.eqb t t2) l = true <-> In t l.
Proof.
  rewrite existsb_exists. split.
  - intros (y & Hy & E). apply String.eqb_eq in E. now subst.
  - intros H. exists t. split; [assumption|apply String.eqb_refl].
Qed.

Lemma filter_not_in (del l : list string) (t : string) :
  In t (filter (fun t1 => negb (existsb (fun t2 => String.eqb t1 t2) del)) l)
  <-> In t l /\ ~ In t del.
Proof.
  rewrite filter_In, negb_true_iff.
  pose proof (existsb_eqb_In t del) as H.
  destruct (existsb _ del).
  - split; intros [H1 H2]; [discriminate|exfalso; now apply H2, H].
  - split; intros [H1 H2]; (split; [assumption|]); [|reflexivity].
    intros Hin. apply H in Hin. discriminate.
Qed.

(** X21.  With both schemas present, [GetQuerySchema] returns the current
    schema with the count flag kept only if the old schema had it too,
    and with tokenizers of the old schema only: all of them when neither
    schema asks for an index, those the current schema also has when
    both fit an unchanged value type, and none otherwise. *)
Theorem GetQuerySchema_serves_common (rb : IndexRebuild)
    (old cur : SchemaUpdate) :
  OldSchema rb = Some old -> CurrentSchema rb = Some cur ->
  exists q,
    GetQuerySchema rb = Ok q
    /\ Directive q = Directive cur /\ ValueType q = ValueType cur
    /\ List q = List cur
    /\ Count q = Count cur && Count old
    /\ (forall t, In t (Tokenizer q) -> In t (Tokenizer old))
    /\ (Directive cur <> SchemaUpdate_INDEX ->
        Directive old <> SchemaUpdate_INDEX ->
        Tokenizer q = Tokenizer old)
    /\ (Directive cur <> SchemaUpdate_INDEX ->
        Directive old = SchemaUpdate_INDEX ->
        Tokenizer q = [])
    /\ (Directive cur = SchemaUpdate_INDEX ->
        ValueType cur <> ValueType old ->
        Tokenizer q = [])
    /\ (Directive cur = SchemaUpdate_INDEX ->
        ValueType cur = ValueType old ->
        forall t, In t (Tokenizer q)
                  <-> In t (Tokenizer old) /\ In t (Tokenizer cur)).
Proof.
  intros Hold Hcur.
  destruct (tok_index_lemma rb cur Hcur) as (info & Hi).
  assert (Hcnt : needsCountIndexRebuild (countRebuild rb)
                 = Ok (if Bool.eqb (Count cur) (Count old) then indexNoop
                       else if negb (Count cur) then indexDelete
                       else indexRebuild)).
  { unfold needsCountIndexRebuild, countRebuild. cbn.
    rewrite Hcur, Hold. cbn.
    destruct (Bool.eqb (Count cur) (Count old)); [reflexivity|].
    destruct (negb (Count cur)); reflexivity. }
  eexists. split.
  { unfold GetQuerySchema. rewrite Hcur, Hi. cbn [rbind].
    rewrite Hold, Hcnt. cbn [rbind]. reflexivity. }
  cbn [Directive ValueType List Count Tokenizer].
  split; [reflexivity|]. split; [reflexivity|]. split; [reflexivity|].
  split; [destruct (Count cur), (Count old); reflexivity|].
  split; [intros t Ht; now apply filter_In in Ht|].
  assert (Hall : forall l : list string,
            filter (fun t1 => negb (existsb (fun t2 => String.eqb t1 t2) l)) l
            = []).
  { intros l. apply filter_nil_iff. intros y Hy.
    apply negb_false_iff. now apply existsb_eqb_In. }
  assert (Hnone : forall l : list string,
            filter (fun t1 => negb (existsb (fun t2 => String.eqb t1 t2) [])) l
            = l).
  { intros l. induction l as [|a l IH]; [reflexivity|].
    change (a :: filter (fun t1 => negb (existsb (fun t2 => String.eqb t1 t2) [])) l
            = a :: l).
    now rewrite IH. }
  assert (Hc : forall s, isINDEX (Directive s) = true
                         <-> Directive s = SchemaUpdate_INDEX).
  { intros s. destruct (Directive s); cbn; split; congruence. }
  unfold needsTokIndexRebuild in Hi. rewrite Hcur, Hold in Hi.
  split; [|split; [|split]].
  - intros C P.
    assert (Ec : isINDEX (Directive cur) = false)
      by (destruct (isINDEX (Directive cur)) eqn:E;
          [now apply Hc in E|reflexivity]).
    assert (Eo : isINDEX (Directive old) = false)
      by (destruct (isINDEX (Directive old)) eqn:E;
          [now apply Hc in E|reflexivity]).
    rewrite Ec, Eo in Hi. cbn [negb andb] in Hi.
    assert (info = mkIndexRebuildInfo indexNoop [] []) by congruence.
    subst info. apply Hnone.
  - intros C P.
    assert (Ec : isINDEX (Directive cur) = false)
      by (destruct (isINDEX (Directive cur)) eqn:E;
          [now apply Hc in E|reflexivity]).
    apply Hc in P. rewrite Ec, P in Hi. cbn [negb andb] in Hi.
    assert (info = mkIndexRebuildInfo indexDelete (Tokenizer old) [])
      by congruence.
    subst info. apply Hall.
  - intros C V. apply Hc in C. rewrite C in Hi. cbn [negb andb] in Hi.
    destruct (Z.eqb_spec (ValueType cur) (ValueType old)); [contradiction|].
    cbn [negb] in Hi.
    assert (info = mkIndexRebuildInfo indexRebuild (Tokenizer old)
                     (Tokenizer cur)) by congruence.
    subst info. apply Hall.
  - intros C V t. apply Hc in C. rewrite C in Hi. cbn [negb andb] in Hi.
    rewrite V, Z.eqb_refl in Hi. cbn [negb] in Hi.
    set (d := x.Diff (x.keySet (Tokenizer cur) [])
                     (x.keySet (Tokenizer old) [])) in *.
    pose proof (Diff_empty_iff (x.keySet (Tokenizer cur) [])
                  (x.keySet (Tokenizer old) [])) as He.
    pose proof (Diff_deleted (x.keySet (Tokenizer cur) [])
                  (x.keySet (Tokenizer old) [])) as Hd.
    fold d in He, Hd. rewrite sameTokens_iff in He.
    destruct d as [n dl]. cbn [fst snd] in *.
    destruct ((len n =? 0) && (len dl =? 0)) eqn:E.
    + assert (info = mkIndexRebuildInfo indexNoop [] []) by congruence.
      subst info. cbn [tokenizersToDelete]. rewrite Hnone.
      apply andb_true_iff in E. rewrite !len_zero_iff in E.
      pose proof (proj1 He E t). tauto.
    + assert (info = mkIndexRebuildInfo indexRebuild dl n) by congruence.
      subst info. cbn [tokenizersToDelete]. rewrite filter_not_in.
      rewrite Hd, !keySet_In. cbn [In].
      assert (Hdec : In t (Tokenizer cur) \/ ~ In t (Tokenizer cur)).
      { destruct (in_dec string_dec t (Tokenizer cur)); auto. }
      tauto.
Qed.

Lemma GetQuerySchema_serves_common_witness :
  exists q,
    GetQuerySchema
      (mkIndexRebuild "0.Person.name" 10
         (Some (mkSchemaUpdate SchemaUpdate_INDEX 9
                  ["exact"%string; "term"%string] false false))
         (Some (mkSchemaUpdate SchemaUpdate_INDEX 9
                  ["term"%string; "hash"%string] true false)))
    = Ok q
    /\ Count q = false
    /\ (In "term"%string (Tokenizer q)
        <-> In "term"%string ["exact"%string; "term"%string]
            /\ In "term"%string ["term"%string; "hash"%string]).
Proof.
  destruct (GetQuerySchema_serves_common
              (mkIndexRebuild "0.Person.name" 10
                 (Some (mkSchemaUpdate SchemaUpdate_INDEX 9
                          ["exact"%string; "term"%string] false false))
                 (Some (mkSchemaUpdate SchemaUpdate_INDEX 9
                          ["term"%string; "hash"%string] true false)))
              _ _ eq_refl eq_refl)
    as (q & W1 & _ & _ & _ & W2 & _ & _ & _ & _ & W3).
  exists q. split; [exact W1|]. split; [exact W2|].
  apply W3; reflexivity.
Defined.

(** *** The list-type decision *)

(** X22.  The data is rewritten only when a scalar predicate became a list;
    a list that became a scalar is an error and nothing is rewritten;
    a request without an old schema, or with the list flag unchanged,
    does nothing. *)
Theorem list_type_decision (Error : Type)
    (run : string -> Z -> result (option Error))
    (rb : Posting.IndexRebuild) (cur : pb.SchemaUpdate) :
  Posting.CurrentSchema rb = Some cur ->
  let oldList := option_map pb.List (Posting.OldSchema rb) in
  (oldList = Some false -> pb.List cur = true ->
   needsListTypeRebuild rb = Ok (true, None)
   /\ rebuildListType Error run rb
      = rbind (run (Posting.Attr rb) (Posting.StartTs rb))
              (fun e => Ok (option_map inr e)))
  /\ (oldList = Some true -> pb.List cur = false ->
      needsListTypeRebuild rb = Ok (false, Some ErrListToScalar)
      /\ rebuildListType Error run rb = Ok (Some (inl ErrListToScalar)))
  /\ (oldList = None \/ oldList = Some (pb.List cur) ->
      needsListTypeRebuild rb = Ok (false, None)
      /\ rebuildListType Error run rb = Ok None).
Proof.
  intros Hcur oldList. unfold rebuildListType, needsListTypeRebuild.
  rewrite Hcur. unfold oldList.
  destruct (Posting.OldSchema rb) as [old|]; cbn [option_map].
  - split; [|split].
    + intros E ->. injection E as ->. cbn. auto.
    + intros E ->. injection E as ->. cbn. auto.
    + intros [E|E]; [discriminate|]. injection E as ->.
      destruct (pb.List cur); cbn; auto.
  - split; [discriminate|]. split; [discriminate|]. intros _. cbn. auto.
Qed.

Lemma list_type_decision_witness :
  needsListTypeRebuild
    (Posting.mkIndexRebuild "0.Person.nick" 10
       (Some (pb.mkSchemaUpdate false true))
       (Some (pb.mkSchemaUpdate false false)))
  = Ok (false, Some ErrListToScalar)
  /\ rebuildListType unit (fun _ _ => Ok None)
       (Posting.mkIndexRebuild "0.Person.nick" 10
          (Some (pb.mkSchemaUpdate false true))
          (Some (pb.mkSchemaUpdate false false)))
     = Ok (Some (inl ErrListToScalar)).
Proof.
  apply (list_type_decision unit (fun _ _ => Ok None)
           (Posting.mkIndexRebuild "0.Person.nick" 10
              (Some (pb.mkSchemaUpdate false true))
              (Some (pb.mkSchemaUpdate false false)))
           (pb.mkSchemaUpdate false false) eq_refl); reflexivity.
Defined.

(** *** Dropping and building *)

Lemma needsCount_countRebuild (rb : IndexRebuild) (cur : SchemaUpdate) :
  CurrentSchema rb = Some cur ->
  needsCountIndexRebuild (countRebuild rb)
  = Ok (let oldCount := match OldSchema rb with
                        | None => false
                        | Some o => Count o
                        end in
        if Bool.eqb (Count cur) oldCount then indexNoop
        else if negb (Count cur) then indexDelete
        else indexRebuild).
Proof.
  intros Hcur. unfold needsCountIndexRebuild, countRebuild. cbn.
  rewrite Hcur. cbn. destruct (OldSchema rb) as [o|]; cbn;
    destruct (Count cur); try destruct (Count o); reflexivity.
Qed.

Lemma Diff_same (m : list string) : x.Diff m m = ([], []).
Proof.
  assert (H : filter (fun g => negb (x.hasKey m g)) m = []).
  { apply filter_nil_iff. intros y Hy. apply negb_false_iff.
    now apply hasKey_In. }
  unfold x.Diff. now rewrite H.
Qed.

Lemma needsTok_unchanged (rb : IndexRebuild) (s : SchemaUpdate) :
  OldSchema rb = Some s -> CurrentSchema rb = Some s ->
  needsTokIndexRebuild rb = Ok (mkIndexRebuildInfo indexNoop [] []).
Proof.
  intros Hold Hcur. unfold needsTokIndexRebuild. rewrite Hcur, Hold.
  destruct (isINDEX (Directive s)); cbn [negb andb]; [|reflexivity].
  rewrite Z.eqb_refl. cbn [negb]. rewrite Diff_same. reflexivity.
Qed.

Section Idle.
Variable Error : Type.
Variable prefixesToDeleteTokensFor :
  string -> string -> bool -> list bytes + Error.
Variable CountPrefix : string -> bytes.
Variable ByteSplit : Init.Byte.byte.
Variable DropPrefix : list bytes -> option Error.
Variable runTokBuilder : string -> Z -> list string -> result (option Error).
Variable runCountBuilder : string -> Z -> result (option Error).

(** X23.  A request whose old and current schema are the same needs no
    rebuild, hands no prefix to [DropPrefix], runs no builder, and is
    served with that same schema. *)
Theorem unchanged_schema_is_idle (rb : IndexRebuild) (s : SchemaUpdate) :
  OldSchema rb = Some s -> CurrentSchema rb = Some s ->
  NeedIndexRebuild rb = Ok false
  /\ DropIndexes Error prefixesToDeleteTokensFor CountPrefix ByteSplit
       DropPrefix rb = Ok (DropPrefix [])
  /\ BuildIndexes Error runTokBuilder runCountBuilder rb = Ok None
  /\ GetQuerySchema rb = Ok s.
Proof.
  intros Hold Hcur.
  pose proof (needsTok_unchanged rb s Hold Hcur) as Ht.
  pose proof (needsCount_countRebuild rb s Hcur) as Hc.
  rewrite Hold in Hc. cbv zeta in Hc. rewrite Bool.eqb_reflx in Hc.
  split; [|split; [|split]].
  - unfold NeedIndexRebuild. rewrite Ht. cbn [rbind op indexOp_eqb].
    now rewrite Hc.
  - unfold DropIndexes, prefixesForTokIndexes. rewrite Ht.
    cbn [rbind op indexOp_eqb]. unfold prefixesToDropCountIndex.
    rewrite Hc. reflexivity.
  - unfold BuildIndexes, rebuildTokIndex. rewrite Ht.
    cbn [rbind op indexOp_eqb negb]. unfold rebuildCountIndex.
    rewrite Hc. reflexivity.
  - unfold GetQuerySchema. rewrite Hcur, Ht. cbn [rbind].
    rewrite Hold, Hc. cbn [rbind indexOp_eqb tokenizersToDelete].
    assert (Hnone : forall l : list string,
              filter (fun t1 => negb (existsb (fun t2 => String.eqb t1 t2) []))
                     l = l).
    { intros l. induction l as [|a l IH]; [reflexivity|].
      change (a :: filter (fun t1 =>
                 negb (existsb (fun t2 => String.eqb t1 t2) [])) l = a :: l).
      now rewrite IH. }
    rewrite Hnone. now destruct s.
Qed.

(** X24.  When [NeedIndexRebuild] answers no, [BuildIndexes] runs neither
    the tokenizer builder nor the count builder and returns nil. *)
Theorem BuildIndexes_idle (rb : IndexRebuild) :
  NeedIndexRebuild rb = Ok false ->
  rebuildTokIndex Error runTokBuilder rb = Ok None
  /\ rebuildCountIndex Error runCountBuilder (countRebuild rb) = Ok None
  /\ BuildIndexes Error runTokBuilder runCountBuilder rb = Ok None.
Proof.
  unfold NeedIndexRebuild. intros H.
  destruct (needsTokIndexRebuild rb) as [info|] eqn:Ht; [|discriminate].
  cbn [rbind] in H.
  destruct (indexOp_eqb (op info) indexRebuild) eqn:Eo; [discriminate|].
  destruct (needsCountIndexRebuild (countRebuild rb)) as [cop|] eqn:Hc;
    [|discriminate].
  cbn [rbind] in H.
  assert (Ec : indexOp_eqb cop indexRebuild = false) by congruence.
  assert (H1 : rebuildTokIndex Error runTokBuilder rb = Ok None).
  { unfold rebuildTokIndex. rewrite Ht. cbn [rbind]. now rewrite Eo. }
  assert (H2 : rebuildCountIndex Error runCountBuilder (countRebuild rb)
               = Ok None).
  { unfold rebuildCountIndex. rewrite Hc. cbn [rbind]. now rewrite Ec. }
  split; [exact H1|]. split; [exact H2|].
  unfold BuildIndexes. rewrite H1. cbn [rbind]. exact H2.
Qed.

End Idle.

Lemma unchanged_schema_is_idle_witness :
  DropIndexes unit (fun _ _ _ => inl [[Byte.x02]]) (fun _ => [Byte.x04])
    Byte.x01 (fun l => match l with [] => None | _ => Some tt end)
    (mkIndexRebuild "0.Person.name" 10
       (Some (mkSchemaUpdate SchemaUpdate_INDEX 9 ["term"%string] true false))
       (Some (mkSchemaUpdate SchemaUpdate_INDEX 9 ["term"%string] true false)))
  = Ok None.
Proof.
  apply (unchanged_schema_is_idle unit (fun _ _ _ => inl [[Byte.x02]])
           (fun _ => [Byte.x04]) Byte.x01
           (fun l => match l with [] => None | _ => Some tt end)
           (fun _ _ _ => Ok (Some tt)) (fun _ _ => Ok (Some tt))
           (mkIndexRebuild "0.Person.name" 10
              (Some (mkSchemaUpdate SchemaUpdate_INDEX 9 ["term"%string]
                       true false))
              (Some (mkSchemaUpdate SchemaUpdate_INDEX 9 ["term"%string]
                       true false)))
           (mkSchemaUpdate SchemaUpdate_INDEX 9 ["term"%string] true false));
    reflexivity.
Defined.

Lemma BuildIndexes_idle_witness :
  BuildIndexes unit (fun _ _ _ => Ok (Some tt)) (fun _ _ => Ok (Some tt))
    (mkIndexRebuild "0.Person.name" 10
       (Some (mkSchemaUpdate SchemaUpdate_INDEX 9 ["term"%string] true false))
       (Some (mkSchemaUpdate SchemaUpdate_NONE 9 [] false false)))
  = Ok None.
Proof.
  apply (BuildIndexes_idle unit (fun _ _ _ => Ok (Some tt))
           (fun _ _ => Ok (Some tt))
           (mkIndexRebuild "0.Person.name" 10
              (Some (mkSchemaUpdate SchemaUpdate_INDEX 9 ["term"%string]
                       true false))
              (Some (mkSchemaUpdate SchemaUpdate_NONE 9 [] false false)))).
  reflexivity.
Defined.

(** Removing a tokenizer: [NeedIndexRebuild] answers yes, yet there is
    nothing to build. *)
Example NeedIndexRebuild_without_build :
  let rb := mkIndexRebuild "0.Person.name" 10
              (Some (mkSchemaUpdate SchemaUpdate_INDEX 9
                       ["term"%string; "exact"%string] false false))
              (Some (mkSchemaUpdate SchemaUpdate_INDEX 9 ["term"%string]
                       false false)) in
  NeedIndexRebuild rb = Ok true
  /\ BuildIndexes unit (fun _ _ _ => Ok (Some tt)) (fun _ _ => Ok (Some tt))
       rb = Ok None.
Proof. split; reflexivity. Qed.

End IndexProofs.

(** ** The data entry of an edge *)

Module EdgeProofs.
Import pb Mapper MapperProofs.

Section DataEntry.
Variables (Posting_Marshal : Posting -> bytes) (Fingerprint64 : bytes -> Z)
          (getSchema : string -> option SchemaUpdate)
          (DataKey : string -> Z -> bytes)
          (optNamespace : Z) (uid : string -> Z -> Z)
          (NamespaceAttr : Z -> string -> string).

Lemma forwardEdge_subject nq de :
  forwardEdge optNamespace uid NamespaceAttr x.ToHexString nq = Ok de ->
  let ns := if optNamespace =? MaxUint64 then Namespace nq else optNamespace in
  Subject de = x.ToHexString (uid (Subject nq) ns)
  /\ uid (Subject nq) ns <> 0.
Proof.
  unfold forwardEdge. intros H. cbv zeta.
  set (ns := if optNamespace =? MaxUint64 then Namespace nq else optNamespace)
    in *.
  destruct (Z.eqb_spec (uid (Subject nq) ns) 0) as [|Hs]; [discriminate|].
  destruct (ObjectValue nq) as [v|].
  - cbn [rbind Subject Namespace Predicate ObjectId ObjectValue] in H.
    assert (E : forall a b : Edge, Ok a = Ok b -> a = b) by congruence.
    apply E in H. subst de. split; [reflexivity|assumption].
  - destruct (uid (ObjectId nq) ns =? 0); [discriminate|].
    cbn [rbind Subject Namespace Predicate ObjectId ObjectValue] in H.
    assert (E : forall a b : Edge, Ok a = Ok b -> a = b) by congruence.
    apply E in H. subst de. split; [reflexivity|assumption].
Qed.

Lemma addMapEntry_key key p me :
  addMapEntry Posting_Marshal key p = Ok me ->
  16 + len key < 2 ^ 32 ->
  MapEntry_Key me = Ok key.
Proof.
  unfold addMapEntry. intros H Hk.
  rewrite marshalMapEntry_ok in H.
  2:{ rewrite len_make; [reflexivity|].
      unfold mapEntrySize. rewrite Posting_Size_eq.
      pose proof (len_nonneg key).
      pose proof (len_nonneg (storedPlist Posting_Marshal
                    match PostingType p with
                    | Posting_REF => None
                    | Posting_VALUE => Some p
                    end)).
      lia. }
  injection H as <-. now apply entry_Key.
Qed.

(** X25.  The data entry [processNQuad] adds for an edge has the key
    [DataKey] of the namespaced, typed predicate and the subject's UID:
    the UID survives its way through [ToHexString] and [FromHex]. *)
Theorem data_entry_key (nq de : Edge) (me : MapEntry) :
  let ns := if optNamespace =? MaxUint64 then Namespace nq else optNamespace in
  let sid := uid (Subject nq) ns in
  let key := DataKey (NamespaceAttr ns (typedPredicate nq)) sid in
  0 <= sid <= MaxUint64 ->
  16 + len key < 2 ^ 32 ->
  forwardEdge optNamespace uid NamespaceAttr x.ToHexString nq = Ok de ->
  createEntries Posting_Marshal Fingerprint64 getSchema DataKey de = Ok me ->
  sid <> 0 /\ MapEntry_Key me = Ok key.
Proof.
  intros ns sid key Hsid Hk Hf Hc.
  destruct (forwardEdge_subject nq de Hf) as [Hs Hnz]. fold ns sid in Hs, Hnz.
  destruct (forwardEdge_inv _ _ _ _ _ _ Hf) as (Hp & Hns & _).
  fold ns in Hns. rewrite Hns in Hp.
  split; [exact Hnz|].
  unfold createEntries in Hc.
  destruct (createPostings Fingerprint64 getSchema de) as [fwd|];
    [|discriminate].
  cbn [rbind] in Hc. rewrite Hs in Hc.
  unfold x.ToHexString in Hc.
  rewrite HexProofs.FromHex_0x, HexProofs.ParseUint16_FormatUint16 in Hc
    by exact Hsid.
  cbn [rbind] in Hc. rewrite Hp in Hc. fold key in Hc.
  exact (addMapEntry_key _ _ _ Hc Hk).
Qed.
End DataEntry.


Lemma data_entry_key_witness :
  exists de me,
    forwardEdge MaxUint64 (fun _ _ => 5) (fun _ a => a) x.ToHexString
      (mkEdge "_:Person.alice" "name" "" (Some [Byte.x76]) 0) = Ok de
    /\ createEntries valueBytes (fun _ => 9)
         (fun _ => Some (mkSchemaUpdate false false))
         (fun _ u => if u =? 5 then [Byte.x05] else []) de = Ok me
    /\ MapEntry_Key me = Ok [Byte.x05].
Proof.
  do 2 eexists. split; [vm_compute; reflexivity|].
  split; [vm_compute; reflexivity|].
  refine (proj2 (data_entry_key valueBytes (fun _ => 9)
                   (fun _ => Some (mkSchemaUpdate false false))
                   (fun _ u => if u =? 5 then [Byte.x05] else [])
                   MaxUint64 (fun _ _ => 5) (fun _ a => a)
                   (mkEdge "_:Person.alice" "name" "" (Some [Byte.x76]) 0)
                   _ _ _ _ _ _)).
  - vm_compute. split; congruence.
  - vm_compute. reflexivity.
  - vm_compute. reflexivity.
  - vm_compute. reflexivity.
Defined.

End EdgeProofs.
